(** * PoolinGH: the rate-limit-aware client and the dispatch queue

    A shallow embedding of [GitHubApiClient] (github-api-client.helper.js),
    [GitHubApiRequest] (github-api-request.model.js) and [GitHubApiQueue]
    (github-api-queue.helper.js), and the properties the specification
    states about them.

    Conventions of the embedding.
    - A JavaScript number is an exact integer or [NaN] ([JsNum]); the values
      the program computes with are epoch milliseconds, counters and parsed
      header fields, all integers.  Beyond 2^53 a double is not exact, but
      every such value is already outside the range of [Date].
    - A method of a class is a computation in the monad [M]: it reads and
      writes the fields of the object and the surrounding event loop (pending
      timers, the clock) and either returns or throws.  A thrown exception
      keeps the state reached so far, as in JavaScript.
    - [Date.now()] reads a clock oracle; two reads need not agree.
    - Every call of the logger, of [setTimeout]/[clearTimeout], of the
      transport and of the methods the tests spy on is appended to a trace.
    - The headers of a response are a finite map from header names, as the
      transport builds them.  The failure counts per URL are kept in a plain
      object indexed by whatever URL a request carries: they are a finite
      map of the properties of its own, read through the properties every
      object inherits ([PlainObject]).
    - A promise may reject with any value, and a callback may throw any
      value; [null] and [undefined] are told apart from the others because
      reading a property of them throws ([Request.Reason]).
    - The clients of a queue are distinct objects. *)

From Stdlib Require Import ZArith Lia Ascii String.
From stdpp Require Import gmap strings list fin_maps.

Local Open Scope string_scope.
Local Open Scope Z_scope.

(** ** JavaScript values *)

Module Js.

Inductive JsNum : Type :=
| Num (z : Z)
| NaN.

Definition add (a b : JsNum) : JsNum :=
  match a, b with Num x, Num y => Num (x + y) | _, _ => NaN end.

Definition sub (a b : JsNum) : JsNum :=
  match a, b with Num x, Num y => Num (x - y) | _, _ => NaN end.

Definition mul (a b : JsNum) : JsNum :=
  match a, b with Num x, Num y => Num (x * y) | _, _ => NaN end.

(** [a <= b]: false as soon as one side is [NaN]. *)
Definition leb (a b : JsNum) : bool :=
  match a, b with Num x, Num y => x <=? y | _, _ => false end.

(** [a > b]. *)
Definition gtb (a b : JsNum) : bool :=
  match a, b with Num x, Num y => y <? x | _, _ => false end.

Inductive Exn : Type :=
| RangeError   (* Invalid time value *)
| TypeError.   (* Cannot read properties of null / undefined *)

(** A string is truthy when it is not empty; [undefined] is falsy. *)
Definition truthy (o : option string) : bool :=
  match o with
  | Some s => negb (String.eqb s "")
  | None => false
  end.

(** *** [Number.parseInt] without a radix argument *)

Definition is_white (a : ascii) : bool :=
  let n := Z.of_nat (nat_of_ascii a) in
  (n =? 32) || ((9 <=? n) && (n <=? 13)).

Fixpoint skip_white (s : string) : string :=
  match s with
  | String a r => if is_white a then skip_white r else s
  | EmptyString => s
  end.

Definition digit_val (radix : Z) (a : ascii) : option Z :=
  let n := Z.of_nat (nat_of_ascii a) in
  let d :=
    if (48 <=? n) && (n <=? 57) then Some (n - 48)
    else if (97 <=? n) && (n <=? 122) then Some (n - 87)
    else if (65 <=? n) && (n <=? 90) then Some (n - 55)
    else None in
  match d with
  | Some v => if v <? radix then Some v else None
  | None => None
  end.

(** The longest prefix of digits; [None] when there is no digit at all. *)
Fixpoint parse_digits (radix : Z) (s : string) (acc : option Z) : option Z :=
  match s with
  | String a r =>
      match digit_val radix a with
      | Some d => parse_digits radix r (Some (radix * default 0 acc + d))
      | None => acc
      end
  | EmptyString => acc
  end.

Definition parseInt (s : string) : JsNum :=
  let s1 := skip_white s in
  let '(neg, s2) :=
    match s1 with
    | String "-" r => (true, r)
    | String "+" r => (false, r)
    | _ => (false, s1)
    end in
  let '(radix, s3) :=
    match s2 with
    | String "0" (String "x" r) => (16, r)
    | String "0" (String "X" r) => (16, r)
    | _ => (10, s2)
    end in
  match parse_digits radix s3 None with
  | Some n => Num (if neg then - n else n)
  | None => NaN
  end.

(** *** [Date] *)

(** The largest time value of a [Date], in milliseconds either side of the
    epoch. *)
Definition max_time : Z := 8640000000000000.

Definition valid_time (t : JsNum) : bool :=
  match t with
  | Num z => (- max_time <=? z) && (z <=? max_time)
  | NaN => false
  end.

End Js.

Export Js.

(** ** The transport *)

Abbreviation Headers := (gmap string string).

(** What axios delivers: a response, or an error that may carry one. *)
Record Response : Type := mkResponse {
  status : option Z;
  headers : option Headers;
  data : string;
}.

Record AxiosError : Type := mkAxiosError {
  message : string;
  response : option Response;
}.

(** What a rejected promise carries: the transport's error, or an exception
    thrown inside a handler. *)
Inductive JsError : Type :=
| Transport (e : AxiosError)
| Thrown (x : Exn).

Inductive Settlement : Type :=
| Fulfilled (r : Response)
| Failed (e : AxiosError).

Inductive Settled : Type :=
| Resolved (r : Response)
| Rejected (e : JsError).

(** The [params] argument of a request. *)
Record ParamsObj : Type := mkParams {
  p_method : option string;
  p_headers : Headers;
  p_body : option string;
}.

Inductive Params : Type :=
| PUndefined
| PNull
| PObj (o : ParamsObj).

Definition empty_params : ParamsObj :=
  {| p_method := None; p_headers := ∅; p_body := None |}.

Record AxiosConfig : Type := mkConfig {
  cfg_url : option string;
  cfg_method : string;
  cfg_headers : Headers;
  cfg_data : option string;
}.

(** ** The event trace *)

Inductive Level : Type := Info | Warn | Error.

Inductive Msg : Type :=
| MsgQuery (url : option string)
| MsgError (m : string)
| MsgRateLimit (remaining : JsNum) (reset_time : Z)
| MsgNoHeaders
| MsgPast
| MsgResume
| MsgPause (reset_at : Z) (minutes seconds : Z)
| MsgExceededUntil (st : option Z) (until : Z)
| MsgExceededStored (st : option Z).

Inductive Event : Type :=
| EvLog (l : Level) (m : Msg)
| EvPause (resetAt : JsNum)          (* pause(resetAt) entered *)
| EvResume                           (* _resume() entered *)
| EvRefresh (h : option Headers)     (* _refresh(headers) entered *)
| EvSetTimeout (id : nat) (delay : JsNum)
| EvClearTimeout (id : nat)
| EvAxios (cfg : AxiosConfig).

(** ** GitHubApiClient *)

Module Client.

Record GitHubApiClient : Type := mkClient {
  _token : string;
  _authorized : bool;
  _busy : bool;
  _remainingRequests : JsNum;
  _resetAt : JsNum;
  _safetyRemainingRequestCount : Z;
  _tokenResumeBufferTime : Z;
  _resumeTimer : option nat;
}.

(** The object together with the part of the event loop it acts on. *)
Record World : Type := mkWorld {
  self : GitHubApiClient;
  timers : list (nat * JsNum);   (* pending resume timers: handle, delay *)
  next_timer : nat;              (* the next handle setTimeout returns *)
  clock : nat -> Z;              (* the n-th read of Date.now() *)
  reads : nat;                   (* reads of the clock so far *)
  trace : list Event;
}.

Definition constructor (token : string) (safety buffer : Z) : GitHubApiClient :=
  {| _token := token; _authorized := true; _busy := false;
     _remainingRequests := Num 0; _resetAt := Num 0;
     _safetyRemainingRequestCount := safety;
     _tokenResumeBufferTime := buffer;
     _resumeTimer := None |}.

(** [new GitHubApiClient(token)]: safety margin 5, resume buffer 2000 ms. *)
Definition new_client (token : string) : GitHubApiClient := constructor token 5 2000.

Definition boot (c : GitHubApiClient) (clk : nat -> Z) : World :=
  {| self := c; timers := []; next_timer := O; clock := clk; reads := O;
     trace := [] |}.

(** *** The monad of methods *)

Inductive Outcome (A : Type) : Type :=
| Ret (a : A)
| Throw (x : Exn).
Arguments Ret {A} a.
Arguments Throw {A} x.

Definition M (A : Type) : Type := World -> Outcome A * World.

Definition ret {A} (a : A) : M A := fun w => (Ret a, w).

Definition throw {A} (x : Exn) : M A := fun w => (Throw x, w).

Definition bind {A B} (m : M A) (k : A -> M B) : M B :=
  fun w =>
    match m w with
    | (Ret a, w1) => k a w1
    | (Throw x, w1) => (Throw x, w1)
    end.

Declare Scope js_scope.
Delimit Scope js_scope with js.
Notation "x <- c1 ;; c2" := (bind c1 (fun x => c2))
  (at level 100, c1 at next level, right associativity) : js_scope.
Notation "c1 ;; c2" := (bind c1 (fun _ => c2))
  (at level 100, right associativity) : js_scope.
Local Open Scope js_scope.

Definition get : M GitHubApiClient := fun w => (Ret (self w), w).

Definition modify (f : GitHubApiClient -> GitHubApiClient) : M unit :=
  fun w =>
    (Ret tt,
     {| self := f (self w); timers := timers w; next_timer := next_timer w;
        clock := clock w; reads := reads w; trace := trace w |}).

Definition emit (e : Event) : M unit :=
  fun w =>
    (Ret tt,
     {| self := self w; timers := timers w; next_timer := next_timer w;
        clock := clock w; reads := reads w; trace := trace w ++ [e] |}).

Definition log (l : Level) (m : Msg) : M unit := emit (EvLog l m).

(** [Date.now()] *)
Definition date_now : M Z :=
  fun w =>
    (Ret (clock w (reads w)),
     {| self := self w; timers := timers w; next_timer := next_timer w;
        clock := clock w; reads := S (reads w); trace := trace w |}).

(** [new Date(t).toISOString()]: the time value when it is one, a
    [RangeError] otherwise. *)
Definition toISOString (t : JsNum) : M Z :=
  match t with
  | Num z => if valid_time t then ret z else throw RangeError
  | NaN => throw RangeError
  end.

(** [setTimeout(resume callback, delay)] *)
Definition setTimeout (delay : JsNum) : M nat :=
  fun w =>
    (Ret (next_timer w),
     {| self := self w; timers := timers w ++ [(next_timer w, delay)];
        next_timer := S (next_timer w);
        clock := clock w; reads := reads w;
        trace := trace w ++ [EvSetTimeout (next_timer w) delay] |}).

Definition drop_timer (id : nat) (ts : list (nat * JsNum)) : list (nat * JsNum) :=
  List.filter (fun t => negb (Nat.eqb (fst t) id)) ts.

(** [clearTimeout(id)] *)
Definition clearTimeout (id : nat) : M unit :=
  fun w =>
    (Ret tt,
     {| self := self w; timers := drop_timer id (timers w);
        next_timer := next_timer w;
        clock := clock w; reads := reads w;
        trace := trace w ++ [EvClearTimeout id] |}).

Definition set_authorized (b : bool) (c : GitHubApiClient) : GitHubApiClient :=
  {| _token := _token c; _authorized := b; _busy := _busy c;
     _remainingRequests := _remainingRequests c; _resetAt := _resetAt c;
     _safetyRemainingRequestCount := _safetyRemainingRequestCount c;
     _tokenResumeBufferTime := _tokenResumeBufferTime c;
     _resumeTimer := _resumeTimer c |}.

Definition set_busy (b : bool) (c : GitHubApiClient) : GitHubApiClient :=
  {| _token := _token c; _authorized := _authorized c; _busy := b;
     _remainingRequests := _remainingRequests c; _resetAt := _resetAt c;
     _safetyRemainingRequestCount := _safetyRemainingRequestCount c;
     _tokenResumeBufferTime := _tokenResumeBufferTime c;
     _resumeTimer := _resumeTimer c |}.

Definition set_remainingRequests (n : JsNum) (c : GitHubApiClient) : GitHubApiClient :=
  {| _token := _token c; _authorized := _authorized c; _busy := _busy c;
     _remainingRequests := n; _resetAt := _resetAt c;
     _safetyRemainingRequestCount := _safetyRemainingRequestCount c;
     _tokenResumeBufferTime := _tokenResumeBufferTime c;
     _resumeTimer := _resumeTimer c |}.

Definition set_resetAt (n : JsNum) (c : GitHubApiClient) : GitHubApiClient :=
  {| _token := _token c; _authorized := _authorized c; _busy := _busy c;
     _remainingRequests := _remainingRequests c; _resetAt := n;
     _safetyRemainingRequestCount := _safetyRemainingRequestCount c;
     _tokenResumeBufferTime := _tokenResumeBufferTime c;
     _resumeTimer := _resumeTimer c |}.

Definition set_resumeTimer (t : option nat) (c : GitHubApiClient) : GitHubApiClient :=
  {| _token := _token c; _authorized := _authorized c; _busy := _busy c;
     _remainingRequests := _remainingRequests c; _resetAt := _resetAt c;
     _safetyRemainingRequestCount := _safetyRemainingRequestCount c;
     _tokenResumeBufferTime := _tokenResumeBufferTime c;
     _resumeTimer := t |}.

(** *** The methods *)

(** The last five characters of the token. *)
Definition getToken (c : GitHubApiClient) : string :=
  let n := String.length (_token c) in
  String.substring (n - 5)%nat (n - (n - 5))%nat (_token c).

Definition isAuthorized (c : GitHubApiClient) : bool := _authorized c.

Definition isBusy (c : GitHubApiClient) : bool := _busy c.

Definition _resume : M unit :=
  emit EvResume ;;
  modify (set_authorized true) ;;
  modify (set_resumeTimer None).

(** The text [reset_in=...] of the pause message: minutes and seconds of the
    delay. *)
Definition timeUntilReset (delay : Z) : Z * Z :=
  let delaySeconds := delay / 1000 in
  (delaySeconds / 60, delaySeconds mod 60).

Definition pause (resetAt : JsNum) : M unit :=
  emit (EvPause resetAt) ;;
  modify (set_authorized false) ;;
  c <- get ;;
  match _resumeTimer c with
  | Some t => clearTimeout t ;; modify (set_resumeTimer None)
  | None => ret tt
  end ;;
  now <- date_now ;;
  let delay := add (sub resetAt (Num now)) (Num (_tokenResumeBufferTime c)) in
  if leb delay (Num 0) then
    log Info MsgPast ;;
    _resume ;;
    log Info MsgResume
  else
    iso <- toISOString resetAt ;;
    let '(minutes, seconds) :=
      timeUntilReset (match delay with Num d => d | NaN => 0 end) in
    log Info (MsgPause iso minutes seconds) ;;
    t <- setTimeout delay ;;
    modify (set_resumeTimer (Some t)).

(** The callback of the resume timer. *)
Definition resume_callback : M unit :=
  _resume ;;
  log Info MsgResume.

(** The event loop fires the pending timer [id]: it leaves the pending set
    and its callback runs.  Nothing happens for a handle that is not pending. *)
Definition fire (id : nat) : M unit :=
  fun w =>
    if existsb (fun t => Nat.eqb (fst t) id) (timers w) then
      resume_callback
        {| self := self w; timers := drop_timer id (timers w);
           next_timer := next_timer w; clock := clock w; reads := reads w;
           trace := trace w |}
    else (Ret tt, w).

Definition header (h : option Headers) (k : string) : option string :=
  match h with
  | Some m => m !! k
  | None => None
  end.

Definition _refresh (h : option Headers) : M unit :=
  emit (EvRefresh h) ;;
  if truthy (header h "x-ratelimit-remaining")
     && truthy (header h "x-ratelimit-reset") then
    modify (set_remainingRequests
              (parseInt (default "" (header h "x-ratelimit-remaining")))) ;;
    modify (set_resetAt
              (mul (parseInt (default "" (header h "x-ratelimit-reset")))
                   (Num 1000))) ;;
    c <- get ;;
    (if leb (sub (_remainingRequests c) (Num (_safetyRemainingRequestCount c)))
            (Num 0)
     then pause (_resetAt c)
     else ret tt) ;;
    c' <- get ;;
    iso <- toISOString (_resetAt c') ;;
    log Info (MsgRateLimit (_remainingRequests c') iso)
  else
    log Warn MsgNoHeaders.

(** The headers axios is called with: the two fixed ones, overridden by
    [params.headers]. *)
Definition request_headers (c : GitHubApiClient) (o : ParamsObj) : Headers :=
  p_headers o ∪
  <["Authorization" := "Bearer " ++ _token c]>
    (<["Accept" := "application/vnd.github.v3+json"]> ∅).

(** The object literal axios is called with. *)
Definition axios_config (c : GitHubApiClient) (url : option string)
    (o : ParamsObj) : AxiosConfig :=
  {| cfg_url := url;
     cfg_method :=
       if truthy (p_method o) then default "" (p_method o) else "GET";
     cfg_headers := request_headers c o;
     cfg_data := if truthy (p_body o) then p_body o else None |}.

(** The synchronous part of [request(url, params = {})]: up to the call of
    axios, which hands back the promise.  The default [{}] replaces an
    argument that is [undefined], not one that is [null]: reading
    [params.method] of [null] throws. *)
Definition request (url : option string) (params : Params) : M unit :=
  modify (set_busy true) ;;
  c <- get ;;
  match params with
  | PUndefined => emit (EvAxios (axios_config c url empty_params))
  | PObj o => emit (EvAxios (axios_config c url o))
  | PNull => throw TypeError
  end.

(** The [.then] handler. *)
Definition on_fulfilled (url : option string) (r : Response) : M Response :=
  _refresh (headers r) ;;
  modify (set_busy false) ;;
  log Info (MsgQuery url) ;;
  ret r.

Definition error_response (e : JsError) : option Response :=
  match e with
  | Transport a => response a
  | Thrown _ => None
  end.

Definition error_message (e : JsError) : string :=
  match e with
  | Transport a => message a
  | Thrown RangeError => "Invalid time value"
  | Thrown TypeError => "Cannot read properties"
  end.

Definition is_rate_limited (st : option Z) : bool :=
  match st with
  | Some s => (s =? 403) || (s =? 429)
  | None => false
  end.

(** The [.catch] handler; its result is the value the promise rejects
    with. *)
Definition on_rejected (url : option string) (error : JsError) : M JsError :=
  let resp := error_response error in
  _refresh (resp ≫= headers) ;;
  (if is_rate_limited (resp ≫= status) then
     retryAfter <-
       match resp with
       | None => ret None
       | Some r =>
           match headers r with
           | Some h => ret (h !! "retry-after")
           | None => throw TypeError
           end
       end ;;
     if truthy retryAfter then
       now <- date_now ;;
       let resetTime :=
         add (Num now) (mul (parseInt (default "" retryAfter)) (Num 1000)) in
       iso <- toISOString resetTime ;;
       log Warn (MsgExceededUntil (resp ≫= status) iso) ;;
       pause resetTime
     else
       c <- get ;;
       if gtb (_resetAt c) (Num 0) then
         log Warn (MsgExceededStored (resp ≫= status)) ;;
         pause (_resetAt c)
       else ret tt
   else ret tt) ;;
  modify (set_busy false) ;;
  log Info (MsgQuery url) ;;
  log Error (MsgError (error_message error)) ;;
  ret error.

(** The promise [request] returns, once the transport settles: the [.then]
    handler runs on a response, the [.catch] handler on an error of the
    transport or on an exception of the [.then] handler; an exception of the
    [.catch] handler rejects the promise. *)
Definition catch_handler (url : option string) (e : JsError) (w : World)
  : Settled * World :=
  match on_rejected url e w with
  | (Ret e', w1) => (Rejected e', w1)
  | (Throw x, w1) => (Rejected (Thrown x), w1)
  end.

Definition settle (url : option string) (t : Settlement) (w : World)
  : Settled * World :=
  match t with
  | Fulfilled r =>
      match on_fulfilled url r w with
      | (Ret v, w1) => (Resolved v, w1)
      | (Throw x, w1) => catch_handler url (Thrown x) w1
      end
  | Failed e => catch_handler url (Transport e) w
  end.

(** *** Notions used to state the properties of the client *)

(** The delay [pause] computes when the clock reads [now]. *)
Definition delay_at (c : GitHubApiClient) (resetAt : JsNum) (now : Z) : JsNum :=
  add (sub resetAt (Num now)) (Num (_tokenResumeBufferTime c)).

(** The pending timers once the handle of the client is cleared. *)
Definition cancelled (w : World) : list (nat * JsNum) :=
  match _resumeTimer (self w) with
  | Some t => drop_timer t (timers w)
  | None => timers w
  end.

Definition cancel_events (w : World) : list Event :=
  match _resumeTimer (self w) with
  | Some t => [EvClearTimeout t]
  | None => []
  end.

(** At most one resume timer is pending, the one whose handle the client
    holds, and [setTimeout] has not handed out its handle again. *)
Definition timer_inv (w : World) : Prop :=
  map fst (timers w) = option_list (_resumeTimer (self w))
  /\ Forall (fun t => (fst t < next_timer w)%nat) (timers w).

Definition is_pause (e : Event) : bool :=
  match e with
  | EvPause _ => true
  | _ => false
  end.

(** Both rate-limit headers are there, as [_refresh] tests it. *)
Definition rate_limit_headers (h : option Headers) : bool :=
  truthy (header h "x-ratelimit-remaining")
  && truthy (header h "x-ratelimit-reset").

Definition refreshed_remaining (h : option Headers) : JsNum :=
  parseInt (default "" (header h "x-ratelimit-remaining")).

Definition refreshed_resetAt (h : option Headers) : JsNum :=
  mul (parseInt (default "" (header h "x-ratelimit-reset"))) (Num 1000).

(** The reset time the headers carry, if any, is a time value of [Date]. *)
Definition refresh_ok (h : option Headers) : bool :=
  if rate_limit_headers h then valid_time (refreshed_resetAt h) else true.

(** The two parts of the [.catch] handler after [_refresh]: the handling of
    403 and 429, and the end of the handler. *)
Definition rate_limit_branch (resp : option Response) : M unit :=
  if is_rate_limited (resp ≫= status) then
    retryAfter <-
      match resp with
      | None => ret None
      | Some r =>
          match headers r with
          | Some h => ret (h !! "retry-after")
          | None => throw TypeError
          end
      end ;;
    if truthy retryAfter then
      now <- date_now ;;
      let resetTime :=
        add (Num now) (mul (parseInt (default "" retryAfter)) (Num 1000)) in
      iso <- toISOString resetTime ;;
      log Warn (MsgExceededUntil (resp ≫= status) iso) ;;
      pause resetTime
    else
      c <- get ;;
      if gtb (_resetAt c) (Num 0) then
        log Warn (MsgExceededStored (resp ≫= status)) ;;
        pause (_resetAt c)
      else ret tt
  else ret tt.

Definition finish_rejected (url : option string) (error : JsError) : M JsError :=
  modify (set_busy false) ;;
  log Info (MsgQuery url) ;;
  log Error (MsgError (error_message error)) ;;
  ret error.

(** The [Retry-After] header of a failure. *)
Definition retry_after (e : AxiosError) : option string :=
  match response e ≫= headers with
  | Some h => h !! "retry-after"
  | None => None
  end.

(** The time [pause] is called with when [Retry-After] is there and the
    clock reads [now]. *)
Definition retry_time (e : AxiosError) (now : Z) : JsNum :=
  add (Num now) (mul (parseInt (default "" (retry_after e))) (Num 1000)).

(** Every time the [.catch] handler writes in a message is a time value of
    [Date], and a 403 or 429 comes with headers: the handler does not throw. *)
Definition failure_ok (e : AxiosError) (w : World) : Prop :=
  refresh_ok (response e ≫= headers) = true
  /\ (is_rate_limited (response e ≫= status) = true ->
      response e ≫= headers <> None
      /\ (truthy (retry_after e) = true ->
          forall n, valid_time (retry_time e (clock w n)) = true)
      /\ (truthy (retry_after e) = false ->
          rate_limit_headers (response e ≫= headers) = false ->
          valid_time (_resetAt (self w)) = true)).

(** [_refresh] calls [pause]: both headers are there and the remaining
    requests do not exceed the safety margin. *)
Definition refresh_pauses (c : GitHubApiClient) (h : option Headers) : bool :=
  rate_limit_headers h
  && leb (sub (refreshed_remaining h) (Num (_safetyRemainingRequestCount c)))
         (Num 0).

(** The reset time the client holds once [_refresh] has returned. *)
Definition resetAt_after (c : GitHubApiClient) (h : option Headers) : JsNum :=
  if rate_limit_headers h then refreshed_resetAt h else _resetAt c.

(** What [Date.now()] gives to the [.catch] handler after its call of
    [_refresh], which has read the clock once if it has called [pause]. *)
Definition now_after (w : World) (h : option Headers) : Z :=
  clock w (if refresh_pauses (self w) h then S (reads w) else reads w).

(** What the promise rejects with when the transport fails with [e] and the
    client is in [w]: the error of the transport if the [.catch] handler
    returns, and else what the handler throws.
    - [_refresh] throws a [RangeError] when the reset time among the headers
      is no time value of [Date];
    - with status 403 or 429, reading [retry-after] throws a [TypeError]
      when the response has no headers;
    - with [Retry-After], the warning throws a [RangeError] when
      [now + retryAfter * 1000] is no time value of [Date];
    - without it, and with a reset time above 0, [pause] throws a
      [RangeError] when it has to wait for a reset time that is no time
      value of [Date]. *)
Definition rejection (e : AxiosError) (w : World) : JsError :=
  let h := response e ≫= headers in
  let now := now_after w h in
  let stored := resetAt_after (self w) h in
  if negb (refresh_ok h) then Thrown RangeError
  else if negb (is_rate_limited (response e ≫= status)) then Transport e
  else
    match h with
    | None => Thrown TypeError
    | Some _ =>
        if truthy (retry_after e) then
          if valid_time (retry_time e now) then Transport e
          else Thrown RangeError
        else if gtb stored (Num 0)
                && negb (leb (delay_at (self w) stored now) (Num 0))
                && negb (valid_time stored)
        then Thrown RangeError
        else Transport e
    end.

(** A computation keeps the one-timer invariant, whether it returns or
    throws. *)
Definition preserves {A} (m : M A) : Prop :=
  forall w, timer_inv w -> timer_inv (snd (m w)).

(** *** The life of a client *)

Inductive Step : Type :=
| SRequest (url : option string) (params : Params)   (* request(url, params) *)
| SSettle (url : option string) (t : Settlement)     (* the transport settles *)
| SPause (resetAt : JsNum)                           (* pause(resetAt) *)
| SFire (id : nat).                                  (* a timer fires *)

Definition step (s : Step) (w : World) : World :=
  match s with
  | SRequest url params => snd (request url params w)
  | SSettle url t => snd (settle url t w)
  | SPause resetAt => snd (pause resetAt w)
  | SFire id => snd (fire id w)
  end.

Inductive reachable : World -> Prop :=
| reach_new token safety buffer clk :
    reachable (boot (constructor token safety buffer) clk)
| reach_step s w :
    reachable w -> reachable (step s w).

End Client.

(** ** The earlier client

    The repository also holds an earlier [GitHubApiClient], which differs in
    [_refresh] and [pause]: it keeps no timer handle, never resumes at once
    and pauses for a minute when the rate-limit headers are missing.  The
    specification describes the later one, above. *)

Module Legacy.

Import Client.
Local Open Scope js_scope.

Definition _resume : M unit :=
  emit EvResume ;;
  modify (set_authorized true).

Definition pause (resetAt : JsNum) : M unit :=
  emit (EvPause resetAt) ;;
  modify (set_authorized false) ;;
  iso <- toISOString resetAt ;;
  log Info (MsgPause iso 0 0) ;;
  now <- date_now ;;
  c <- get ;;
  _ <- setTimeout
         (add (sub resetAt (Num now)) (Num (_tokenResumeBufferTime c))) ;;
  ret tt.

Definition _refresh (h : option Headers) : M unit :=
  emit (EvRefresh h) ;;
  if truthy (header h "x-ratelimit-remaining")
     && truthy (header h "x-ratelimit-reset") then
    modify (set_remainingRequests
              (parseInt (default "" (header h "x-ratelimit-remaining")))) ;;
    modify (set_resetAt
              (mul (parseInt (default "" (header h "x-ratelimit-reset")))
                   (Num 1000))) ;;
    c <- get ;;
    (if leb (sub (_remainingRequests c) (Num (_safetyRemainingRequestCount c)))
            (Num 0)
     then pause (_resetAt c)
     else ret tt) ;;
    c' <- get ;;
    iso <- toISOString (_resetAt c') ;;
    log Info (MsgRateLimit (_remainingRequests c') iso)
  else
    now <- date_now ;;
    pause (Num (now + 1000 * 60)).

End Legacy.

(** ** GitHubApiRequest *)

Module Request.

(** What is thrown, or what a promise rejects with, as far as the handlers
    of the queue go: all they do with it is read [error.message]. *)
Inductive Reason : Type :=
| Failure (e : JsError)            (* an error of the transport, or an exception *)
| Value (message : option string)  (* another value that is not [null] or
                                      [undefined], with its [message] if it
                                      has one *)
| Nullish.                         (* [null] or [undefined]: reading a property
                                      of it throws *)

(** What a call of the user's callback does: it returns a value or throws. *)
Inductive Completion : Type :=
| Normal (v : option string)
| Abrupt (reason : Reason).

(** Two requests with the same fields are still two objects: [_id] stands
    for the identity of the object. *)
Record GitHubApiRequest : Type := mkRequest {
  _id : nat;
  _url : string;
  _params : Params;
  _callback : Response -> Completion;
}.

(** [new GitHubApiRequest(url, params = {}, callback = () => {})] *)
Definition constructor (id : nat) (url : string) (params : Params)
    (callback : option (Response -> Completion)) : GitHubApiRequest :=
  {| _id := id;
     _url := url;
     _params := match params with PUndefined => PObj empty_params | p => p end;
     _callback := default (fun _ => Normal None) callback |}.

Definition getUrl (r : GitHubApiRequest) : string := _url r.
Definition getParams (r : GitHubApiRequest) : Params := _params r.
Definition getCallback (r : GitHubApiRequest) : Response -> Completion := _callback r.
Definition runCallback (r : GitHubApiRequest) (results : Response) : Completion :=
  _callback r results.

End Request.

(** ** A plain object used as a dictionary

    [_errorUrls] is created as [{}] and indexed by URL.  Reading a key the
    object does not have as a property of its own finds the property of that
    name that every object inherits, if there is one: a method, or the
    accessor [__proto__]. *)

Module PlainObject.

Inductive Inherited : Type :=
| Method          (* a function *)
| ProtoAccessor.  (* [__proto__]: read, it gives the prototype, an object;
                     written with a string, it does nothing *)

Definition method_names : list string :=
  ["constructor"; "hasOwnProperty"; "isPrototypeOf"; "propertyIsEnumerable";
   "toLocaleString"; "toString"; "valueOf"; "__defineGetter__";
   "__defineSetter__"; "__lookupGetter__"; "__lookupSetter__"].

Definition inherited (key : string) : option Inherited :=
  if String.eqb key "__proto__" then Some ProtoAccessor
  else if existsb (String.eqb key) method_names then Some Method
  else None.

(** A property of its own, as the queue writes it: a number, or the string
    that [+= 1] makes of an inherited method, the text of the function
    followed by as many characters [1] as there were additions.  Such a
    string is not empty and is no numeral: it is truthy, and compared with a
    number it is neither below nor above. *)
Inductive Entry : Type :=
| ENum (n : Z)
| EText (ones : nat).

Abbreviation Dict := (gmap string Entry).

(** [if (!obj[key]) obj[key] = 1; else obj[key] += 1;] *)
Definition count_failure (obj : Dict) (key : string) : Dict :=
  match obj !! key with
  | Some (ENum n) => <[key := ENum (if n =? 0 then 1 else n + 1)]> obj
  | Some (EText ones) => <[key := EText (S ones)]> obj
  | None =>
      match inherited key with
      | Some Method => <[key := EText 1]> obj
      | Some ProtoAccessor => obj
      | None => <[key := ENum 1]> obj
      end
  end.

(** [obj[key] < limit] *)
Definition below (obj : Dict) (key : string) (limit : Z) : bool :=
  match obj !! key with
  | Some (ENum n) => n <? limit
  | _ => false
  end.

(** [obj[key] >= limit], for a key of [Object.keys(obj)] *)
Definition reaches (limit : Z) (e : Entry) : bool :=
  match e with
  | ENum n => limit <=? n
  | EText _ => false
  end.

End PlainObject.

(** ** GitHubApiQueue *)

Module Queue.

Export Request.
Export PlainObject.

(** The promise [client.request(...)] returned, once settled. *)
Inductive Promised : Type :=
| Resolves (result : Response)
| Rejects (reason : Reason).

(** What the queue uses of a client: the two getters and [request].  The
    queue is written against these three methods only (the tests pass plain
    objects); [request] is split in its synchronous part, which may throw,
    and the settlement of the promise it returns. *)
Class ApiClient (C : Type) : Type := {
  isAuthorized : C -> bool;
  isBusy : C -> bool;
  request : string -> Params -> C -> option Exn * C;
  settle : string -> Settlement -> C -> Promised * C;
}.

Inductive QMsg : Type :=
| QStart
| QStop
| QTooManyErrors                 (* [queue] Error: error count too big *)
| QError (m : string)            (* [queue] Error: <message> *)
| QRetry (url : string)          (* [queue] Retry: url=<url> *)
| QAbort (url : string).         (* [queue] Abort: url=<url> *)

Inductive QEvent : Type :=
| QLog (l : Level) (m : QMsg)
| QDispatch (client : nat) (r : GitHubApiRequest)   (* client.request(...) called *)
| QCallback (r : GitHubApiRequest) (result : Response)
| QSetTimeout (delay : Z)                            (* setTimeout(queue, delay) *)
| QUncaught (x : Exn).

Section WithClient.

Context {C : Type} `{ApiClient C}.

Record GitHubApiQueue : Type := mkQueue {
  _clients : list C;
  _queries : list GitHubApiRequest;
  _isStopped : bool;
  _errorCount : Z;
  _errorUrls : Dict;
  _maxErrorCountPerRequest : Z;
  _maxErrorCountInTotal : Z;
}.

(** The queue object and the part of the event loop it acts on. *)
Record Loop : Type := mkLoop {
  queue : GitHubApiQueue;
  inflight : list (nat * GitHubApiRequest);  (* dispatched, not yet settled *)
  pending : list Z;                          (* pending setTimeout(queue, d) *)
  qtrace : list QEvent;
}.

Definition constructor (clients : list C) (maxErrorCountPerRequest : Z)
    (maxErrorCountInTotal : option Z) : GitHubApiQueue :=
  {| _clients := clients;
     _queries := [];
     _isStopped := false;
     _errorCount := 0;
     _errorUrls := ∅;
     _maxErrorCountPerRequest := maxErrorCountPerRequest;
     _maxErrorCountInTotal :=
       default (maxErrorCountPerRequest * 1000) maxErrorCountInTotal |}.

(** [new GitHubApiQueue(clients)] *)
Definition new_queue (clients : list C) : GitHubApiQueue :=
  constructor clients 5 None.

Definition boot (q : GitHubApiQueue) : Loop :=
  {| queue := q; inflight := []; pending := []; qtrace := [] |}.

Definition set_queue (q : GitHubApiQueue) (w : Loop) : Loop :=
  {| queue := q; inflight := inflight w; pending := pending w;
     qtrace := qtrace w |}.

Definition emit (e : QEvent) (w : Loop) : Loop :=
  {| queue := queue w; inflight := inflight w; pending := pending w;
     qtrace := qtrace w ++ [e] |}.

Definition log (l : Level) (m : QMsg) : Loop -> Loop := emit (QLog l m).

(** [setTimeout(queue, delay)] *)
Definition setTimeout (delay : Z) (w : Loop) : Loop :=
  {| queue := queue w; inflight := inflight w; pending := pending w ++ [delay];
     qtrace := qtrace w ++ [QSetTimeout delay] |}.

Definition add_inflight (i : nat) (r : GitHubApiRequest) (w : Loop) : Loop :=
  {| queue := queue w; inflight := inflight w ++ [(i, r)]; pending := pending w;
     qtrace := qtrace w |}.

Definition set_clients (cs : list C) (q : GitHubApiQueue) : GitHubApiQueue :=
  {| _clients := cs; _queries := _queries q; _isStopped := _isStopped q;
     _errorCount := _errorCount q; _errorUrls := _errorUrls q;
     _maxErrorCountPerRequest := _maxErrorCountPerRequest q;
     _maxErrorCountInTotal := _maxErrorCountInTotal q |}.

Definition set_queries (rs : list GitHubApiRequest) (q : GitHubApiQueue)
  : GitHubApiQueue :=
  {| _clients := _clients q; _queries := rs; _isStopped := _isStopped q;
     _errorCount := _errorCount q; _errorUrls := _errorUrls q;
     _maxErrorCountPerRequest := _maxErrorCountPerRequest q;
     _maxErrorCountInTotal := _maxErrorCountInTotal q |}.

Definition set_isStopped (b : bool) (q : GitHubApiQueue) : GitHubApiQueue :=
  {| _clients := _clients q; _queries := _queries q; _isStopped := b;
     _errorCount := _errorCount q; _errorUrls := _errorUrls q;
     _maxErrorCountPerRequest := _maxErrorCountPerRequest q;
     _maxErrorCountInTotal := _maxErrorCountInTotal q |}.

Definition set_errors (n : Z) (m : Dict) (q : GitHubApiQueue)
  : GitHubApiQueue :=
  {| _clients := _clients q; _queries := _queries q;
     _isStopped := _isStopped q;
     _errorCount := n; _errorUrls := m;
     _maxErrorCountPerRequest := _maxErrorCountPerRequest q;
     _maxErrorCountInTotal := _maxErrorCountInTotal q |}.

(** *** The methods *)

Definition getClients (q : GitHubApiQueue) : list C := _clients q.

Definition getQueueLength (q : GitHubApiQueue) : nat := length (_queries q).

(** [Object.keys(this._errorUrls).reduce(...)] *)
Definition getRequestFailCount (q : GitHubApiQueue) : Z :=
  foldl
    (fun acc url =>
       if match _errorUrls q !! url with
          | Some e => reaches (_maxErrorCountPerRequest q) e
          | None => false
          end
       then acc + 1 else acc)
    0
    (map fst (map_to_list (_errorUrls q))).

(** [this._queries.push(...gitHubApiRequest)]: at the end of the array. *)
Definition push (rs : list GitHubApiRequest) (q : GitHubApiQueue) : GitHubApiQueue :=
  set_queries (_queries q ++ rs) q.

(** [this._queries.unshift(...gitHubApiRequest)]: at index 0, in the order
    given. *)
Definition unshift (rs : list GitHubApiRequest) (q : GitHubApiQueue) : GitHubApiQueue :=
  set_queries (rs ++ _queries q) q.

Definition stop (w : Loop) : Loop :=
  set_queue (set_isStopped true (queue w)) (log Info QStop w).

(** [Array.prototype.pop]: the last element and the array without it. *)
Definition pop {A} (l : list A) : option (A * list A) :=
  match last l with
  | Some x => Some (x, removelast l)
  | None => None
  end.

(** [this._clients.filter(client => client.isAuthorized() && !client.isBusy())],
    each client with its position in [_clients]. *)
Definition availableClients (cs : list C) : list (nat * C) :=
  List.filter (fun ic => isAuthorized (snd ic) && negb (isBusy (snd ic)))
    (imap (fun i c => (i, c)) cs).

(** The [for (const client of availableClients)] loop.  A client whose
    [request] throws ends the loop with the exception; the request it had
    popped stays popped. *)
Fixpoint dispatch (avail : list (nat * C)) (w : Loop) : option Exn * Loop :=
  match avail with
  | [] => (None, w)
  | (i, client) :: rest =>
      match pop (_queries (queue w)) with
      | None => (None, w)
      | Some (request_, qs) =>
          let w1 := emit (QDispatch i request_)
                      (set_queue (set_queries qs (queue w)) w) in
          let '(thrown, client') :=
            request (getUrl request_) (getParams request_) client in
          let w2 :=
            set_queue (set_clients (<[i := client']> (_clients (queue w1)))
                         (queue w1)) w1 in
          match thrown with
          | Some x => (Some x, w2)
          | None => dispatch rest (add_inflight i request_ w2)
          end
      end
  end.

(** One run of the closure [queue] of [_process]. *)
Definition tick (w : Loop) : option Exn * Loop :=
  let q := queue w in
  if _isStopped q then (None, w)
  else if _maxErrorCountInTotal q <=? _errorCount q then
    (None, log Error QTooManyErrors w)
  else
    let avail := availableClients (_clients q) in
    if (Nat.eqb (length (_queries q)) 0) || (Nat.eqb (length avail) 0) then
      (None, setTimeout 1000 w)
    else dispatch avail w.

(** [_process()]: define the closure and run it once. *)
Definition _process (w : Loop) : option Exn * Loop := tick w.

Definition start (w : Loop) : option Exn * Loop :=
  _process (log Info QStart w).

(** An exception nothing catches. *)
Definition uncaught (r : option Exn * Loop) : Loop :=
  match r with
  | (None, w) => w
  | (Some x, w) => emit (QUncaught x) w
  end.

(** [error.message], as the template of the log line reads it; [None]
    when reading it throws. *)
Definition reason_message (reason : Reason) : option string :=
  match reason with
  | Failure e => Some (Client.error_message e)
  | Value (Some m) => Some m
  | Value None => Some "undefined"
  | Nullish => None
  end.

(** The [.catch] handler of a dispatch.  Its first statement reads
    [error.message]: for [null] or [undefined] it throws there, before
    anything is counted. *)
Definition on_error (r : GitHubApiRequest) (error : Reason) (w : Loop)
  : option Exn * Loop :=
  match reason_message error with
  | None => (Some TypeError, w)
  | Some text =>
      let w := log Error (QError text) w in
      let q := queue w in
      let url := getUrl r in
      let q := set_errors (_errorCount q + 1)
                 (count_failure (_errorUrls q) url) q in
      if below (_errorUrls q) url (_maxErrorCountPerRequest q) then
        (None, set_queue (unshift [r] q) (log Info (QRetry url) w))
      else
        (None, set_queue q (log Error (QAbort url) w))
  end.

(** The [.then] handler of a dispatch; an exception of the callback reaches
    the [.catch] handler chained after it. *)
Definition on_result (r : GitHubApiRequest) (result : Response) (w : Loop)
  : option Exn * Loop :=
  let w := emit (QCallback r result) w in
  match runCallback r result with
  | Normal _ => (None, w)
  | Abrupt reason => on_error r reason w
  end.

(** [.then(...).catch(...).finally(() => setTimeout(queue, 0))] on the
    promise of a dispatch, once it has settled.  The timer is set whether
    the handlers return or throw; an exception of the [.catch] handler is
    left unhandled. *)
Definition completion (r : GitHubApiRequest) (s : Promised) (w : Loop) : Loop :=
  let '(thrown, w) :=
    match s with
    | Resolves result => on_result r result w
    | Rejects error => on_error r error w
    end in
  uncaught (thrown, setTimeout 0 w).

(** *** The event loop *)

Inductive Action : Type :=
| APush (rs : list GitHubApiRequest)
| AUnshift (rs : list GitHubApiRequest)
| AStart
| AStop
| ATimer (k : nat)                    (* the k-th pending timer of the loop fires *)
| ASettle (k : nat) (t : Settlement)  (* the transport settles the k-th dispatch *)
| AClient (i : nat) (c : C).          (* client i changes by itself: its resume
                                         timer, or a pause() by the user *)

Definition exec (a : Action) (w : Loop) : Loop :=
  match a with
  | APush rs => set_queue (push rs (queue w)) w
  | AUnshift rs => set_queue (unshift rs (queue w)) w
  | AStart => uncaught (start w)
  | AStop => stop w
  | ATimer k =>
      match pending w !! k with
      | Some _ =>
          uncaught
            (tick {| queue := queue w; inflight := inflight w;
                     pending := delete k (pending w); qtrace := qtrace w |})
      | None => w
      end
  | ASettle k t =>
      match inflight w !! k with
      | Some (i, r) =>
          let w1 := {| queue := queue w; inflight := delete k (inflight w);
                       pending := pending w; qtrace := qtrace w |} in
          match _clients (queue w1) !! i with
          | Some c =>
              let '(s, c') := settle (getUrl r) t c in
              completion r s
                (set_queue (set_clients (<[i := c']> (_clients (queue w1)))
                              (queue w1)) w1)
          | None => w1
          end
      | None => w
      end
  | AClient i c =>
      set_queue (set_clients (<[i := c]> (_clients (queue w))) (queue w)) w
  end.

Definition run (acts : list Action) (w : Loop) : Loop :=
  foldl (fun w a => exec a w) w acts.

(** The states the queue can be in: built by the constructor, then driven by
    the calls of its user, the timers and the settlements. *)
Inductive reachable : Loop -> Prop :=
| reach_new clients maxPer maxTotal :
    reachable (boot (constructor clients maxPer maxTotal))
| reach_step a w :
    reachable w -> reachable (exec a w).

End WithClient.

Arguments GitHubApiQueue C : clear implicits.
Arguments Loop C : clear implicits.
Arguments Action C : clear implicits.

(** *** Notions used to state the properties of the queue *)

(** The sum of the failure counts of all URLs; an entry that is not a
    number adds nothing. *)
Definition sum_errors (m : Dict) : Z :=
  map_fold (fun _ e acc => match e with ENum n => n + acc | EText _ => acc end)
    0 m.

(** [errorCount] is the sum of [errorsByUrl]. *)
Definition counters_agree {C : Type} (w : Loop C) : Prop :=
  _errorCount (queue w) = sum_errors (_errorUrls (queue w)).

(** The URLs whose failure count has reached the limit per request. *)
Definition abandoned_urls (maxPer : Z) (m : Dict) : gset string :=
  dom (filter (fun kv : string * Entry => reaches maxPer kv.2 = true) m).

(** The failure count of a URL, 0 when it never failed or when its entry is
    not a number. *)
Definition failures (m : Dict) (url : string) : Z :=
  match m !! url with
  | Some (ENum n) => n
  | _ => 0
  end.

(** The failures of [url] are counted by a number: its entry holds one, or
    it has none and [url] is not the name of an inherited property. *)
Definition counted (m : Dict) (url : string) : bool :=
  match m !! url with
  | Some (ENum _) => true
  | Some (EText _) => false
  | None =>
      match inherited url with
      | None => true
      | Some _ => false
      end
  end.

(** The dispatches recorded in a trace: client and request. *)
Definition dispatched (evs : list QEvent) : list (nat * GitHubApiRequest) :=
  omap (fun e => match e with QDispatch i r => Some (i, r) | _ => None end) evs.

End Queue.

(** ** Clients of the queue *)

(** The client above, as the queue sees it. *)
#[export] Instance github_client : Queue.ApiClient Client.World := {|
  Queue.isAuthorized w := Client.isAuthorized (Client.self w);
  Queue.isBusy w := Client.isBusy (Client.self w);
  Queue.request url params w :=
    match Client.request (Some url) params w with
    | (Client.Ret _, w') => (None, w')
    | (Client.Throw x, w') => (Some x, w')
    end;
  Queue.settle url t w :=
    match Client.settle (Some url) t w with
    | (Resolved result, w') => (Queue.Resolves result, w')
    | (Rejected e, w') => (Queue.Rejects (Request.Failure e), w')
    end;
|}.

(** The plain objects the tests of the queue use as clients: fixed answers
    of the getters and a [request] that settles the same way each time. *)
Record Mock : Type := mkMock {
  mock_authorized : bool;
  mock_busy : bool;
  mock_settles : Queue.Promised;
  mock_calls : nat;
}.

#[export] Instance mock_client : Queue.ApiClient Mock := {|
  Queue.isAuthorized m := mock_authorized m;
  Queue.isBusy m := mock_busy m;
  Queue.request _ _ m :=
    (None, {| mock_authorized := mock_authorized m; mock_busy := mock_busy m;
              mock_settles := mock_settles m; mock_calls := S (mock_calls m) |});
  Queue.settle _ _ m := (mock_settles m, m);
|}.


(** ** Data of the test scenarios *)

Module Scenario.

Definition search_url (q : string) : string :=
  "https://api.github.com/search/repositories?q=" ++ q.

(** [new GitHubApiRequest(url)] *)
Definition search (id : nat) (q : string) : Request.GitHubApiRequest :=
  Request.constructor id (search_url q) PUndefined None.

Definition network_error : AxiosError :=
  {| message := "Error"; response := None |}.

Definition empty_result : Response :=
  {| status := Some 200; headers := None; data := "result" |}.

(** A client that is authorized and never busy, whose requests all fail. *)
Definition failing : Mock :=
  {| mock_authorized := true; mock_busy := false;
     mock_settles := Queue.Rejects (Request.Failure (Transport network_error)); mock_calls := 0 |}.

(** A client that is authorized and never busy, whose requests all
    succeed. *)
Definition succeeding : Mock :=
  {| mock_authorized := true; mock_busy := false;
     mock_settles := Queue.Resolves empty_result; mock_calls := 0 |}.

(** The ids of the requests dispatched in a trace, in order. *)
Definition dispatched_ids (evs : list Queue.QEvent) : list nat :=
  map (fun d => Request._id (snd d)) (Queue.dispatched evs).

(** A settlement of the first dispatch in flight; a mock client ignores what
    the transport delivers. *)
Definition settles : Queue.Action Mock := Queue.ASettle 0 (Failed network_error).

(** Three requests with different URLs. *)
Definition req_a : Request.GitHubApiRequest := search 1 "stars:1".
Definition req_b : Request.GitHubApiRequest := search 2 "stars:2".
Definition req_x : Request.GitHubApiRequest := search 3 "stars:>=1000".

(** Two requests with one URL. *)
Definition req_404 : Request.GitHubApiRequest := search 9 "404".
Definition req_404' : Request.GitHubApiRequest := search 10 "404".

(** A client with a token, started at a clock that stands still. *)
Definition github : Client.World :=
  Client.boot (Client.new_client "github-token-12345") (fun _ => 1700000000000).

(** A response with [remaining] requests left until the next hour. *)
Definition rate_limited_result (remaining : string) : Response :=
  {| status := Some 200;
     headers := Some (<["x-ratelimit-remaining" := remaining]>
                        (<["x-ratelimit-reset" := "1700003600"]> ∅));
     data := "items" |}.

End Scenario.

(** ** Further notions about the client *)

Module ClientNotions.

Import Client.

(** A computation keeps a property of the state, whether it returns or
    throws. *)
Definition keeps (P : World -> Prop) {A} (m : M A) : Prop :=
  forall w, P w -> P (snd (m w)).

(** The pending resume timer, the handle and the authorization agree: the
    only pending timer is the one of the handle, and an authorized client has
    none. *)
Definition client_inv (w : World) : Prop :=
  timer_inv w /\ (_authorized (self w) = true -> timers w = []).

(** [P] does not look at the trace, the clock or the rate-limit fields. *)
Definition framed (P : World -> Prop) : Prop :=
  forall w w',
    _authorized (self w') = _authorized (self w) ->
    _busy (self w') = _busy (self w) ->
    _resumeTimer (self w') = _resumeTimer (self w) ->
    timers w' = timers w ->
    next_timer w' = next_timer w ->
    P w -> P w'.

(** A computation keeps a property of the state when it returns. *)
Definition keeps_on_return (P : World -> Prop) {A} (m : M A) : Prop :=
  forall w a w', P w -> m w = (Ret a, w') -> P w'.

(** The one-timer invariant, and a client that is not authorized has a timer
    pending. *)
Definition waits (w : World) : Prop :=
  timer_inv w /\ (_authorized (self w) = false -> timers w <> []).

(** The step does not end in an exception of [pause] or of a handler:
    [pause] returns, and a settled promise does not reject with an exception
    thrown in the handlers.  A [request] that throws and a timer leave no
    exception behind a pause. *)
Definition returns (s : Step) (w : World) : Prop :=
  match s with
  | SSettle url t => forall x, fst (settle url t w) <> Rejected (Thrown x)
  | SPause resetAt => fst (pause resetAt w) = Ret tt
  | SRequest _ _ | SFire _ => True
  end.

Fixpoint all_return (ss : list Step) (w : World) : Prop :=
  match ss with
  | [] => True
  | s :: ss' => returns s w /\ all_return ss' (step s w)
  end.

Definition steps (ss : list Step) (w : World) : World :=
  foldl (fun w s => step s w) w ss.

End ClientNotions.

(** ** Further notions about the queue *)

Module QueueNotions.

Import Queue.
Local Open Scope list_scope.

(** The calls of the callbacks recorded in a trace: request and result. *)
Definition callbacks (evs : list QEvent) : list (GitHubApiRequest * Response) :=
  omap (fun e => match e with QCallback r res => Some (r, res) | _ => None end)
    evs.

(** What the [.catch] handler of a settled dispatch is given, if it runs:
    the reason the promise of the client rejects with, or what the callback
    throws. *)
Definition caught (r : GitHubApiRequest) (s : Promised) : option Reason :=
  match s with
  | Resolves result =>
      match runCallback r result with
      | Normal _ => None
      | Abrupt reason => Some reason
      end
  | Rejects reason => Some reason
  end.

(** The handler counts the failure: it runs, and can read the message of
    what it is given. *)
Definition counts (r : GitHubApiRequest) (s : Promised) : bool :=
  match caught r s with
  | Some reason => bool_decide (is_Some (reason_message reason))
  | None => false
  end.

(** The handler throws: it runs, on [null] or [undefined]. *)
Definition breaks (r : GitHubApiRequest) (s : Promised) : bool :=
  match caught r s with
  | Some reason => bool_decide (reason_message reason = None)
  | None => false
  end.

(** The callbacks that returned, and the requests given up, as the trace
    records them. *)
Definition returned (e : QEvent) : bool :=
  match e with
  | QCallback r result =>
      match runCallback r result with
      | Normal _ => true
      | Abrupt _ => false
      end
  | _ => false
  end.

Definition is_abort (e : QEvent) : bool :=
  match e with
  | QLog _ (QAbort _) => true
  | _ => false
  end.

Definition is_uncaught (e : QEvent) : bool :=
  match e with
  | QUncaught _ => true
  | _ => false
  end.

Definition succeeded (evs : list QEvent) : nat :=
  length (List.filter returned evs).

(** The exceptions nothing caught. *)
Definition unhandled (evs : list QEvent) : nat :=
  length (List.filter is_uncaught evs).

Definition aborted (evs : list QEvent) : nat :=
  length (List.filter is_abort evs).

(** Where a request [r] put at the head of the backlog stands, against the
    requests [old] that were above it then.  [given] are the requests handed
    out since, in order, and [backlog] is the backlog now.  Either [r] still
    waits, with what is left of [old] above it and the others of [old] handed
    out, last first; or [r] has been handed out, after all of [old]. *)
Definition behind (r : GitHubApiRequest)
    (old given backlog : list GitHubApiRequest) : Prop :=
  (exists below m above,
      (m <= length old)%nat
      /\ backlog = below ++ r :: take m old ++ above
      /\ sublist (rev (drop m old)) given)
  \/ sublist (rev old ++ [r]) given.

Section WithClient.

Context {C : Type} `{ApiClient C}.

(** One run of the loop on a backlog with [r] at its head and [old] above
    it: the run hands out the requests it takes from the end of the backlog,
    so that [r] either stays at the head or is the last request handed
    out. *)
Definition last_of_run (r : GitHubApiRequest) (old : list GitHubApiRequest)
    (w : Loop C) : Prop :=
  let w' := snd (tick w) in
  exists given n,
    dispatched (qtrace w') = dispatched (qtrace w) ++ given
    /\ (fst (tick w) = None -> inflight w' = inflight w ++ given)
    /\ ((_queries (queue w') = r :: take n old
         /\ map snd given = rev (drop n old))
        \/ (_queries (queue w') = []
            /\ map snd given = rev old ++ [r])).

(** Whatever happens afterwards, [r] stays behind the requests [old]. *)
Definition last_of_all (r : GitHubApiRequest) (old : list GitHubApiRequest)
    (w : Loop C) : Prop :=
  forall acts : list (Action C),
    exists given,
      dispatched (qtrace (run acts w)) = dispatched (qtrace w) ++ given
      /\ behind r old (map snd given) (_queries (queue (run acts w))).

(** A dispatching run of the loop on the backlog [backlog]: the first free
    client is handed the request at the end. *)
Definition tail_goes_first (backlog : list GitHubApiRequest) (w : Loop C)
  : Prop :=
  forall (i : nat) (c : C) rest bl x,
    _isStopped (queue w) = false ->
    _errorCount (queue w) < _maxErrorCountInTotal (queue w) ->
    availableClients (_clients (queue w)) = (i, c) :: rest ->
    backlog = bl ++ [x] ->
    let w' := snd (tick w) in
    let res := request (getUrl x) (getParams x) c in
    (exists given,
        dispatched (qtrace w') = dispatched (qtrace w) ++ (i, x) :: given)
    /\ _clients (queue w') !! i = Some (snd res)
    /\ (fst res = None ->
        exists more, inflight w' = inflight w ++ (i, x) :: more).

(** The requests the queue holds or has dealt with: waiting, in flight,
    done, given up, and dropped by a handler that threw. *)
Definition accounted (w : Loop C) : nat :=
  (getQueueLength (queue w) + length (inflight w)
   + succeeded (qtrace w) + aborted (qtrace w) + unhandled (qtrace w))%nat.

(** The failure counters of two states of the queue: the total is not
    smaller, every URL that has a count keeps one, not smaller, an entry that
    is not a number stays one, and the limit is the same. *)
Definition grows (q q' : GitHubApiQueue C) : Prop :=
  _errorCount q <= _errorCount q'
  /\ (forall url n, _errorUrls q !! url = Some (ENum n) ->
        exists n', _errorUrls q' !! url = Some (ENum n') /\ n <= n')
  /\ (forall url k, _errorUrls q !! url = Some (EText k) ->
        exists k', _errorUrls q' !! url = Some (EText k'))
  /\ _maxErrorCountPerRequest q' = _maxErrorCountPerRequest q.

Definition is_start (a : Action C) : bool :=
  match a with
  | AStart => true
  | _ => false
  end.

(** The number of requests the calls of [push] and [unshift] among the
    actions bring. *)
Definition enqueued (acts : list (Action C)) : nat :=
  foldr (fun a n =>
           match a with
           | APush rs | AUnshift rs => (length rs + n)%nat
           | _ => n
           end) 0%nat acts.

(** A request no client refuses on the spot: [request] returns its promise
    whatever the client. *)
Definition accepted (r : GitHubApiRequest) : Prop :=
  forall c : C, fst (request (getUrl r) (getParams r) c) = None.

Definition brings_accepted (a : Action C) : Prop :=
  match a with
  | APush rs | AUnshift rs => Forall accepted rs
  | _ => True
  end.

(** The URL of a request is not the name of a property every object
    inherits. *)
Definition plain_url (r : GitHubApiRequest) : Prop :=
  inherited (getUrl r) = None.

Definition brings_plain (a : Action C) : Prop :=
  match a with
  | APush rs | AUnshift rs => Forall plain_url rs
  | _ => True
  end.

(** Every entry of the failure counts is a number, 1 at least. *)
Definition numbers (m : Dict) : Prop :=
  forall url e, m !! url = Some e -> exists n, e = ENum n /\ 1 <= n.

(** The requests of the queue have plain URLs and the failure counts are
    numbers that add up to the total. *)
Definition numeric (w : Loop C) : Prop :=
  Forall plain_url (_queries (queue w))
  /\ Forall (fun ir => plain_url (snd ir)) (inflight w)
  /\ numbers (_errorUrls (queue w))
  /\ counters_agree w.

(** The loop is alive: one of its timers is pending, or a dispatch is in
    flight, whose settlement sets one. *)
Definition alive (w : Loop C) : Prop :=
  (0 < length (pending w) + length (inflight w))%nat.

(** The backlog and the dispatches in flight hold accepted requests, and
    the dispatches in flight are on clients of the queue. *)
Definition well_formed (w : Loop C) : Prop :=
  Forall accepted (_queries (queue w))
  /\ Forall (fun ir => (fst ir < length (_clients (queue w)))%nat
                       /\ accepted (snd ir)) (inflight w).

(** A client changes by itself in its authorization only: an action
    [AClient] leaves the busy flag of the client as it is. *)
Definition keeps_busy (a : Action C) (w : Loop C) : Prop :=
  match a with
  | AClient i c =>
      exists c0, _clients (queue w) !! i = Some c0 /\ isBusy c = isBusy c0
  | _ => True
  end.

Fixpoint own_steps (acts : list (Action C)) (w : Loop C) : Prop :=
  match acts with
  | [] => True
  | a :: acts' => keeps_busy a w /\ own_steps acts' (exec a w)
  end.

(** Every dispatch in flight is on a client of its own, which is busy. *)
Definition one_each (w : Loop C) : Prop :=
  NoDup (map fst (inflight w))
  /\ Forall (fun ir => exists c, _clients (queue w) !! fst ir = Some c
                                 /\ isBusy c = true) (inflight w).

End WithClient.

End QueueNotions.
(** * Properties *)

(** ** The client *)

(* Splits off the leading equations of a conjunction that hold by
   computation. *)
Ltac frame :=
  repeat match goal with
         | |- _ = _ /\ _ => split; [reflexivity|]
         end.

Module ClientFacts.
Import Client.
Local Open Scope list_scope.
#[local] Arguments valid_time : simpl never.
#[local] Arguments timeUntilReset : simpl never.

Ltac mrun :=
  cbv [_resume resume_callback log bind ret throw emit modify get date_now
       setTimeout clearTimeout];
  cbn [self timers next_timer clock reads trace fst snd].

Ltac open_world w :=
  let c := fresh "c" in
  destruct w as [c ? ? ? ? ?]; destruct c; cbn in *.

Lemma pause_resumes x w :
  leb (delay_at (self w) x (clock w (reads w))) (Num 0) = true ->
  pause x w =
  (Ret tt,
   {| self := set_resumeTimer None (set_authorized true (self w));
      timers := cancelled w; next_timer := next_timer w; clock := clock w;
      reads := S (reads w);
      trace := trace w ++ EvPause x :: cancel_events w
                 ++ [EvLog Info MsgPast; EvResume; EvLog Info MsgResume] |}).
Proof.
  unfold delay_at, cancelled, cancel_events. open_world w. intros Hd.
  unfold pause. mrun. cbn.
  destruct _resumeTimer0; mrun; cbn; rewrite Hd; cbn;
    rewrite <- ?(assoc_L (++)); reflexivity.
Qed.

Lemma pause_schedules x w :
  leb (delay_at (self w) x (clock w (reads w))) (Num 0) = false ->
  valid_time x = true ->
  exists z,
  x = Num z /\
  pause x w =
  (Ret tt,
   {| self := set_resumeTimer (Some (next_timer w)) (set_authorized false (self w));
      timers := cancelled w ++ [(next_timer w, delay_at (self w) x (clock w (reads w)))];
      next_timer := S (next_timer w); clock := clock w;
      reads := S (reads w);
      trace := trace w ++ EvPause x :: cancel_events w
                 ++ [EvLog Info
                       (MsgPause z
                          (fst (timeUntilReset (z - clock w (reads w) + _tokenResumeBufferTime (self w))))
                          (snd (timeUntilReset (z - clock w (reads w) + _tokenResumeBufferTime (self w)))));
                     EvSetTimeout (next_timer w)
                       (delay_at (self w) x (clock w (reads w)))] |}).
Proof.
  unfold delay_at, cancelled, cancel_events. open_world w. intros Hd Hv.
  destruct x as [z|]; [|discriminate]. exists z. split; [reflexivity|].
  unfold pause. mrun. cbn.
  destruct _resumeTimer0; mrun; cbn; cbn in Hd; rewrite Hd; unfold toISOString; rewrite Hv; destruct (timeUntilReset _); mrun; cbn;
    rewrite <- ?(assoc_L (++)); reflexivity.
Qed.

Lemma pause_throws x w :
  leb (delay_at (self w) x (clock w (reads w))) (Num 0) = false ->
  valid_time x = false ->
  pause x w =
  (Throw RangeError,
   {| self := set_resumeTimer None (set_authorized false (self w));
      timers := cancelled w; next_timer := next_timer w; clock := clock w;
      reads := S (reads w);
      trace := trace w ++ EvPause x :: cancel_events w |}).
Proof.
  unfold delay_at, cancelled, cancel_events. open_world w. intros Hd Hv.
  unfold pause. mrun. cbn.
  destruct _resumeTimer0; mrun; cbn; rewrite Hd; unfold toISOString;
    destruct x; rewrite ?Hv; mrun; cbn;
    rewrite <- ?(assoc_L (++)); reflexivity.
Qed.


Lemma timer_inv_new token safety buffer clk :
  timer_inv (boot (constructor token safety buffer) clk).
Proof. split; [reflexivity | constructor]. Qed.

Lemma cancelled_nil w : timer_inv w -> cancelled w = [].
Proof.
  unfold timer_inv, cancelled. intros [Hm _].
  destruct (_resumeTimer (self w)) as [t|]; cbn in Hm.
  - destruct (timers w) as [|[t' d] [|? ?]]; try discriminate.
    injection Hm as ->. cbn. rewrite Nat.eqb_refl. reflexivity.
  - destruct (timers w); [reflexivity | discriminate].
Qed.

Lemma timer_inv_handle w t :
  timer_inv w -> _resumeTimer (self w) = Some t ->
  exists d, timers w = [(t, d)] /\ (t < next_timer w)%nat.
Proof.
  intros [Hm Hf] Ht. rewrite Ht in Hm. cbn in Hm.
  destruct (timers w) as [|[t' d] [|? ?]]; try discriminate.
  injection Hm as ->. exists d. split; [reflexivity|].
  inversion Hf; subst. assumption.
Qed.

(** The timer [pause] left pending fires. *)
Lemma fire_single t d w :
  timers w = [(t, d)] ->
  fire t w =
  (Ret tt,
   {| self := set_resumeTimer None (set_authorized true (self w));
      timers := []; next_timer := next_timer w; clock := clock w;
      reads := reads w;
      trace := trace w ++ [EvResume; EvLog Info MsgResume] |}).
Proof.
  intros Ht. unfold fire. rewrite Ht. cbn. rewrite Nat.eqb_refl. cbn.
  mrun. rewrite <- (assoc_L (++)). reflexivity.
Qed.

Lemma fire_absent t w :
  t ∉ map fst (timers w) -> fire t w = (Ret tt, w).
Proof.
  intros Hn. unfold fire.
  destruct (existsb _ (timers w)) eqn:He; [|reflexivity].
  apply existsb_exists in He as ([t' d] & Hin & Heq). cbn in Heq.
  apply Nat.eqb_eq in Heq. subst t'. exfalso. apply Hn.
  apply list_elem_of_In, in_map_iff. exists (t, d). split; [reflexivity | assumption].
Qed.

(** *** What a call of [pause] does in general *)

Lemma pause_effect x w :
  exists o w' (evs : list Event),
    pause x w = (o, w')
    /\ trace w' = trace w ++ EvPause x :: evs
    /\ forallb (fun e => negb (is_pause e)) evs = true
    /\ _resetAt (self w') = _resetAt (self w)
    /\ _remainingRequests (self w') = _remainingRequests (self w)
    /\ _busy (self w') = _busy (self w)
    /\ _safetyRemainingRequestCount (self w') = _safetyRemainingRequestCount (self w)
    /\ _tokenResumeBufferTime (self w') = _tokenResumeBufferTime (self w)
    /\ clock w' = clock w
    /\ (o = Ret tt \/ (o = Throw RangeError /\ valid_time x = false))
    /\ (timer_inv w -> timer_inv w').
Proof.
  destruct (leb (delay_at (self w) x (clock w (reads w))) (Num 0)) eqn:Hd.
  - eexists _, _, _. split; [apply (pause_resumes _ _ Hd)|]. cbn.
    split; [reflexivity|]. split.
    { unfold cancel_events. destruct (_resumeTimer (self w)); reflexivity. }
    destruct (self w); cbn. frame.
    split; [left; reflexivity|].
    intros Hi. rewrite (cancelled_nil _ Hi). split; [reflexivity | constructor].
  - destruct (valid_time x) eqn:Hv.
    + destruct (pause_schedules _ _ Hd Hv) as (z & -> & Hp).
      eexists _, _, _. split; [apply Hp|]. cbn.
      split; [reflexivity|]. split.
      { unfold cancel_events. destruct (_resumeTimer (self w)); reflexivity. }
      destruct (self w); cbn. frame.
      split; [left; reflexivity|].
      intros Hi. rewrite (cancelled_nil _ Hi). split; [reflexivity|].
      repeat constructor.
    + eexists _, _, _. split; [apply (pause_throws _ _ Hd Hv)|]. cbn.
      split; [reflexivity|]. split.
      { unfold cancel_events. destruct (_resumeTimer (self w)); reflexivity. }
      destruct (self w); cbn. frame.
      split; [right; split; reflexivity|].
      intros Hi. rewrite (cancelled_nil _ Hi). split; [reflexivity | constructor].
Qed.

Lemma fire_preserves_inv t w : timer_inv w -> timer_inv (snd (fire t w)).
Proof.
  intros Hi. destruct (_resumeTimer (self w)) as [t'|] eqn:Ht.
  - destruct (timer_inv_handle _ _ Hi Ht) as (d & Hts & Hlt).
    destruct (decide (t = t')) as [->|Hne].
    + rewrite (fire_single _ _ _ Hts). split; [reflexivity | constructor].
    + rewrite fire_absent; [assumption|]. rewrite Hts. cbn.
      intros Hin. apply list_elem_of_singleton in Hin. contradiction.
  - rewrite fire_absent; [exact Hi|].
    destruct Hi as [Hm _]. rewrite Ht in Hm. cbn in Hm.
    rewrite Hm. apply not_elem_of_nil.
Qed.

(** C2, refuted.  The resume buffer decides, not the reset time alone: with
    the buffer of 2000 ms a reset time one second in the past leaves the
    client paused, with a timer of 1000 ms.  And a reset time that is no time
    value of [Date] stops [pause] in the message it logs, before the timer is
    set: the client stays paused and nothing will resume it. *)
Lemma pause_departures :
  let w := boot (new_client "github-token-12345") (fun _ => 10000) in
  let w' := snd (pause (Num 9000) w) in
  (9000 < clock w (reads w)
   /\ isAuthorized (self w') = false
   /\ timers w' = [(0%nat, Num 1000)])
  /\ pause (Num 8640000000000001) w
     = (Throw RangeError,
        {| self := set_authorized false (self w); timers := [];
           next_timer := 0; clock := clock w; reads := 1;
           trace := [EvPause (Num 8640000000000001)] |})
  /\ fst (pause NaN w) = Throw RangeError.
Proof. cbv zeta. split; [repeat split|]. split; reflexivity. Qed.

(** [pause] on a client that holds the handle of its only pending timer:
    the timer is cleared; then the client is resumed at once when
    [delay <= 0], and paused behind one new timer when [delay > 0] and the
    reset time can be logged. *)
Lemma pause_under_inv (w : World) (z : Z) :
  timer_inv w ->
  let now := clock w (reads w) in
  let delay := z - now + _tokenResumeBufferTime (self w) in
  let w' := snd (pause (Num z) w) in
  (forall t, _resumeTimer (self w) = Some t ->
     (t ∉ map fst (timers w'))
     /\ exists evs : list Event, trace w' = trace w ++ evs /\ EvClearTimeout t ∈ evs)
  /\ (delay <= 0 ->
      fst (pause (Num z) w) = Ret tt
      /\ isAuthorized (self w') = true
      /\ timers w' = []
      /\ _resumeTimer (self w') = None)
  /\ (0 < delay -> valid_time (Num z) = true ->
      fst (pause (Num z) w) = Ret tt
      /\ isAuthorized (self w') = false
      /\ exists t,
           timers w' = [(t, Num delay)]
           /\ _resumeTimer (self w') = Some t
           /\ let w'' := snd (fire t w') in
              fst (fire t w') = Ret tt
              /\ isAuthorized (self w'') = true
              /\ _resumeTimer (self w'') = None
              /\ timers w'' = []).
Proof.
  intros Hi now delay w'.
  assert (Hcases :
    (delay <= 0 /\ leb (delay_at (self w) (Num z) (clock w (reads w))) (Num 0) = true)
    \/ (0 < delay /\ leb (delay_at (self w) (Num z) (clock w (reads w))) (Num 0) = false)).
  { subst delay now. cbn. destruct (Z.leb_spec (z - clock w (reads w) + _tokenResumeBufferTime (self w)) 0);
      [left | right]; split; (lia || reflexivity). }
  split; [|split].
  - intros t Ht.
    destruct (timer_inv_handle _ _ Hi Ht) as (d & Hts & Hlt).
    assert (Hev : exists evs : list Event,
               trace w ++ EvPause (Num z) :: cancel_events w
               = trace w ++ evs /\ EvClearTimeout t ∈ evs).
    { eexists. split; [reflexivity|]. unfold cancel_events. rewrite Ht.
      apply list_elem_of_further, list_elem_of_here. }
    destruct Hcases as [[_ Hd]|[_ Hd]].
    + subst w'. rewrite (pause_resumes _ _ Hd). cbn.
      rewrite (cancelled_nil _ Hi). split; [apply not_elem_of_nil|].
      eexists. split; [reflexivity|]. unfold cancel_events. rewrite Ht.
      apply list_elem_of_further, list_elem_of_here.
    + destruct (valid_time (Num z)) eqn:Hv.
      * destruct (pause_schedules _ _ Hd Hv) as (z' & Hz & Hp).
        subst w'. rewrite Hp. cbn. rewrite (cancelled_nil _ Hi). cbn. split.
        { intros Hin. apply list_elem_of_singleton in Hin. lia. }
        eexists. split; [reflexivity|]. unfold cancel_events. rewrite Ht.
        apply list_elem_of_further, list_elem_of_here.
      * subst w'. rewrite (pause_throws _ _ Hd Hv). cbn.
        rewrite (cancelled_nil _ Hi). split; [apply not_elem_of_nil|].
        exact Hev.
  - intros Hle. destruct Hcases as [[_ Hd]|[Hgt _]]; [|lia].
    subst w'. rewrite (pause_resumes _ _ Hd).
    cbn. rewrite (cancelled_nil _ Hi). destruct (self w); cbn. auto.
  - intros Hgt Hv. destruct Hcases as [[Hle _]|[_ Hd]]; [lia|].
    destruct (pause_schedules _ _ Hd Hv) as (z' & Hz & Hp).
    subst w'. rewrite Hp. cbn. rewrite (cancelled_nil _ Hi). cbn.
    split; [reflexivity|]. split; [destruct (self w); reflexivity|].
    exists (next_timer w). split; [reflexivity|].
    split; [destruct (self w); reflexivity|].
    erewrite fire_single by reflexivity. cbn.
    destruct (self w); cbn. auto.
Qed.

(** *** [_refresh] *)

Lemma refresh_missing h w :
  rate_limit_headers h = false ->
  _refresh h w =
  (Ret tt,
   {| self := self w; timers := timers w; next_timer := next_timer w;
      clock := clock w; reads := reads w;
      trace := trace w ++ [EvRefresh h; EvLog Warn MsgNoHeaders] |}).
Proof.
  unfold rate_limit_headers. intros Hm. unfold _refresh. mrun.
  rewrite Hm. mrun. rewrite <- (assoc_L (++)). reflexivity.
Qed.

Lemma refresh_present h w :
  rate_limit_headers h = true ->
  _refresh h w =
  bind
    (if leb (sub (refreshed_remaining h)
                 (Num (_safetyRemainingRequestCount (self w)))) (Num 0)
     then pause (refreshed_resetAt h) else ret tt)
    (fun _ =>
       bind get (fun c' =>
       bind (toISOString (_resetAt c')) (fun iso =>
       log Info (MsgRateLimit (_remainingRequests c') iso))))
    {| self := set_resetAt (refreshed_resetAt h)
                 (set_remainingRequests (refreshed_remaining h) (self w));
       timers := timers w; next_timer := next_timer w;
       clock := clock w; reads := reads w;
       trace := trace w ++ [EvRefresh h] |}.
Proof.
  unfold rate_limit_headers, refreshed_remaining, refreshed_resetAt.
  intros Hm. unfold _refresh at 1.
  cbv [bind emit modify get]. cbn [self timers next_timer clock reads trace fst snd].
  rewrite Hm. destruct (self w); reflexivity.
Qed.

Lemma missing_header_falsy h :
  h = None
  \/ (exists m, h = Some m
       /\ (m !! "x-ratelimit-remaining" = None \/ m !! "x-ratelimit-reset" = None)) ->
  rate_limit_headers h = false.
Proof.
  unfold rate_limit_headers.
  intros [-> | (m & -> & [Hm | Hm])]; cbn; rewrite ?Hm; cbn;
    rewrite ?andb_false_r; reflexivity.
Qed.

Lemma present_header_truthy (m : Headers) rem rst :
  m !! "x-ratelimit-remaining" = Some rem ->
  m !! "x-ratelimit-reset" = Some rst ->
  rem <> "" -> rst <> "" ->
  rate_limit_headers (Some m) = true
  /\ refreshed_remaining (Some m) = parseInt rem
  /\ refreshed_resetAt (Some m) = mul (parseInt rst) (Num 1000).
Proof.
  unfold rate_limit_headers, refreshed_remaining, refreshed_resetAt.
  intros Hr Ht Hne1 Hne2. cbn. rewrite Hr, Ht. cbn.
  apply String.eqb_neq in Hne1, Hne2. rewrite Hne1, Hne2. auto.
Qed.

Lemma timer_inv_ext w w' :
  self w' = self w -> timers w' = timers w -> next_timer w' = next_timer w ->
  timer_inv w -> timer_inv w'.
Proof. unfold timer_inv. intros -> -> ->. auto. Qed.

(** The message that ends [_refresh] when the headers are there. *)
Lemma log_rate_limit_effect w :
  exists o w' (evs : list Event),
    bind get (fun c' =>
      bind (toISOString (_resetAt c')) (fun iso =>
        log Info (MsgRateLimit (_remainingRequests c') iso))) w = (o, w')
    /\ self w' = self w /\ timers w' = timers w
    /\ next_timer w' = next_timer w /\ clock w' = clock w
    /\ trace w' = trace w ++ evs
    /\ Forall (fun e => is_pause e = false) evs
    /\ (valid_time (_resetAt (self w)) = true -> o = Ret tt).
Proof.
  unfold bind at 1. unfold get. cbn [self].
  unfold toISOString.
  destruct (_resetAt (self w)) as [z|].
  - destruct (valid_time (Num z)) eqn:Hv.
    + mrun. eexists _, _, _. split; [reflexivity|]. cbn. frame.
      split; [repeat constructor | reflexivity].
    + exists (Throw RangeError), w, []. mrun. rewrite (right_id_L [] (++)).
      frame. split; [constructor | discriminate].
  - exists (Throw RangeError), w, []. mrun. rewrite (right_id_L [] (++)).
    frame. split; [constructor | discriminate].
Qed.

(** What a call of [_refresh] does in general. *)
Lemma refresh_effect h w :
  exists o w' (evs : list Event),
    _refresh h w = (o, w')
    /\ trace w' = trace w ++ EvRefresh h :: evs
    /\ (forall x, EvPause x ∈ evs <->
          rate_limit_headers h = true
          /\ x = refreshed_resetAt h
          /\ leb (sub (refreshed_remaining h)
                      (Num (_safetyRemainingRequestCount (self w)))) (Num 0) = true)
    /\ _resetAt (self w') =
         (if rate_limit_headers h then refreshed_resetAt h else _resetAt (self w))
    /\ _remainingRequests (self w') =
         (if rate_limit_headers h then refreshed_remaining h
          else _remainingRequests (self w))
    /\ _busy (self w') = _busy (self w)
    /\ _safetyRemainingRequestCount (self w') = _safetyRemainingRequestCount (self w)
    /\ _tokenResumeBufferTime (self w') = _tokenResumeBufferTime (self w)
    /\ clock w' = clock w
    /\ (refresh_ok h = true -> o = Ret tt)
    /\ (timer_inv w -> timer_inv w').
Proof.
  unfold refresh_ok.
  destruct (rate_limit_headers h) eqn:Hh.
  2:{ rewrite (refresh_missing _ _ Hh). eexists _, _, _.
      split; [reflexivity|]. cbn. split; [reflexivity|]. split.
      { intros x. split; [|intros (? & _); discriminate].
        intros Hin. apply list_elem_of_singleton in Hin. discriminate. }
      frame. split; [reflexivity|]. intros Hi. exact Hi. }
  rewrite (refresh_present _ _ Hh).
  set (w1 := {| self := _; timers := timers w |}).
  assert (Hrs1 : _resetAt (self w1) = refreshed_resetAt h)
    by (subst w1; destruct (self w); reflexivity).
  assert (Hrem1 : _remainingRequests (self w1) = refreshed_remaining h)
    by (subst w1; destruct (self w); reflexivity).
  assert (Hb1 : _busy (self w1) = _busy (self w))
    by (subst w1; destruct (self w); reflexivity).
  assert (Hsf1 : _safetyRemainingRequestCount (self w1)
                 = _safetyRemainingRequestCount (self w))
    by (subst w1; destruct (self w); reflexivity).
  assert (Hbf1 : _tokenResumeBufferTime (self w1) = _tokenResumeBufferTime (self w))
    by (subst w1; destruct (self w); reflexivity).
  assert (Htr1 : trace w1 = trace w ++ [EvRefresh h]) by reflexivity.
  assert (Hck1 : clock w1 = clock w) by reflexivity.
  assert (Hinv1 : timer_inv w -> timer_inv w1).
  { intros Hi. subst w1. unfold timer_inv in *. cbn. destruct (self w); exact Hi. }
  clearbody w1.
  destruct (leb _ (Num 0)) eqn:Hc.
  - destruct (pause_effect (refreshed_resetAt h) w1)
      as (o & w2 & evs & Hp & Htr & Hnp & Hrs & Hrem & Hb & Hsf & Hbf & Hck & Ho & Hi2).
    unfold bind at 1. rewrite Hp.
    assert (Hpev : forall evs' x,
               Forall (fun e => is_pause e = false) evs' ->
               EvPause x ∈ (EvPause (refreshed_resetAt h) :: evs ++ evs') <->
               true = true /\ x = refreshed_resetAt h /\ true = true).
    { intros evs' x Hevs'. split.
      - intros Hin. apply elem_of_cons in Hin as [Heq | Hin].
        + injection Heq as ->. auto.
        + exfalso. apply elem_of_app in Hin as [Hin | Hin].
          * rewrite forallb_forall in Hnp.
            apply list_elem_of_In, Hnp in Hin. discriminate.
          * rewrite Forall_forall in Hevs'. apply Hevs' in Hin. discriminate.
      - intros (_ & -> & _). apply list_elem_of_here. }
    destruct o as [[]|x0].
    + destruct (log_rate_limit_effect w2)
        as (o3 & w3 & evs3 & -> & Hs3 & Hts3 & Hnt3 & Hck3 & Htr3 & Hnp3 & Ho3).
      exists o3, w3, (EvPause (refreshed_resetAt h) :: evs ++ evs3).
      split; [reflexivity|].
      split. { rewrite Htr3, Htr, Htr1. rewrite <- !(assoc_L (++)). reflexivity. }
      split. { intros x. apply Hpev. exact Hnp3. }
      rewrite Hs3, Hck3, Hrs, Hrem, Hb, Hsf, Hbf, Hck.
      split; [exact Hrs1|]. split; [exact Hrem1|]. split; [exact Hb1|].
      split; [exact Hsf1|]. split; [exact Hbf1|]. split; [exact Hck1|].
      split. { intros Hv. apply Ho3. rewrite Hrs, Hrs1. exact Hv. }
      intros Hi. apply (timer_inv_ext w2); auto.
    + destruct Ho as [Ho | [Ho Hv]]; [discriminate|]. injection Ho as ->.
      exists (Throw RangeError), w2, (EvPause (refreshed_resetAt h) :: evs ++ []).
      split; [reflexivity|].
      split. { rewrite Htr, Htr1. rewrite <- !(assoc_L (++)).
               rewrite (right_id_L [] (++)). reflexivity. }
      split. { intros x. apply Hpev. constructor. }
      rewrite Hrs, Hrem, Hb, Hsf, Hbf, Hck.
      split; [exact Hrs1|]. split; [exact Hrem1|]. split; [exact Hb1|].
      split; [exact Hsf1|]. split; [exact Hbf1|]. split; [exact Hck1|].
      split; [rewrite Hv; discriminate|]. auto.
  - unfold bind at 1. unfold ret.
    destruct (log_rate_limit_effect w1)
      as (o3 & w3 & evs3 & -> & Hs3 & Hts3 & Hnt3 & Hck3 & Htr3 & Hnp3 & Ho3).
    exists o3, w3, evs3. split; [reflexivity|].
    split. { rewrite Htr3, Htr1. rewrite <- !(assoc_L (++)). reflexivity. }
    split. { intros x. split; [|intros (_ & _ & ?); discriminate].
             intros Hin. rewrite Forall_forall in Hnp3. apply Hnp3 in Hin.
             discriminate. }
    rewrite Hs3, Hck3.
    split; [exact Hrs1|]. split; [exact Hrem1|]. split; [exact Hb1|].
    split; [exact Hsf1|]. split; [exact Hbf1|]. split; [exact Hck1|].
    split. { intros Hv. apply Ho3. rewrite Hrs1. exact Hv. }
    intros Hi. apply (timer_inv_ext w1); auto.
Qed.

(** C6. When the headers of a response are absent or lack
    [x-ratelimit-remaining] or [x-ratelimit-reset], [_refresh] returns after
    a single warning: the fields of the client ([authorized],
    [remainingRequests], [resetAt] and the others) and the pending timers are
    what they were, and the only events are the entry of [_refresh] and the
    warning, so [pause] is not called. *)
Theorem refresh_without_rate_limit_headers_only_warns
    (h : option Headers) (w : World) :
  h = None
  \/ (exists m, h = Some m
       /\ (m !! "x-ratelimit-remaining" = None \/ m !! "x-ratelimit-reset" = None)) ->
  let w' := snd (_refresh h w) in
  fst (_refresh h w) = Ret tt
  /\ self w' = self w
  /\ isAuthorized (self w') = isAuthorized (self w)
  /\ _remainingRequests (self w') = _remainingRequests (self w)
  /\ _resetAt (self w') = _resetAt (self w)
  /\ timers w' = timers w
  /\ trace w' = trace w ++ [EvRefresh h; EvLog Warn MsgNoHeaders]
  /\ (forall x, EvPause x ∉ [EvRefresh h; EvLog Warn MsgNoHeaders]).
Proof.
  intros Hm w'. subst w'.
  rewrite (refresh_missing _ _ (missing_header_falsy _ Hm)). cbn.
  frame. intros x Hin.
  apply elem_of_cons in Hin as [Heq | Hin]; [discriminate|].
  apply list_elem_of_singleton in Hin. discriminate.
Qed.

(** A paused client receives a response without
    [x-ratelimit-remaining]: it stays as it is, its timer pending. *)
Lemma refresh_without_rate_limit_headers_only_warns_witness :
  let w := snd (pause (Num 30000)
                  (boot (new_client "github-token-12345") (fun _ => 10000))) in
  let h : option Headers := Some (<["x-ratelimit-reset" := "1700003600"]> ∅) in
  let w' := snd (_refresh h w) in
  isAuthorized (self w') = false
  /\ self w' = self w
  /\ timers w' = timers w.
Proof.
  intros w h w'.
  assert (Hm : h = None
               \/ (exists m, h = Some m
                    /\ (m !! "x-ratelimit-remaining" = None
                        \/ m !! "x-ratelimit-reset" = None))).
  { right. eexists. split; [reflexivity|]. left. reflexivity. }
  destruct (refresh_without_rate_limit_headers_only_warns h w Hm)
    as (_ & Hs & _ & _ & _ & Ht & _).
  split; [|split; [exact Hs | exact Ht]].
  change (isAuthorized (self w') = false). fold w' in Hs. rewrite Hs. reflexivity.
Defined.

(** C4. When the headers of a response hold a non-empty
    [x-ratelimit-remaining] and a non-empty [x-ratelimit-reset], [_refresh]
    sets [remainingRequests] to the parsed remaining and [resetAt] to the
    parsed reset times 1000, and it calls [pause], with that [resetAt], if
    and only if [remainingRequests - safetyMargin <= 0]. *)
Theorem refresh_with_rate_limit_headers
    (m : Headers) (rem rst : string) (w : World) :
  m !! "x-ratelimit-remaining" = Some rem ->
  m !! "x-ratelimit-reset" = Some rst ->
  rem <> "" -> rst <> "" ->
  let w' := snd (_refresh (Some m) w) in
  _remainingRequests (self w') = parseInt rem
  /\ _resetAt (self w') = mul (parseInt rst) (Num 1000)
  /\ exists evs : list Event,
       trace w' = trace w ++ EvRefresh (Some m) :: evs
       /\ forall x,
            EvPause x ∈ evs <->
            x = _resetAt (self w')
            /\ leb (sub (_remainingRequests (self w'))
                        (Num (_safetyRemainingRequestCount (self w'))))
                   (Num 0) = true.
Proof.
  intros Hrem Hrst Hne1 Hne2 w'.
  destruct (present_header_truthy _ _ _ Hrem Hrst Hne1 Hne2) as (Hh & HN & HR).
  destruct (refresh_effect (Some m) w)
    as (o & w2 & evs & Hr & Htr & Hev & Hrs & Hrm & _ & Hsf & _).
  subst w'. rewrite Hr. cbn [snd].
  rewrite Hh in Hrs, Hrm. rewrite Hrs, Hrm, Hsf, <- HN, <- HR.
  split; [reflexivity|]. split; [reflexivity|].
  exists evs. split; [exact Htr|].
  intros x. rewrite Hev. rewrite Hh. tauto.
Qed.

(** The boundary: [remaining - safetyMargin = 0] pauses the client. *)
Lemma refresh_with_rate_limit_headers_witness :
  let w := boot (new_client "github-token-12345") (fun _ => 1700000000000) in
  let m : Headers :=
    <["x-ratelimit-remaining" := "5"]> (<["x-ratelimit-reset" := "1700003600"]> ∅) in
  let w' := snd (_refresh (Some m) w) in
  _remainingRequests (self w') = Num 5
  /\ _resetAt (self w') = Num 1700003600000
  /\ isAuthorized (self w') = false.
Proof.
  intros w m w'.
  assert (H1 : m !! "x-ratelimit-remaining" = Some "5")
    by apply lookup_insert_eq.
  assert (H2 : m !! "x-ratelimit-reset" = Some "1700003600")
    by (subst m; rewrite lookup_insert_ne by discriminate;
        apply lookup_insert_eq).
  assert (H3 : "5" <> "") by discriminate.
  assert (H4 : "1700003600" <> "") by discriminate.
  destruct (refresh_with_rate_limit_headers m "5" "1700003600" w H1 H2 H3 H4)
    as (Hrem & Hrst & _).
  split; [exact Hrem|]. split; [exact Hrst|]. reflexivity.
Defined.

(** *** The handlers of the promise *)

#[local] Arguments is_rate_limited : simpl never.

Lemma on_rejected_eq url error :
  on_rejected url error =
  bind (_refresh (error_response error ≫= headers)) (fun _ =>
  bind (rate_limit_branch (error_response error)) (fun _ =>
  finish_rejected url error)).
Proof. reflexivity. Qed.

Lemma finish_rejected_eq url error w :
  finish_rejected url error w =
  (Ret error,
   {| self := set_busy false (self w); timers := timers w;
      next_timer := next_timer w; clock := clock w; reads := reads w;
      trace := trace w ++ [EvLog Info (MsgQuery url);
                           EvLog Error (MsgError (error_message error))] |}).
Proof. unfold finish_rejected. mrun. rewrite <- (assoc_L (++)). reflexivity. Qed.

Lemma on_fulfilled_ok url r w :
  refresh_ok (headers r) = true ->
  exists w', on_fulfilled url r w = (Ret r, w')
             /\ _busy (self w') = false
             /\ (timer_inv w -> timer_inv w').
Proof.
  intros Hok. unfold on_fulfilled.
  destruct (refresh_effect (headers r) w)
    as (o & w1 & evs & Hr & _ & _ & _ & _ & _ & _ & _ & _ & Ho & Hi).
  rewrite (Ho Hok) in Hr. unfold bind at 1. rewrite Hr. mrun.
  eexists. split; [reflexivity|]. cbn. split; [destruct (self w1); reflexivity|].
  intros H. apply Hi in H. unfold timer_inv in *. cbn. destruct (self w1); exact H.
Qed.

(** The handling of 403 and 429 when it does not throw. *)
Lemma rate_limit_branch_ok (e : AxiosError) (w0 w : World) :
  clock w = clock w0 ->
  (is_rate_limited (response e ≫= status) = true ->
     response e ≫= headers <> None
     /\ (truthy (retry_after e) = true ->
         forall n, valid_time (retry_time e (clock w0 n)) = true)
     /\ (truthy (retry_after e) = false -> valid_time (_resetAt (self w)) = true)) ->
  exists w' (evs : list Event),
    rate_limit_branch (response e) w = (Ret tt, w')
    /\ trace w' = trace w ++ evs
    /\ _resetAt (self w') = _resetAt (self w)
    /\ (is_rate_limited (response e ≫= status) = true ->
        truthy (retry_after e) = true ->
        EvPause (retry_time e (clock w (reads w))) ∈ evs)
    /\ (is_rate_limited (response e ≫= status) = true ->
        truthy (retry_after e) = false ->
        gtb (_resetAt (self w)) (Num 0) = true ->
        EvPause (_resetAt (self w)) ∈ evs)
    /\ (is_rate_limited (response e ≫= status) = false -> w' = w)
    /\ (timer_inv w -> timer_inv w').
Proof.
  intros Hck Hok. unfold rate_limit_branch.
  destruct (is_rate_limited (response e ≫= status)) eqn:Hst.
  2:{ exists w, []. unfold ret. rewrite (right_id_L [] (++)).
      split; [reflexivity|]. split; [reflexivity|]. split; [reflexivity|].
      split; [discriminate|]. split; [discriminate|]. auto. }
  destruct (Hok eq_refl) as (Hh & Hra & Hst0). clear Hok.
  unfold retry_time, retry_after in *.
  destruct (response e) as [r0|];
    [|unfold is_rate_limited in Hst; discriminate].
  cbn [mbind option_bind] in *.
  destruct (headers r0) as [h|]; [|congruence].
  unfold bind at 1. unfold ret at 1.
  destruct (truthy (h !! "retry-after")) eqn:Hty.
  - specialize (Hra eq_refl (reads w)). rewrite <- Hck in Hra.
    unfold bind at 1. unfold date_now at 1.
    unfold bind at 1. unfold toISOString.
    destruct (add (Num (clock w (reads w))) _) as [z|] eqn:Hz; [|discriminate].
    rewrite Hra. unfold ret at 1. unfold bind at 1. unfold log, emit.
    match goal with |- context [pause ?x ?w1] =>
      destruct (pause_effect x w1)
        as (o & w2 & evs & Hp & Htr & _ & Hrs & _ & _ & _ & _ & _ & Ho & Hi2);
      rewrite Hp end.
    destruct Ho as [-> | [_ Hv]]; [|rewrite Hv in Hra; discriminate].
    eexists w2, _. split; [reflexivity|].
    split. { rewrite Htr. cbn. rewrite <- (assoc_L (++)). reflexivity. }
    split. { rewrite Hrs. reflexivity. }
    split. { intros _ _. apply list_elem_of_further, list_elem_of_here. }
    split; [discriminate|]. split; [discriminate|].
    intros Hi. apply Hi2. revert Hi. apply timer_inv_ext; reflexivity.
  - specialize (Hst0 eq_refl).
    unfold bind at 1. unfold get. cbn [self].
    destruct (gtb (_resetAt (self w)) (Num 0)) eqn:Hgt.
    + unfold bind at 1. unfold log, emit.
      match goal with |- context [pause ?x ?w1] =>
        destruct (pause_effect x w1)
          as (o & w2 & evs & Hp & Htr & _ & Hrs & _ & _ & _ & _ & _ & Ho & Hi2);
        rewrite Hp end.
      destruct Ho as [-> | [_ Hv]]; [|rewrite Hv in Hst0; discriminate].
      eexists w2, _. split; [reflexivity|].
      split. { rewrite Htr. cbn. rewrite <- (assoc_L (++)). reflexivity. }
      split. { rewrite Hrs. reflexivity. }
      split; [discriminate|].
      split. { intros _ _ _. apply list_elem_of_further, list_elem_of_here. }
      split; [discriminate|].
      intros Hi. apply Hi2. revert Hi. apply timer_inv_ext; reflexivity.
    + exists w, []. unfold ret. rewrite (right_id_L [] (++)).
      split; [reflexivity|]. split; [reflexivity|]. split; [reflexivity|].
      split; [discriminate|]. split; [discriminate|]. split; [discriminate|]. auto.
Qed.

(** The [.catch] handler on an error of the transport, when it does not
    throw: the 403 or 429 pauses the client as described and the error is
    handed on. *)
Lemma on_rejected_ok url (e : AxiosError) (w : World) :
  failure_ok e w ->
  exists w' (evs : list Event),
    on_rejected url (Transport e) w = (Ret (Transport e), w')
    /\ _busy (self w') = false
    /\ trace w' = trace w ++ evs
    /\ (is_rate_limited (response e ≫= status) = true ->
        truthy (retry_after e) = true ->
        exists n, EvPause (retry_time e (clock w n)) ∈ evs)
    /\ (is_rate_limited (response e ≫= status) = true ->
        truthy (retry_after e) = false ->
        gtb (_resetAt (self w')) (Num 0) = true ->
        EvPause (_resetAt (self w')) ∈ evs)
    /\ (timer_inv w -> timer_inv w').
Proof.
  intros (Hrok & Hok). rewrite on_rejected_eq. cbn [error_response].
  destruct (refresh_effect (response e ≫= headers) w)
    as (o & w1 & evs1 & Hr & Htr1 & _ & Hrs1 & _ & _ & _ & _ & Hck1 & Ho & Hi1).
  rewrite (Ho Hrok) in Hr. unfold bind at 1. rewrite Hr.
  destruct (rate_limit_branch_ok e w w1 Hck1) as
    (w2 & evs2 & Hb & Htr2 & Hrs2 & Hra & Hst & _ & Hi2).
  { intros Hrl. destruct (Hok Hrl) as (Hh & Hv1 & Hv2).
    split; [exact Hh|]. split; [exact Hv1|].
    intros Hty. rewrite Hrs1. unfold refresh_ok in Hrok.
    destruct (rate_limit_headers (response e ≫= headers)); auto. }
  unfold bind at 1. rewrite Hb. rewrite finish_rejected_eq.
  eexists _, (EvRefresh (response e ≫= headers) :: evs1 ++ evs2
                ++ [EvLog Info (MsgQuery url);
                    EvLog Error (MsgError (error_message (Transport e)))]).
  split; [reflexivity|]. cbn [self trace].
  split; [destruct (self w2); reflexivity|].
  split. { rewrite Htr2, Htr1. rewrite <- !(assoc_L (++)). reflexivity. }
  split. { intros Hrl Hty. exists (reads w1). rewrite <- Hck1.
           apply elem_of_cons. right. apply elem_of_app. right.
           apply elem_of_app. left. auto. }
  split. { intros Hrl Hty Hgt.
           assert (Heq : _resetAt (set_busy false (self w2)) = _resetAt (self w1))
             by (rewrite <- Hrs2; destruct (self w2); reflexivity).
           rewrite Heq in *.
           apply elem_of_cons. right. apply elem_of_app. right.
           apply elem_of_app. left. auto. }
  intros Hi. apply Hi1, Hi2 in Hi. unfold timer_inv in *. cbn.
  destruct (self w2); exact Hi.
Qed.

Lemma settle_fulfilled url r w :
  refresh_ok (headers r) = true ->
  fst (settle url (Fulfilled r) w) = Resolved r
  /\ _busy (self (snd (settle url (Fulfilled r) w))) = false.
Proof.
  intros Hok. destruct (on_fulfilled_ok url r w Hok) as (w' & Hf & Hb & _).
  unfold settle. rewrite Hf. auto.
Qed.

Lemma settle_failed url e w :
  failure_ok e w ->
  fst (settle url (Failed e) w) = Rejected (Transport e)
  /\ _busy (self (snd (settle url (Failed e) w))) = false.
Proof.
  intros Hok. destruct (on_rejected_ok url e w Hok) as (w' & evs & Hf & Hb & _).
  unfold settle, catch_handler. rewrite Hf. auto.
Qed.

Lemma request_busy url params w :
  _busy (self (snd (request url params w))) = true.
Proof.
  unfold request. destruct params; mrun; destruct (self w); reflexivity.
Qed.

(** C9, refuted.  With [null] for [params], [request] throws while it builds
    the argument of axios: no promise is returned, and the client stays
    busy. *)
Lemma request_null_params_throws :
  let w := boot (new_client "github-token-12345") (fun _ => 10000) in
  request (Some "https://api.github.com/search/repositories?q=stars:>=1000")
    PNull w
  = (Throw TypeError,
     {| self := set_busy true (self w); timers := []; next_timer := 0;
        clock := clock w; reads := 0; trace := [] |})
  /\ isBusy (self (snd (request None PNull w))) = true.
Proof. split; reflexivity. Qed.

(** A response whose reset header is no number rejects the promise of a
    request that the transport fulfilled, with the [RangeError] of the
    message [_refresh] logs. *)
Lemma settle_fulfilled_bad_reset_rejects :
  let w := boot (new_client "github-token-12345") (fun _ => 10000) in
  let r := {| status := Some 200;
              headers := Some (<["x-ratelimit-remaining" := "10"]>
                                 (<["x-ratelimit-reset" := "soon"]> ∅));
              data := "" |} in
  fst (settle None (Fulfilled r) w) = Rejected (Thrown RangeError).
Proof. reflexivity. Qed.

Lemma refresh_throws h w :
  refresh_ok h = false -> fst (_refresh h w) = Throw RangeError.
Proof.
  unfold refresh_ok. destruct (rate_limit_headers h) eqn:Hh; [|discriminate].
  intros Hv. rewrite (refresh_present _ _ Hh).
  set (w1 := {| self := _; timers := timers w |}).
  assert (Hrs1 : _resetAt (self w1) = refreshed_resetAt h)
    by (subst w1; destruct (self w); reflexivity).
  clearbody w1.
  assert (Hlog : forall w2, _resetAt (self w2) = refreshed_resetAt h ->
            fst (bind get (fun c' =>
                   bind (toISOString (_resetAt c')) (fun iso =>
                     log Info (MsgRateLimit (_remainingRequests c') iso))) w2)
            = Throw RangeError).
  { intros w2 Hrs. unfold bind at 1. unfold get. cbn [self]. rewrite Hrs.
    unfold bind, toISOString. destruct (refreshed_resetAt h); [rewrite Hv|];
      reflexivity. }
  destruct (leb _ (Num 0)).
  - destruct (pause_effect (refreshed_resetAt h) w1)
      as (o & w2 & evs & Hp & _ & _ & Hrs & _ & _ & _ & _ & _ & Ho & _).
    unfold bind at 1. rewrite Hp. destruct Ho as [-> | [-> _]]; [|reflexivity].
    apply Hlog. rewrite Hrs. exact Hrs1.
  - unfold bind at 1. unfold ret. apply Hlog, Hrs1.
Qed.

Lemma rate_limit_branch_none w : rate_limit_branch None w = (Ret tt, w).
Proof. reflexivity. Qed.

(** The [.catch] handler on an exception of the [.then] handler: it warns,
    frees the client and hands the exception on. *)
Lemma on_rejected_thrown url x w :
  exists w', on_rejected url (Thrown x) w = (Ret (Thrown x), w')
             /\ _busy (self w') = false
             /\ _authorized (self w') = _authorized (self w)
             /\ timers w' = timers w.
Proof.
  rewrite on_rejected_eq. cbn [error_response mbind option_bind].
  unfold bind at 1. rewrite refresh_missing by reflexivity.
  unfold bind at 1. rewrite rate_limit_branch_none. rewrite finish_rejected_eq.
  eexists. split; [reflexivity|]. cbn. destruct (self w); cbn. auto.
Qed.

Lemma pause_reads x w : reads (snd (pause x w)) = S (reads w).
Proof.
  destruct (leb (delay_at (self w) x (clock w (reads w))) (Num 0)) eqn:Hd;
    [rewrite (pause_resumes _ _ Hd); reflexivity|].
  destruct (valid_time x) eqn:Hv.
  - destruct (pause_schedules _ _ Hd Hv) as (z & _ & ->). reflexivity.
  - rewrite (pause_throws _ _ Hd Hv). reflexivity.
Qed.

(** [pause] throws when it has to wait for a reset time [Date] cannot
    print, and only then. *)
Lemma pause_outcome x w :
  fst (pause x w)
  = (if negb (leb (delay_at (self w) x (clock w (reads w))) (Num 0))
        && negb (valid_time x)
     then Throw RangeError else Ret tt).
Proof.
  destruct (leb (delay_at (self w) x (clock w (reads w))) (Num 0)) eqn:Hd;
    [rewrite (pause_resumes _ _ Hd); reflexivity|].
  destruct (valid_time x) eqn:Hv.
  - destruct (pause_schedules _ _ Hd Hv) as (z & _ & ->). reflexivity.
  - rewrite (pause_throws _ _ Hd Hv). reflexivity.
Qed.

Lemma log_rate_limit_returns w :
  valid_time (_resetAt (self w)) = true ->
  exists evs : list Event,
    bind get (fun c' =>
      bind (toISOString (_resetAt c')) (fun iso =>
        log Info (MsgRateLimit (_remainingRequests c') iso))) w
    = (Ret tt,
       {| self := self w; timers := timers w; next_timer := next_timer w;
          clock := clock w; reads := reads w; trace := trace w ++ evs |}).
Proof.
  intros Hv. unfold bind at 1. unfold get. cbn [self]. unfold toISOString.
  destruct (_resetAt (self w)) as [z|]; [|discriminate]. rewrite Hv.
  mrun. eexists. reflexivity.
Qed.

(** [_refresh] when it returns: what the client holds, and how often the
    clock has been read. *)
Lemma refresh_returns h w :
  refresh_ok h = true ->
  exists w1, _refresh h w = (Ret tt, w1)
    /\ _resetAt (self w1) = resetAt_after (self w) h
    /\ _tokenResumeBufferTime (self w1) = _tokenResumeBufferTime (self w)
    /\ clock w1 = clock w
    /\ reads w1 = (if refresh_pauses (self w) h then S (reads w) else reads w).
Proof.
  unfold refresh_ok, resetAt_after, refresh_pauses.
  destruct (rate_limit_headers h) eqn:Hh; intros Hv.
  2:{ rewrite (refresh_missing _ _ Hh). eexists. split; [reflexivity|].
      cbn. auto. }
  rewrite (refresh_present _ _ Hh). cbn [andb].
  set (w1 := {| self := _; timers := timers w |}).
  assert (Hrs1 : _resetAt (self w1) = refreshed_resetAt h)
    by (subst w1; destruct (self w); reflexivity).
  assert (Hbf1 : _tokenResumeBufferTime (self w1) = _tokenResumeBufferTime (self w))
    by (subst w1; destruct (self w); reflexivity).
  assert (Hck1 : clock w1 = clock w) by reflexivity.
  assert (Hrd1 : reads w1 = reads w) by reflexivity.
  clearbody w1.
  destruct (leb _ (Num 0)).
  - pose proof (pause_reads (refreshed_resetAt h) w1) as Hrd2.
    destruct (pause_effect (refreshed_resetAt h) w1)
      as (o & w2 & evs & Hp & _ & _ & Hrs & _ & _ & _ & Hbf & Hck & Ho & _).
    rewrite Hp in Hrd2. cbn [snd] in Hrd2.
    destruct Ho as [-> | [_ Hbad]]; [|congruence].
    unfold bind at 1. rewrite Hp.
    destruct (log_rate_limit_returns w2) as (evs2 & ->).
    { rewrite Hrs, Hrs1. exact Hv. }
    eexists. split; [reflexivity|]. cbn.
    rewrite Hrs, Hrs1, Hbf, Hbf1, Hck, Hck1, Hrd2, Hrd1. auto.
  - unfold bind at 1. unfold ret at 1.
    destruct (log_rate_limit_returns w1) as (evs2 & ->).
    { rewrite Hrs1. exact Hv. }
    eexists. split; [reflexivity|]. cbn. auto.
Qed.

(** The handling of 403 and 429: when it returns and what it throws. *)
Lemma rate_limit_branch_outcome (e : AxiosError) (w : World) :
  fst (rate_limit_branch (response e) w)
  = (if is_rate_limited (response e ≫= status) then
       match response e ≫= headers with
       | None => Throw TypeError
       | Some _ =>
           if truthy (retry_after e) then
             if valid_time (retry_time e (clock w (reads w))) then Ret tt
             else Throw RangeError
           else if gtb (_resetAt (self w)) (Num 0)
                   && negb (leb (delay_at (self w) (_resetAt (self w))
                                   (clock w (reads w))) (Num 0))
                   && negb (valid_time (_resetAt (self w)))
           then Throw RangeError
           else Ret tt
       end
     else Ret tt).
Proof.
  unfold rate_limit_branch, retry_time, retry_after.
  destruct (is_rate_limited (response e ≫= status)) eqn:Hst; [|reflexivity].
  destruct (response e) as [r0|];
    [|unfold is_rate_limited in Hst; discriminate].
  cbn [mbind option_bind] in *.
  destruct (headers r0) as [h|]; [|reflexivity].
  unfold bind at 1. unfold ret at 1.
  destruct (truthy (h !! "retry-after")) eqn:Hty.
  - unfold bind at 1. unfold date_now at 1.
    unfold bind at 1. unfold toISOString.
    destruct (add (Num (clock w (reads w))) _) as [z|] eqn:Hz; [|reflexivity].
    destruct (valid_time (Num z)) eqn:Hv; [|reflexivity].
    unfold ret at 1. unfold bind at 1. unfold log, emit.
    match goal with |- context [pause ?x ?w1] =>
      destruct (pause_effect x w1)
        as (o & w2 & evs & Hp & _ & _ & _ & _ & _ & _ & _ & _ & Ho & _);
      rewrite Hp end.
    destruct Ho as [-> | [_ Hbad]]; [reflexivity | congruence].
  - unfold bind at 1. unfold get. cbn [self].
    destruct (gtb (_resetAt (self w)) (Num 0)); [|reflexivity].
    unfold bind at 1. unfold log, emit.
    match goal with |- context [pause ?x ?w1] =>
      rewrite (surjective_pairing (pause x w1)), (pause_outcome x w1) end.
    cbn [self clock reads andb].
    destruct (negb _ && negb _); reflexivity.
Qed.

(** The promise of a request the transport fails rejects with
    [rejection]. *)
Lemma settle_failed_outcome url e w :
  fst (settle url (Failed e) w) = Rejected (rejection e w).
Proof.
  unfold settle, catch_handler, rejection. rewrite on_rejected_eq.
  cbn [error_response].
  destruct (refresh_ok (response e ≫= headers)) eqn:Hok; cbn [negb].
  2:{ pose proof (refresh_throws _ w Hok) as Ht. unfold bind at 1.
      destruct (_refresh (response e ≫= headers) w) as [o w1].
      cbn in Ht. subst o. reflexivity. }
  destruct (refresh_returns _ w Hok) as (w1 & Hr & Hrs & Hbf & Hck & Hrd).
  unfold bind at 1. rewrite Hr.
  pose proof (rate_limit_branch_outcome e w1) as Hb.
  unfold delay_at in *. unfold now_after.
  rewrite Hrs, Hbf, Hck, Hrd in Hb.
  unfold bind at 1.
  destruct (rate_limit_branch (response e) w1) as [o w2]. cbn [fst] in Hb.
  subst o.
  destruct (is_rate_limited (response e ≫= status)); cbn [negb];
    [|rewrite finish_rejected_eq; reflexivity].
  destruct (response e ≫= headers); [|reflexivity].
  destruct (truthy (retry_after e)).
  - destruct (valid_time _); [rewrite finish_rejected_eq|]; reflexivity.
  - destruct (_ && _ && _); [|rewrite finish_rejected_eq]; reflexivity.
Qed.

Lemma settle_fulfilled_outcome url r w :
  fst (settle url (Fulfilled r) w)
  = (if refresh_ok (headers r) then Resolved r
     else Rejected (Thrown RangeError)).
Proof.
  destruct (refresh_ok (headers r)) eqn:Hok.
  - apply settle_fulfilled, Hok.
  - pose proof (refresh_throws (headers r) w Hok) as Ht.
    unfold settle, on_fulfilled. unfold bind at 1.
    destruct (_refresh (headers r) w) as [o w1]. cbn in Ht. subst o.
    unfold catch_handler.
    destruct (on_rejected_thrown url RangeError w1) as (w2 & -> & _).
    reflexivity.
Qed.

(** C9 (as amended).  With [params] left out ([undefined]) or an object,
    [request] sets [busy], calls the transport once and returns its promise
    without throwing, for every url and every state of the client; with
    [null] it throws a [TypeError] before the transport is called, for every
    url and every state, and leaves the client busy.  When the transport
    then delivers a response, the promise resolves with that response if
    [_refresh] returns, that is unless both rate-limit headers are there
    with a reset time that is no time value of [Date].  When the transport
    delivers an error, the promise rejects with that error if the [.catch]
    handler returns: [_refresh] returns and, with status 403 or 429, the
    response has headers and the time the handler pauses until can be
    printed when it has to be, as [rejection] spells out with the clock
    the handler reads.  In the other cases the promise rejects with the
    exception of the handler. *)
Theorem request_returns_a_promise
    (url : option string) (params : Params) (w : World) :
  (params <> PNull ->
   fst (request url params w) = Ret tt
   /\ isBusy (self (snd (request url params w))) = true
   /\ trace (snd (request url params w))
      = trace w
          ++ [EvAxios (axios_config (set_busy true (self w)) url
                         (match params with
                          | PObj o => o
                          | _ => empty_params
                          end))])
  /\ (params = PNull ->
      request url params w
      = (Throw TypeError,
         {| self := set_busy true (self w); timers := timers w;
            next_timer := next_timer w; clock := clock w; reads := reads w;
            trace := trace w |}))
  /\ (forall r w1,
        fst (settle url (Fulfilled r) w1)
        = (if refresh_ok (headers r) then Resolved r
           else Rejected (Thrown RangeError)))
  /\ (forall e w1,
        fst (settle url (Failed e) w1) = Rejected (rejection e w1)).
Proof.
  split; [|split; [|split]].
  - intros Hp. destruct params; [|congruence|]; repeat split.
  - intros ->. reflexivity.
  - intros r w1. apply settle_fulfilled_outcome.
  - intros e w1. apply settle_failed_outcome.
Qed.

(** A request without [params] that the transport fails with a 429 and
    [Retry-After: 120], or fulfils with two requests left until the reset;
    and the same 429 without [Retry-After] on a client that has kept, from
    an earlier response, a reset time [Date] cannot print. *)
Lemma request_returns_a_promise_witness :
  let w := boot (new_client "github-token-12345")
             (fun n => 1700000000000 + Z.of_nat n) in
  let url := Some "https://api.github.com/search/repositories?q=stars:>=1000" in
  let w1 := snd (request url PUndefined w) in
  let e (h : Headers) :=
    {| message := "Request failed with status code 429";
       response := Some {| status := Some 429; headers := Some h;
                           data := "" |} |} in
  let r := {| status := Some 200;
              headers := Some (<["x-ratelimit-remaining" := "2"]>
                                 (<["x-ratelimit-reset" := "1700000060"]> ∅));
              data := "" |} in
  let late := {| status := Some 200;
                 headers := Some (<["x-ratelimit-remaining" := "10"]>
                                    (<["x-ratelimit-reset" := "99999999999999"]> ∅));
                 data := "" |} in
  let far := snd (request url PUndefined
                    (snd (settle url (Fulfilled late) w1))) in
  fst (request url PUndefined w) = Ret tt
  /\ isBusy (self w1) = true
  /\ fst (settle url (Failed (e (<["retry-after" := "120"]> ∅))) w1)
     = Rejected (Transport (e (<["retry-after" := "120"]> ∅)))
  /\ fst (settle url (Fulfilled r) w1) = Resolved r
  /\ _resetAt (self far) = Num 99999999999999000
  /\ fst (settle url (Failed (e ∅)) far) = Rejected (Thrown RangeError).
Proof.
  intros w url w1 e r late far.
  destruct (request_returns_a_promise url PUndefined w)
    as (Hs & _ & Hf & Hr).
  destruct Hs as (Hret & Hb & _); [discriminate|].
  split; [exact Hret|]. split; [exact Hb|].
  split; [rewrite Hr; vm_compute; reflexivity|].
  split; [rewrite Hf; vm_compute; reflexivity|].
  split; [vm_compute; reflexivity|].
  rewrite Hr. vm_compute. reflexivity.
Defined.

(** *** Failures with status 403 or 429 *)

(** When no message to log fails, a failure with status 403 or 429 pauses
    the client, until [now + retryAfter * 1000] if [Retry-After] is there and
    else until the reset time the client knows, if it is positive; and the
    promise rejects with the error of the transport. *)
Lemma rate_limited_failure_pauses_and_rejects url (e : AxiosError) (w : World) :
  failure_ok e w ->
  is_rate_limited (response e ≫= status) = true ->
  let w' := snd (settle url (Failed e) w) in
  fst (settle url (Failed e) w) = Rejected (Transport e)
  /\ exists evs : list Event,
       trace w' = trace w ++ evs
       /\ (truthy (retry_after e) = true ->
           exists n, EvPause (retry_time e (clock w n)) ∈ evs)
       /\ (truthy (retry_after e) = false ->
           gtb (_resetAt (self w')) (Num 0) = true ->
           EvPause (_resetAt (self w')) ∈ evs).
Proof.
  intros Hok Hrl w'.
  destruct (on_rejected_ok url e w Hok) as (w2 & evs & Hf & _ & Htr & Hra & Hst & _).
  subst w'. unfold settle, catch_handler. rewrite Hf. cbn [fst snd].
  split; [reflexivity|]. exists evs. auto.
Qed.

(** C3, where the code departs from it.  A 429 whose [Retry-After] counts
    more seconds than [Date] can hold: the warning that announces the pause
    throws a [RangeError] while it formats the time.  [pause] is never
    called, the promise rejects with the [RangeError] and not with the
    error of the transport, and the client stays busy. *)
Theorem rate_limited_failure_unloggable_retry_after :
  let url := Some "https://api.github.com/search/repositories?q=stars:>=1000" in
  let w := snd (request url PUndefined
                  (boot (new_client "github-token-12345")
                     (fun _ => 1700000000000))) in
  let e := {| message := "Request failed with status code 429";
              response :=
                Some {| status := Some 429;
                        headers := Some (<["retry-after" := "9999999999999"]> ∅);
                        data := "" |} |} in
  let w' := snd (settle url (Failed e) w) in
  fst (settle url (Failed e) w) = Rejected (Thrown RangeError)
  /\ fst (settle url (Failed e) w) <> Rejected (Transport e)
  /\ forallb (fun ev => negb (is_pause ev)) (trace w') = true
  /\ isAuthorized (self w') = true
  /\ isBusy (self w') = true.
Proof.
  cbv zeta. split; [reflexivity|]. split; [discriminate|].
  split; [reflexivity|]. split; reflexivity.
Qed.

(** The same with a [Retry-After] that is a date, which HTTP allows:
    [parseInt] makes it [NaN]. *)
Lemma rate_limited_failure_retry_after_date :
  let w := snd (request None PUndefined
                  (boot (new_client "github-token-12345")
                     (fun _ => 1700000000000))) in
  let e := {| message := "Request failed with status code 429";
              response :=
                Some {| status := Some 429;
                        headers :=
                          Some (<["retry-after" := "Wed, 21 Oct 2015 07:28:00 GMT"]> ∅);
                        data := "" |} |} in
  parseInt "Wed, 21 Oct 2015 07:28:00 GMT" = NaN
  /\ fst (settle None (Failed e) w) = Rejected (Thrown RangeError)
  /\ isBusy (self (snd (settle None (Failed e) w))) = true.
Proof. split; [reflexivity|]. split; reflexivity. Qed.

(** The seventh scenario of the specification: a 429 with
    [Retry-After: 120] pauses until [now + 120000]. *)
Example rate_limited_failure_retry_after_120 :
  let w := snd (request None PUndefined
                  (boot (new_client "github-token-12345")
                     (fun _ => 1700000000000))) in
  let e := {| message := "Too many requests";
              response :=
                Some {| status := Some 429;
                        headers := Some (<["retry-after" := "120"]> ∅);
                        data := "" |} |} in
  let w' := snd (settle None (Failed e) w) in
  fst (settle None (Failed e) w) = Rejected (Transport e)
  /\ EvPause (Num 1700000120000) ∈ trace w'
  /\ isAuthorized (self w') = false
  /\ isBusy (self w') = false.
Proof.
  cbv zeta. split; [reflexivity|]. split; [|split; reflexivity].
  apply list_elem_of_In. vm_compute. tauto.
Qed.

(** The client keeps its one-timer invariant through every method, whether
    it returns or throws. *)
Lemma request_preserves_inv url params w :
  timer_inv w -> timer_inv (snd (request url params w)).
Proof.
  unfold request. intros Hi.
  destruct params; mrun; unfold timer_inv in *; cbn; destruct (self w); exact Hi.
Qed.

Lemma pause_preserves_inv x w : timer_inv w -> timer_inv (snd (pause x w)).
Proof.
  destruct (pause_effect x w)
    as (o & w' & evs & -> & _ & _ & _ & _ & _ & _ & _ & _ & _ & Hi).
  exact Hi.
Qed.

Lemma refresh_preserves_inv h w : timer_inv w -> timer_inv (snd (_refresh h w)).
Proof.
  destruct (refresh_effect h w)
    as (o & w' & evs & -> & _ & _ & _ & _ & _ & _ & _ & _ & _ & Hi).
  exact Hi.
Qed.

(** *** At most one resume timer *)

Lemma preserves_bind {A B} (m : M A) (k : A -> M B) :
  preserves m -> (forall a, preserves (k a)) -> preserves (bind m k).
Proof.
  intros Hm Hk w Hi. unfold bind. specialize (Hm w Hi).
  destruct (m w) as [[a|x] w1]; cbn in *; [apply Hk, Hm | exact Hm].
Qed.

Lemma preserves_ret {A} (a : A) : preserves (ret a).
Proof. intros w Hi. exact Hi. Qed.

Lemma preserves_throw {A} x : preserves (@throw A x).
Proof. intros w Hi. exact Hi. Qed.

Lemma preserves_emit e : preserves (emit e).
Proof. intros w Hi. exact Hi. Qed.

Lemma preserves_date_now : preserves date_now.
Proof. intros w Hi. exact Hi. Qed.

Lemma preserves_get : preserves get.
Proof. intros w Hi. exact Hi. Qed.

Lemma preserves_toISOString t : preserves (toISOString t).
Proof.
  intros w Hi. unfold toISOString.
  destruct t; [destruct (valid_time _)|]; exact Hi.
Qed.

Lemma preserves_set_busy b : preserves (modify (set_busy b)).
Proof. intros w Hi. unfold timer_inv in *. cbn. destruct (self w); exact Hi. Qed.

Lemma preserves_pause x : preserves (pause x).
Proof. intros w. apply pause_preserves_inv. Qed.

Lemma preserves_refresh h : preserves (_refresh h).
Proof. intros w. apply refresh_preserves_inv. Qed.

Create HintDb preserves.

#[local] Hint Resolve preserves_ret preserves_throw preserves_emit
  preserves_date_now preserves_get preserves_toISOString preserves_set_busy
  preserves_pause preserves_refresh : preserves.

Ltac preserves :=
  repeat first
    [ solve [auto with preserves]
    | match goal with
      | |- preserves (log _ _) => apply preserves_emit
      | |- preserves (if ?b then _ else _) => destruct b
      | |- preserves (match ?o with Some _ => _ | None => _ end) => destruct o
      end
    | apply preserves_bind; [|intros ?] ].

Lemma preserves_on_fulfilled url r : preserves (on_fulfilled url r).
Proof. unfold on_fulfilled. preserves. Qed.

Lemma preserves_on_rejected url e : preserves (on_rejected url e).
Proof. unfold on_rejected. preserves. Qed.

Lemma settle_preserves_inv url t w : timer_inv w -> timer_inv (snd (settle url t w)).
Proof.
  intros Hi. unfold settle, catch_handler. destruct t as [r|e].
  - pose proof (preserves_on_fulfilled url r w Hi) as H1.
    destruct (on_fulfilled url r w) as [[v|x] w1]; [exact H1|].
    change (timer_inv w1) in H1.
    pose proof (preserves_on_rejected url (Thrown x) w1 H1) as H2.
    destruct (on_rejected url (Thrown x) w1) as [[v|x'] w2]; exact H2.
  - pose proof (preserves_on_rejected url (Transport e) w Hi) as H2.
    destruct (on_rejected url (Transport e) w) as [[v|x'] w2]; exact H2.
Qed.

(** In every state of a client at most one resume timer is pending, and the
    client holds its handle. *)
Lemma reachable_timer_inv w : reachable w -> timer_inv w.
Proof.
  induction 1 as [token safety buffer clk | s w _ IH].
  - apply timer_inv_new.
  - destruct s; cbn.
    + apply request_preserves_inv, IH.
    + apply settle_preserves_inv, IH.
    + apply pause_preserves_inv, IH.
    + apply fire_preserves_inv, IH.
Qed.

(** A paused client has its resume timer pending: it will be authorized
    again, unless the pause threw. *)
Lemma pending_timer_is_resume_timer w t :
  reachable w -> _resumeTimer (self w) = Some t ->
  exists d, timers w = [(t, d)]
            /\ isAuthorized (self (snd (fire t w))) = true.
Proof.
  intros Hr Ht. destruct (timer_inv_handle _ _ (reachable_timer_inv _ Hr) Ht)
    as (d & Hts & _).
  exists d. split; [exact Hts|]. rewrite (fire_single _ _ _ Hts). cbn.
  destruct (self w); reflexivity.
Qed.

(** *** [pause], in every state of a client *)

(** C2 (as amended). For every client and every integer [resetAt],
    [pause(resetAt)] clears the pending resume timer, if there is one, and
    computes [delay = resetAt - now + resumeBuffer].  If [delay <= 0] it
    returns with the client authorized and no timer pending; so it does when
    [resetAt + resumeBuffer <= now].  If [delay > 0] and [resetAt] is a time
    value of [Date], it returns with the client unauthorized and exactly one
    pending timer, of that delay and held in the handle, which on firing sets
    [authorized] and clears the handle. *)
Theorem pause_cancels_then_resumes_or_schedules (w : World) (z : Z) :
  reachable w ->
  let now := clock w (reads w) in
  let delay := z - now + _tokenResumeBufferTime (self w) in
  let w' := snd (pause (Num z) w) in
  (forall t, _resumeTimer (self w) = Some t ->
     (t ∉ map fst (timers w'))
     /\ exists evs : list Event, trace w' = trace w ++ evs /\ EvClearTimeout t ∈ evs)
  /\ (delay <= 0 ->
      fst (pause (Num z) w) = Ret tt
      /\ isAuthorized (self w') = true
      /\ timers w' = []
      /\ _resumeTimer (self w') = None)
  /\ (0 < delay -> valid_time (Num z) = true ->
      fst (pause (Num z) w) = Ret tt
      /\ isAuthorized (self w') = false
      /\ exists t,
           timers w' = [(t, Num delay)]
           /\ _resumeTimer (self w') = Some t
           /\ let w'' := snd (fire t w') in
              fst (fire t w') = Ret tt
              /\ isAuthorized (self w'') = true
              /\ _resumeTimer (self w'') = None
              /\ timers w'' = []).
Proof.
  intros Hr. apply pause_under_inv, reachable_timer_inv, Hr.
Qed.

(** A second [pause] while a resume timer is pending: the first timer is
    cleared, the second one is the only one left, and it resumes the
    client. *)
Lemma pause_cancels_then_resumes_or_schedules_witness :
  let w := step (SPause (Num 30000))
             (boot (constructor "github-token-12345" 5 2000) (fun _ => 10000)) in
  let w' := snd (pause (Num 60000) w) in
  reachable w
  /\ _resumeTimer (self w) = Some 0%nat
  /\ (0%nat ∉ map fst (timers w'))
  /\ isAuthorized (self w') = false
  /\ timers w' = [(1%nat, Num 52000)]
  /\ isAuthorized (self (snd (fire 1 w'))) = true.
Proof.
  intros w w'.
  assert (Hr : reachable w) by apply reach_step, reach_new.
  destruct (pause_cancels_then_resumes_or_schedules w 60000 Hr) as (Hc & _ & Hs).
  split; [exact Hr|]. split; [reflexivity|].
  split; [exact (proj1 (Hc 0%nat eq_refl))|].
  destruct Hs as (_ & Ha & t & Ht & _ & _ & Hf & _); [reflexivity | reflexivity |].
  split; [exact Ha|]. split; [reflexivity|]. reflexivity.
Defined.

(** *** The earlier client *)

(** The earlier [pause] does not resume at once and keeps no handle: after
    [pause] with a reset time long past the client is unauthorized, and a
    second [pause] leaves two timers pending. *)
Lemma legacy_pause_never_immediate :
  let w := boot (new_client "github-token-12345") (fun _ => 10000) in
  let w1 := snd (Legacy.pause (Num 5000) w) in
  let w2 := snd (Legacy.pause (Num 60000) w1) in
  isAuthorized (self w1) = false
  /\ timers w1 = [(0%nat, Num (-3000))]
  /\ map fst (timers w2) = [0%nat; 1%nat].
Proof. cbv zeta. split; [reflexivity|]. split; reflexivity. Qed.

(** The earlier [_refresh] pauses for a minute when the headers are
    missing. *)
Lemma legacy_refresh_missing_pauses :
  let w := boot (new_client "github-token-12345") (fun _ => 10000) in
  let w' := snd (Legacy._refresh None w) in
  isAuthorized (self w') = false
  /\ EvPause (Num 70000) ∈ trace w'.
Proof.
  cbv zeta. split; [reflexivity|].
  apply list_elem_of_In. vm_compute. tauto.
Qed.

End ClientFacts.
(** ** The queue *)

Module QueueFacts.
Import Queue QueueNotions.
Local Open Scope list_scope.

Ltac qrun :=
  cbv [set_queue log emit setTimeout add_inflight];
  cbn [queue inflight pending qtrace].

Section WithClient.

Context {C : Type} `{ApiClient C}.

Implicit Types (w : Loop C) (q : GitHubApiQueue C) (r a b : GitHubApiRequest).

(** *** [pop] takes the last element *)

Lemma pop_snoc {A} (l : list A) x : pop (l ++ [x]) = Some (x, l).
Proof. unfold pop. rewrite last_snoc, removelast_last. reflexivity. Qed.

Lemma pop_None {A} (l : list A) : pop l = None -> l = [].
Proof.
  unfold pop. destruct (last l) eqn:Hl; [discriminate|].
  intros _. apply last_None, Hl.
Qed.

Lemma pop_Some {A} (l l' : list A) x : pop l = Some (x, l') -> l = l' ++ [x].
Proof.
  unfold pop. destruct (last l) as [y|] eqn:Hl; [|discriminate].
  apply last_Some in Hl as (l0 & ->). rewrite removelast_last.
  intros [= -> ->]. reflexivity.
Qed.

(** *** The free clients *)

Lemma availableClients_elem (cs : list C) i c :
  (i, c) ∈ availableClients cs ->
  cs !! i = Some c /\ isAuthorized c = true /\ isBusy c = false.
Proof.
  unfold availableClients. intros Hin.
  apply list_elem_of_In, filter_In in Hin as [Hin Hf].
  apply list_elem_of_In, elem_of_lookup_imap in Hin as (j & x & [= -> ->] & Hj).
  cbn in Hf. apply andb_true_iff in Hf as [Ha Hb].
  apply negb_true_iff in Hb. auto.
Qed.

Lemma NoDup_fst_filter {A B} (p : A * B -> bool) (l : list (A * B)) :
  NoDup (map fst l) -> NoDup (map fst (List.filter p l)).
Proof.
  induction l as [|x l IH]; cbn; [auto|].
  intros Hnd. apply NoDup_cons in Hnd as [Hx Hnd].
  destruct (p x); [|auto]. cbn. apply NoDup_cons. split; [|auto].
  intros Hin. apply Hx.
  apply list_elem_of_In, in_map_iff in Hin as (y & Hy & Hin).
  apply filter_In in Hin as [Hin _].
  apply list_elem_of_In, in_map_iff. eauto.
Qed.

Lemma availableClients_NoDup (cs : list C) :
  NoDup (map fst (availableClients cs)).
Proof.
  apply NoDup_fst_filter. apply NoDup_alt. intros i j x Hi Hj.
  change (map fst ?l) with (fst <$> l) in Hi, Hj.
  rewrite list_lookup_fmap, list_lookup_imap in Hi, Hj.
  destruct (cs !! i); [|discriminate]. destruct (cs !! j); [|discriminate].
  cbn in Hi, Hj. congruence.
Qed.

(** *** The dispatch loop *)

Lemma dispatched_app (l1 l2 : list QEvent) :
  dispatched (l1 ++ l2) = dispatched l1 ++ dispatched l2.
Proof. apply omap_app. Qed.

Lemma dispatch_trace avail w :
  exists evs, qtrace (snd (dispatch avail w)) = qtrace w ++ evs.
Proof.
  revert w. induction avail as [|[i c] rest IH]; intros w; cbn [dispatch].
  - exists []. rewrite (right_id_L [] (++)). reflexivity.
  - destruct (pop (_queries (queue w))) as [[x qs]|].
    2:{ exists []. rewrite (right_id_L [] (++)). reflexivity. }
    destruct (request (getUrl x) (getParams x) c) as [[exn|] c'].
    + eexists. cbn. reflexivity.
    + match goal with |- context [dispatch rest ?w2] =>
        destruct (IH w2) as (evs & ->) end.
      cbn. rewrite <- (assoc_L (++)). eexists. reflexivity.
Qed.

(** What the [for] loop does, whether a [request] throws or not.  It hands
    out what it pops: the requests handed out, last first, are the end of the
    backlog, and the backlog is left without them.  Each is in flight
    afterwards, but the one whose [request] threw. *)
Lemma dispatch_takes (avail : list (nat * C)) w :
  exists given : list (nat * GitHubApiRequest),
    dispatched (qtrace (snd (dispatch avail w)))
    = dispatched (qtrace w) ++ given
    /\ _queries (queue w)
       = _queries (queue (snd (dispatch avail w))) ++ rev (map snd given)
    /\ (exists later, map fst avail = map fst given ++ later)
    /\ match fst (dispatch avail w) with
       | None => inflight (snd (dispatch avail w)) = inflight w ++ given
       | Some _ =>
           exists g last,
             given = g ++ [last]
             /\ inflight (snd (dispatch avail w)) = inflight w ++ g
       end.
Proof.
  revert w. induction avail as [|[i c] rest IH]; intros w; cbn [dispatch].
  - exists []. cbn. rewrite !(right_id_L [] (++)). split; [reflexivity|].
    split; [reflexivity|]. split; [exists []; reflexivity | reflexivity].
  - destruct (pop (_queries (queue w))) as [[x qs']|] eqn:Hpop.
    2:{ exists []. cbn. rewrite !(right_id_L [] (++)). split; [reflexivity|].
        split; [reflexivity|]. split; [eexists; reflexivity | reflexivity]. }
    apply pop_Some in Hpop.
    destruct (request (getUrl x) (getParams x) c) as [[exn|] c'].
    + exists [(i, x)]. cbn. rewrite dispatched_app. cbn.
      split; [reflexivity|]. split; [exact Hpop|].
      split; [exists (map fst rest); reflexivity|].
      exists [], (i, x). rewrite (right_id_L [] (++)). split; reflexivity.
    + match goal with |- context [dispatch rest ?w2] =>
        destruct (IH w2) as (given & Hd & Hq & (later & Hl) & Hi);
        destruct (dispatch rest w2) as [o w'] end.
      cbn [fst snd] in *. cbn in Hd, Hq, Hi.
      rewrite dispatched_app in Hd. cbn in Hd.
      rewrite <- (assoc_L (++)) in Hd. cbn in Hd.
      exists ((i, x) :: given). split; [exact Hd|]. split.
      { rewrite Hpop, Hq. cbn. rewrite <- !(assoc_L (++)). reflexivity. }
      split; [exists later; cbn; rewrite Hl; reflexivity|].
      destruct o as [exn|].
      * destruct Hi as (g & last & -> & Hi). exists ((i, x) :: g), last.
        split; [reflexivity|]. rewrite Hi, <- (assoc_L (++)). reflexivity.
      * rewrite Hi, <- (assoc_L (++)). reflexivity.
Qed.

(** The [for] loop calls [request] on the clients it goes through and
    leaves the others as they are. *)
Lemma dispatch_other_clients (avail : list (nat * C)) w j :
  j ∉ map fst avail ->
  _clients (queue (snd (dispatch avail w))) !! j = _clients (queue w) !! j.
Proof.
  revert w. induction avail as [|[i c] rest IH]; intros w Hj; cbn [dispatch].
  - reflexivity.
  - destruct (pop (_queries (queue w))) as [[x qs']|]; [|reflexivity].
    cbn in Hj. apply not_elem_of_cons in Hj as [Hji Hj].
    destruct (request (getUrl x) (getParams x) c) as [[exn|] c'].
    + cbn. apply list_lookup_insert_ne. congruence.
    + rewrite IH by exact Hj. cbn. apply list_lookup_insert_ne. congruence.
Qed.

(** The first round of the [for] loop: the first free client is handed the
    last request of the backlog. *)
Lemma dispatch_first (i : nat) (c : C) rest w bl x :
  NoDup (map fst ((i, c) :: rest)) ->
  (i < length (_clients (queue w)))%nat ->
  _queries (queue w) = bl ++ [x] ->
  let res := request (getUrl x) (getParams x) c in
  let w' := snd (dispatch ((i, c) :: rest) w) in
  (exists given, dispatched (qtrace w') = dispatched (qtrace w) ++ (i, x) :: given)
  /\ (exists evs, qtrace w' = qtrace w ++ QDispatch i x :: evs)
  /\ (exists n, _queries (queue w') = take n bl)
  /\ _clients (queue w') !! i = Some (snd res)
  /\ match fst res with
     | None => exists more, inflight w' = inflight w ++ (i, x) :: more
     | Some exn =>
         fst (dispatch ((i, c) :: rest) w) = Some exn
         /\ inflight w' = inflight w
         /\ _queries (queue w') = bl
     end.
Proof.
  intros Hnd Hi Hq. cbv zeta. cbn [dispatch]. rewrite Hq, pop_snoc.
  destruct (request (getUrl x) (getParams x) c) as [[exn|] c'] eqn:Hr;
    cbn [fst snd].
  - cbn. rewrite dispatched_app. cbn.
    split; [exists []; reflexivity|]. split; [exists []; reflexivity|].
    split; [exists (length bl); rewrite firstn_all; reflexivity|].
    split; [apply list_lookup_insert_eq, Hi|]. auto.
  - cbn in Hnd. apply NoDup_cons in Hnd as [Hir _].
    match goal with |- context [dispatch rest ?w2] =>
      destruct (dispatch_takes rest w2) as (given & Hd & Hqs & _ & Hfl);
      destruct (dispatch_trace rest w2) as (evs & Htr);
      pose proof (dispatch_other_clients rest w2 i Hir) as Hc;
      destruct (dispatch rest w2) as [o w'] end.
    cbn [fst snd] in *. cbn in Hd, Hqs, Hfl, Htr, Hc.
    rewrite dispatched_app in Hd. cbn in Hd.
    rewrite <- (assoc_L (++)) in Hd. rewrite <- (assoc_L (++)) in Htr.
    cbn in Hd, Htr.
    split; [exists given; exact Hd|]. split; [exists evs; exact Htr|].
    split.
    { exists (length (_queries (queue w'))). rewrite Hqs.
      rewrite take_app_length. reflexivity. }
    split.
    { rewrite Hc. apply list_lookup_insert_eq, Hi. }
    destruct o as [exn|].
    + destruct Hfl as (g & last & _ & ->). rewrite <- (assoc_L (++)).
      eexists. reflexivity.
    + rewrite Hfl, <- (assoc_L (++)). eexists. reflexivity.
Qed.

(** C5. [push(a, b)] appends at the end of the backlog and a dispatching
    run of the loop pops from the end.  Whatever the backlog was, the run
    after [push(a, b)] pops [b] first and calls [request] with the URL and
    the parameters of [b] on the first free client: [b] is the first request
    handed out, the backlog that is left is a beginning of the one there was
    with [a] behind it, the client is as its [request] leaves it, and [b] is
    in flight on it, unless [request] threw, which ends the run with [b]
    gone. *)
Theorem push_then_dispatch_is_lifo w a b i c rest :
  _isStopped (queue w) = false ->
  _errorCount (queue w) < _maxErrorCountInTotal (queue w) ->
  availableClients (_clients (queue w)) = (i, c) :: rest ->
  let w1 := exec (APush [a; b]) w in
  let w' := snd (tick w1) in
  let res := request (getUrl b) (getParams b) c in
  _queries (queue w1) = _queries (queue w) ++ [a; b]
  /\ pop (_queries (queue w1)) = Some (b, _queries (queue w) ++ [a])
  /\ (exists evs, qtrace w' = qtrace w ++ QDispatch i b :: evs)
  /\ (exists given,
        dispatched (qtrace w') = dispatched (qtrace w) ++ (i, b) :: given)
  /\ (exists n, _queries (queue w') = take n (_queries (queue w) ++ [a]))
  /\ _clients (queue w') !! i = Some (snd res)
  /\ match fst res with
     | None => exists more, inflight w' = inflight w ++ (i, b) :: more
     | Some exn =>
         fst (tick w1) = Some exn
         /\ inflight w' = inflight w
         /\ _queries (queue w') = _queries (queue w) ++ [a]
     end.
Proof.
  intros Hs He Ha. cbv zeta.
  assert (Hq1 : _queries (queue (exec (APush [a; b]) w))
                = (_queries (queue w) ++ [a]) ++ [b]).
  { cbn. rewrite <- (assoc_L (++)). reflexivity. }
  split; [cbn; reflexivity|]. split; [rewrite Hq1; apply pop_snoc|].
  assert (Hi : (i < length (_clients (queue w)))%nat).
  { destruct (availableClients_elem (_clients (queue w)) i c) as (Hc & _).
    { rewrite Ha. apply list_elem_of_here. }
    apply lookup_lt_Some in Hc. exact Hc. }
  pose proof (availableClients_NoDup (_clients (queue w))) as Hnd.
  rewrite Ha in Hnd.
  destruct (dispatch_first i c rest (exec (APush [a; b]) w)
              (_queries (queue w) ++ [a]) b Hnd Hi Hq1)
    as (Hd & Ht & Hn & Hc & Hf).
  assert (Htick : tick (exec (APush [a; b]) w)
                  = dispatch ((i, c) :: rest) (exec (APush [a; b]) w)).
  { unfold tick. cbn [exec queue set_queue push set_queries _isStopped
                      _errorCount _maxErrorCountInTotal _clients _queries].
    rewrite Hs.
    destruct (Z.leb_spec (_maxErrorCountInTotal (queue w))
                (_errorCount (queue w))); [lia|].
    rewrite Ha, length_app. cbn [length].
    rewrite Nat.add_comm. reflexivity. }
  rewrite Htick. auto 10.
Qed.

(** *** The [.catch] handler of a dispatch *)

(** What the handler does, case by case: it throws at once when it cannot
    read the message; otherwise it logs, counts, and retries or aborts. *)
Lemma on_error_spec r error w :
  let url := getUrl r in
  let m := count_failure (_errorUrls (queue w)) url in
  let retry := below m url (_maxErrorCountPerRequest (queue w)) in
  on_error r error w
  = match reason_message error with
    | None => (Some TypeError, w)
    | Some text =>
        (None,
         {| queue :=
              (if retry then unshift [r] else fun q => q)
                (set_errors (_errorCount (queue w) + 1) m (queue w));
            inflight := inflight w; pending := pending w;
            qtrace := qtrace w
                        ++ [QLog Error (QError text);
                            if retry then QLog Info (QRetry url)
                            else QLog Error (QAbort url)] |})
    end.
Proof.
  cbv zeta. unfold on_error. destruct (reason_message error) as [text|];
    [|reflexivity].
  cbn [log emit queue set_errors _errorUrls _maxErrorCountPerRequest].
  destruct (below _ _ _); qrun; rewrite <- (assoc_L (++)); reflexivity.
Qed.

(** What the handler leaves alone, whatever it is given. *)
Lemma on_error_frame r error w :
  let w' := snd (on_error r error w) in
  inflight w' = inflight w /\ pending w' = pending w
  /\ _clients (queue w') = _clients (queue w)
  /\ _isStopped (queue w') = _isStopped (queue w)
  /\ _maxErrorCountPerRequest (queue w') = _maxErrorCountPerRequest (queue w)
  /\ _maxErrorCountInTotal (queue w') = _maxErrorCountInTotal (queue w)
  /\ dispatched (qtrace w') = dispatched (qtrace w)
  /\ _errorCount (queue w) <= _errorCount (queue w').
Proof.
  cbv zeta. rewrite on_error_spec.
  destruct (reason_message error) as [text|]; cbn [snd].
  - cbn [queue inflight pending qtrace]. rewrite dispatched_app.
    destruct (below _ _ _); cbn; rewrite (right_id_L [] (++));
      repeat split; lia.
  - repeat split; lia.
Qed.

Lemma on_error_counts r error text w :
  reason_message error = Some text ->
  fst (on_error r error w) = None
  /\ _errorCount (queue (snd (on_error r error w))) = _errorCount (queue w) + 1
  /\ _errorUrls (queue (snd (on_error r error w)))
     = count_failure (_errorUrls (queue w)) (getUrl r).
Proof.
  intros Hm. rewrite on_error_spec, Hm. cbn [fst snd queue].
  destruct (below _ _ _); cbn; auto.
Qed.

(** *** Counting in a plain object *)

(** A URL whose failures are counted by a number: one more. *)
Lemma count_failure_counted (m : Dict) url :
  counted m url = true ->
  count_failure m url = <[url := ENum (failures m url + 1)]> m.
Proof.
  unfold counted, count_failure, failures.
  destruct (m !! url) as [[n|k]|]; [| discriminate |].
  - intros _. destruct (Z.eqb_spec n 0) as [->|]; reflexivity.
  - destruct (inherited url); [discriminate | reflexivity].
Qed.

Lemma below_counted (m : Dict) url limit :
  counted m url = true ->
  below (count_failure m url) url limit = (failures m url + 1 <? limit).
Proof.
  intros Hc. rewrite (count_failure_counted _ _ Hc).
  unfold below. rewrite lookup_insert_eq. reflexivity.
Qed.

(** A URL that names an inherited property, or whose entry is no number:
    never below the limit. *)
Lemma below_uncounted (m : Dict) url limit :
  counted m url = false -> below (count_failure m url) url limit = false.
Proof.
  unfold counted, count_failure, below.
  destruct (m !! url) as [[n|k]|] eqn:Hm; [discriminate | |].
  - intros _. rewrite lookup_insert_eq. reflexivity.
  - destruct (inherited url) as [[]|]; [| |discriminate]; intros _.
    + rewrite lookup_insert_eq. reflexivity.
    + rewrite Hm. reflexivity.
Qed.

Lemma failures_counted (m : Dict) url :
  counted m url = true ->
  failures (count_failure m url) url = failures m url + 1.
Proof.
  intros Hc. rewrite (count_failure_counted _ _ Hc).
  unfold failures at 1. rewrite lookup_insert_eq. reflexivity.
Qed.

(** C10. The failures are counted per URL: the failure of one request
    changes the entry every request with the same URL is judged by, as its
    own failure would.  Where the failures of the URL are counted by a
    number, the failure of the one counts one against the other, and a
    request whose URL has failed [maxPerRequest - 1] times, by whichever
    requests, is aborted at its first failure: the handler logs the abort
    and does not put it back in the backlog.  Where they are not, because
    the URL names a property every object inherits, the request is aborted
    at its first failure whatever the limit.  A failure whose reason is
    [null] or [undefined] makes the handler throw: it counts for no request,
    and the request is not put back either. *)
Theorem failure_budget_is_per_url w r1 r2 error :
  _id r1 <> _id r2 ->
  getUrl r1 = getUrl r2 ->
  let m := _errorUrls (queue w) in
  let abort_of_r2 text :=
    fst (on_error r2 error w) = None
    /\ _queries (queue (snd (on_error r2 error w))) = _queries (queue w)
    /\ qtrace (snd (on_error r2 error w))
       = qtrace w ++ [QLog Error (QError text);
                      QLog Error (QAbort (getUrl r2))] in
  _errorUrls (queue (snd (on_error r1 error w)))
  = _errorUrls (queue (snd (on_error r2 error w)))
  /\ (forall text, reason_message error = Some text ->
      (counted m (getUrl r2) = true ->
       failures (_errorUrls (queue (snd (on_error r1 error w)))) (getUrl r2)
       = failures m (getUrl r2) + 1
       /\ (failures m (getUrl r2) = _maxErrorCountPerRequest (queue w) - 1 ->
           abort_of_r2 text
           /\ failures (_errorUrls (queue (snd (on_error r2 error w))))
                (getUrl r2)
              = _maxErrorCountPerRequest (queue w)))
      /\ (counted m (getUrl r2) = false -> abort_of_r2 text))
  /\ (reason_message error = None ->
      on_error r1 error w = (Some TypeError, w)
      /\ on_error r2 error w = (Some TypeError, w)).
Proof.
  intros _ Hurl. cbv zeta.
  split; [rewrite !on_error_spec, Hurl; destruct (reason_message error);
          [destruct (below _ _ _)|]; reflexivity|].
  split; [|intros Hm; rewrite !on_error_spec, Hm; auto].
  intros text Hm.
  destruct (on_error_counts r1 error text w Hm) as (_ & _ & Hu1).
  destruct (on_error_counts r2 error text w Hm) as (Hn2 & _ & Hu2).
  assert (Habort : below (count_failure (_errorUrls (queue w)) (getUrl r2))
                     (getUrl r2) (_maxErrorCountPerRequest (queue w)) = false ->
                   fst (on_error r2 error w) = None
                   /\ _queries (queue (snd (on_error r2 error w)))
                      = _queries (queue w)
                   /\ qtrace (snd (on_error r2 error w))
                      = qtrace w ++ [QLog Error (QError text);
                                     QLog Error (QAbort (getUrl r2))]).
  { intros Hb. rewrite on_error_spec, Hm, Hb. cbn. auto. }
  split.
  - intros Hc. split.
    + rewrite Hu1, Hurl. apply failures_counted, Hc.
    + intros Hf. split.
      * apply Habort. rewrite (below_counted _ _ _ Hc). apply Z.ltb_ge. lia.
      * rewrite Hu2, (failures_counted _ _ Hc). lia.
  - intros Hc. apply Habort, below_uncounted, Hc.
Qed.

(** *** A request put at the head *)

Lemma run_cons act (acts : list (Action C)) w :
  run (act :: acts) w = run acts (exec act w).
Proof. reflexivity. Qed.

Lemma run_snoc (acts : list (Action C)) act w :
  run (acts ++ [act]) w = exec act (run acts w).
Proof. unfold run. rewrite foldl_app. reflexivity. Qed.

(** A run of the loop hands out what it takes from the end of the
    backlog. *)
Lemma tick_takes w :
  exists given : list (nat * GitHubApiRequest),
    dispatched (qtrace (snd (tick w))) = dispatched (qtrace w) ++ given
    /\ _queries (queue w)
       = _queries (queue (snd (tick w))) ++ rev (map snd given)
    /\ (fst (tick w) = None -> inflight (snd (tick w)) = inflight w ++ given).
Proof.
  assert (Hnone : forall w', w' = w \/ w' = log Error QTooManyErrors w
                             \/ w' = setTimeout 1000 w ->
            dispatched (qtrace w') = dispatched (qtrace w) ++ []
            /\ _queries (queue w)
               = _queries (queue w')
                   ++ rev (map snd (@nil (nat * GitHubApiRequest)))
            /\ (None = None :> option Exn -> inflight w' = inflight w ++ [])).
  { intros w' [-> | [-> | ->]]; cbn; rewrite ?dispatched_app; cbn;
      rewrite !(right_id_L [] (++)); auto. }
  unfold tick. destruct (_isStopped (queue w)); [exists []; apply Hnone; auto|].
  destruct (_ <=? _); [exists []; apply Hnone; auto|].
  destruct (_ || _); [exists []; apply Hnone; auto|].
  destruct (dispatch_takes (availableClients (_clients (queue w))) w)
    as (given & Hd & Hq & _ & Hi).
  exists given. split; [exact Hd|]. split; [exact Hq|].
  intros Hn. rewrite Hn in Hi. exact Hi.
Qed.

Lemma uncaught_frame (p : option Exn * Loop C) :
  queue (uncaught p) = queue (snd p)
  /\ inflight (uncaught p) = inflight (snd p)
  /\ pending (uncaught p) = pending (snd p)
  /\ dispatched (qtrace (uncaught p)) = dispatched (qtrace (snd p)).
Proof.
  destruct p as [[x|] w]; cbn; rewrite ?dispatched_app; cbn;
    rewrite ?(right_id_L [] (++)); auto.
Qed.

(** What the handlers of a settled dispatch do to the backlog: nothing, or
    they put the request at its head; they hand out nothing. *)
Lemma completion_backlog r s w :
  dispatched (qtrace (completion r s w)) = dispatched (qtrace w)
  /\ (_queries (queue (completion r s w)) = _queries (queue w)
      \/ _queries (queue (completion r s w)) = r :: _queries (queue w)).
Proof.
  assert (Herr : forall error w1,
             dispatched (qtrace (snd (on_error r error w1)))
             = dispatched (qtrace w1)
             /\ (_queries (queue (snd (on_error r error w1)))
                 = _queries (queue w1)
                 \/ _queries (queue (snd (on_error r error w1)))
                    = r :: _queries (queue w1))).
  { intros error w1.
    destruct (on_error_frame r error w1) as (_ & _ & _ & _ & _ & _ & Hd & _).
    split; [exact Hd|]. rewrite on_error_spec.
    destruct (reason_message error); [|left; reflexivity].
    destruct (below _ _ _); cbn; auto. }
  unfold completion.
  assert (Hfin : forall p : option Exn * Loop C,
             dispatched (qtrace (uncaught (fst p, setTimeout 0 (snd p))))
             = dispatched (qtrace (snd p))
             /\ _queries (queue (uncaught (fst p, setTimeout 0 (snd p))))
                = _queries (queue (snd p))).
  { intros [o w1]. cbn [fst snd].
    destruct (uncaught_frame (o, setTimeout 0 w1))
      as (-> & _ & _ & ->). cbn. rewrite dispatched_app. cbn.
    rewrite (right_id_L [] (++)). auto. }
  destruct s as [res|error].
  - unfold on_result. destruct (runCallback r res) as [v|reason].
    + destruct (Hfin (None, emit (QCallback r res) w)) as (Hd & Hq).
      cbn [fst snd] in Hd, Hq. rewrite Hd, Hq. cbn. rewrite dispatched_app.
      cbn. rewrite (right_id_L [] (++)). auto.
    + destruct (Herr reason (emit (QCallback r res) w)) as (Hd & Hq).
      destruct (on_error r reason (emit (QCallback r res) w)) as [o w1].
      destruct (Hfin (o, w1)) as (Hd' & Hq'). cbn [fst snd] in *.
      rewrite Hd', Hq', Hd. cbn in Hq |- *. rewrite dispatched_app. cbn.
      rewrite (right_id_L [] (++)). auto.
  - destruct (Herr error w) as (Hd & Hq).
    destruct (on_error r error w) as [o w1].
    destruct (Hfin (o, w1)) as (Hd' & Hq'). cbn [fst snd] in *.
    rewrite Hd', Hq', Hd. auto.
Qed.

(** What one step of the event loop does to the backlog: it adds at either
    end and hands out nothing, or it hands out what it takes from the
    end. *)
Lemma exec_backlog act w :
  exists given : list (nat * GitHubApiRequest),
    dispatched (qtrace (exec act w)) = dispatched (qtrace w) ++ given
    /\ ((given = []
         /\ exists front back,
              _queries (queue (exec act w))
              = front ++ _queries (queue w) ++ back)
        \/ _queries (queue w)
           = _queries (queue (exec act w)) ++ rev (map snd given)).
Proof.
  assert (Hsame : forall w', dispatched (qtrace w') = dispatched (qtrace w) ->
            _queries (queue w') = _queries (queue w) ->
            exists given : list (nat * GitHubApiRequest),
              dispatched (qtrace w') = dispatched (qtrace w) ++ given
              /\ ((given = []
                   /\ exists front back,
                        _queries (queue w') = front ++ _queries (queue w) ++ back)
                  \/ _queries (queue w)
                     = _queries (queue w') ++ rev (map snd given))).
  { intros w' Hd Hq. exists []. rewrite (right_id_L [] (++)).
    split; [exact Hd|]. right. cbn. rewrite (right_id_L [] (++)), Hq.
    reflexivity. }
  assert (Htick : forall w1, dispatched (qtrace w1) = dispatched (qtrace w) ->
            _queries (queue w1) = _queries (queue w) ->
            exists given : list (nat * GitHubApiRequest),
              dispatched (qtrace (uncaught (tick w1)))
              = dispatched (qtrace w) ++ given
              /\ ((given = []
                   /\ exists front back,
                        _queries (queue (uncaught (tick w1)))
                        = front ++ _queries (queue w) ++ back)
                  \/ _queries (queue w)
                     = _queries (queue (uncaught (tick w1)))
                         ++ rev (map snd given))).
  { intros w1 Hd Hq. destruct (tick_takes w1) as (given & Hd1 & Hq1 & _).
    destruct (uncaught_frame (tick w1)) as (Hqu & _ & _ & Hdu).
    exists given. rewrite Hdu, Hqu, Hd1, Hd. split; [reflexivity|].
    right. rewrite <- Hq. exact Hq1. }
  destruct act as [rs|rs| | |k|k t|i c]; cbn [exec].
  - exists []. cbn. rewrite (right_id_L [] (++)). split; [reflexivity|].
    left. split; [reflexivity|]. exists [], rs. reflexivity.
  - exists []. cbn. rewrite (right_id_L [] (++)). split; [reflexivity|].
    left. split; [reflexivity|]. exists rs, [].
    rewrite (right_id_L [] (++)). reflexivity.
  - unfold start, _process. apply Htick; [|reflexivity].
    cbn. rewrite dispatched_app. cbn. apply (right_id_L [] (++)).
  - apply Hsame; [|reflexivity].
    cbn. rewrite dispatched_app. cbn. apply (right_id_L [] (++)).
  - destruct (pending w !! k); [|apply Hsame; reflexivity].
    apply Htick; reflexivity.
  - destruct (inflight w !! k) as [[i r]|]; [|apply Hsame; reflexivity].
    cbn [queue].
    destruct (_clients (queue w) !! i) as [c|]; [|apply Hsame; reflexivity].
    destruct (settle (getUrl r) t c) as [s c'].
    match goal with |- context [completion r s ?w1] =>
      destruct (completion_backlog r s w1) as (Hd & [Hq | Hq]) end.
    + apply Hsame; [exact Hd | exact Hq].
    + exists []. rewrite (right_id_L [] (++)). split; [exact Hd|].
      left. split; [reflexivity|]. exists [r], [].
      rewrite (right_id_L [] (++)). exact Hq.
  - apply Hsame; reflexivity.
Qed.

(** The request at the end of the backlog is handed out. *)
Lemma behind_pop r (old given : list GitHubApiRequest) backlog x :
  behind r old given (backlog ++ [x]) -> behind r old (given ++ [x]) backlog.
Proof.
  intros [(below & m & above & Hm & Hb & Hs) | Hs].
  2:{ right. apply sublist_inserts_r, Hs. }
  destruct above as [|y above _] using rev_ind.
  - rewrite (right_id_L [] (++)) in Hb.
    destruct (take m old) as [|y t _] eqn:Ht using rev_ind.
    + right. apply app_inj_tail in Hb as [-> ->].
      apply sublist_app; [|reflexivity].
      assert (Hd : drop m old = old).
      { destruct m; [reflexivity|]. destruct old; [reflexivity | discriminate]. }
      rewrite Hd in Hs. exact Hs.
    + left. change (below ++ r :: t ++ [y]) with (below ++ (r :: t) ++ [y]) in Hb.
      rewrite (assoc_L (++)) in Hb. apply app_inj_tail in Hb as [-> ->].
      assert (Hlen : length (take m old) = S (length t))
        by (rewrite Ht, length_app; cbn; lia).
      rewrite length_take in Hlen.
      exists below, (length t), []. split; [lia|].
      assert (Htt : take (length t) old = t).
      { replace (length t) with (Nat.min (length t) m) at 1 by lia.
        rewrite <- take_take, Ht, take_app_length. reflexivity. }
      assert (Hdd : drop (length t) old = y :: drop m old).
      { rewrite <- (take_drop m old) at 1. rewrite Ht.
        rewrite <- (assoc_L (++)), drop_app_length. cbn.
        f_equal. }
      split.
      * rewrite Htt, (right_id_L [] (++)). reflexivity.
      * rewrite Hdd. cbn [rev]. apply sublist_app; [exact Hs | reflexivity].
  - left. exists below, m, above. split; [exact Hm|].
    change (below ++ r :: take m old ++ above ++ [y])
      with (below ++ (r :: take m old ++ above ++ [y])) in Hb.
    assert (Hb' : backlog ++ [x]
                  = (below ++ r :: take m old ++ above) ++ [y]).
    { rewrite Hb, <- !(assoc_L (++)). cbn. rewrite <- !(assoc_L (++)).
      reflexivity. }
    apply app_inj_tail in Hb' as [-> ->]. split; [reflexivity|].
    apply sublist_inserts_r, Hs.
Qed.

Lemma behind_pops r (old given : list GitHubApiRequest) backlog taken :
  behind r old given (backlog ++ rev taken) ->
  behind r old (given ++ taken) backlog.
Proof.
  revert given. induction taken as [|x taken IH]; intros given Hb.
  - cbn in Hb. rewrite !(right_id_L [] (++)) in *. exact Hb.
  - cbn [rev] in Hb. rewrite (assoc_L (++)) in Hb. apply behind_pop in Hb.
    apply IH in Hb. rewrite <- (assoc_L (++)) in Hb. exact Hb.
Qed.

Lemma behind_add r (old given : list GitHubApiRequest) backlog front back :
  behind r old given backlog -> behind r old given (front ++ backlog ++ back).
Proof.
  intros [(below & m & above & Hm & -> & Hs) | Hs]; [|right; exact Hs].
  left. exists (front ++ below), m, (above ++ back). split; [exact Hm|].
  split; [|exact Hs]. rewrite <- !(assoc_L (++)). cbn.
  rewrite <- !(assoc_L (++)). reflexivity.
Qed.

Lemma run_behind r old (acts : list (Action C)) w :
  _queries (queue w) = r :: old ->
  exists given,
    dispatched (qtrace (run acts w)) = dispatched (qtrace w) ++ given
    /\ behind r old (map snd given) (_queries (queue (run acts w))).
Proof.
  intros Hq. induction acts as [|act acts IH] using rev_ind.
  - exists []. rewrite (right_id_L [] (++)). split; [reflexivity|].
    left. exists [], (length old), []. split; [lia|].
    rewrite firstn_all, drop_all, (right_id_L [] (++)). cbn.
    split; [exact Hq | constructor].
  - destruct IH as (given & Hd & Hb). rewrite run_snoc.
    destruct (exec_backlog act (run acts w))
      as (step & Hd' & [(-> & front & back & Hq') | Hq']).
    + exists given. rewrite Hd', Hd, (right_id_L [] (++)).
      split; [reflexivity|]. rewrite Hq'. apply behind_add, Hb.
    + exists (given ++ step). rewrite Hd', Hd, (assoc_L (++)).
      split; [reflexivity|]. rewrite map_app. apply behind_pops.
      rewrite <- Hq'. exact Hb.
Qed.

Lemma tick_last_of_run r old w :
  _queries (queue w) = r :: old -> last_of_run r old w.
Proof.
  intros Hq. unfold last_of_run.
  destruct (tick_takes w) as (given & Hd & Hqs & Hi). rewrite Hq in Hqs.
  destruct (_queries (queue (snd (tick w)))) as [|y q'] eqn:Hq'.
  - exists given, 0%nat. split; [exact Hd|]. split; [exact Hi|]. right.
    split; [reflexivity|]. cbn in Hqs.
    rewrite <- (rev_involutive (map snd given)), <- Hqs. reflexivity.
  - cbn in Hqs. injection Hqs as <- Hold.
    exists given, (length q'). split; [exact Hd|]. split; [exact Hi|]. left.
    rewrite Hold, take_app_length, drop_app_length, rev_involutive. auto.
Qed.

Lemma tick_tail_goes_first backlog w :
  _queries (queue w) = backlog -> tail_goes_first backlog w.
Proof.
  intros Hq i c rest bl x Hs He Ha Hbl. cbv zeta.
  assert (Hi : (i < length (_clients (queue w)))%nat).
  { destruct (availableClients_elem (_clients (queue w)) i c) as (Hc & _).
    { rewrite Ha. apply list_elem_of_here. }
    apply lookup_lt_Some in Hc. exact Hc. }
  pose proof (availableClients_NoDup (_clients (queue w))) as Hnd.
  rewrite Ha in Hnd. rewrite Hbl in Hq.
  destruct (dispatch_first i c rest w bl x Hnd Hi Hq) as (Hd & _ & _ & Hc & Hf).
  assert (Htick : tick w = dispatch ((i, c) :: rest) w).
  { unfold tick. rewrite Hs.
    destruct (Z.leb_spec (_maxErrorCountInTotal (queue w))
                (_errorCount (queue w))); [lia|].
    rewrite Ha, Hq, length_app. cbn [length].
    rewrite Nat.add_comm. reflexivity. }
  rewrite Htick. split; [exact Hd|]. split; [exact Hc|].
  intros Hn. rewrite Hn in Hf. exact Hf.
Qed.

(** C1 (as amended). A request inserted at the head of the backlog is
    dispatched last, since a dispatch pops the tail.  A failed request whose
    URL stays under the limit is put back at index 0.  A dispatching run of
    the loop then hands the request at the end of the backlog to its first
    free client; a run hands out what it takes from the end, so that the
    request put back stays at the head or is the last one handed out; and
    whatever happens afterwards, it is handed out only after every request
    that was in the backlog, last first.  [unshift(a, b)] puts [a] and [b]
    at indices 0 and 1: the same holds of [a], with [b] and the backlog
    there was above it; on an empty backlog the first request handed out is
    [b]. *)
Theorem head_insertions_are_dispatched_last w a b r error text :
  (reason_message error = Some text ->
   below (count_failure (_errorUrls (queue w)) (getUrl r)) (getUrl r)
     (_maxErrorCountPerRequest (queue w)) = true ->
   let w1 := snd (on_error r error w) in
   fst (on_error r error w) = None
   /\ _queries (queue w1) = r :: _queries (queue w)
   /\ tail_goes_first (r :: _queries (queue w)) w1
   /\ last_of_run r (_queries (queue w)) w1
   /\ last_of_all r (_queries (queue w)) w1)
  /\ (let w2 := exec (AUnshift [a; b]) w in
      _queries (queue w2) = a :: b :: _queries (queue w)
      /\ tail_goes_first (a :: b :: _queries (queue w)) w2
      /\ last_of_run a (b :: _queries (queue w)) w2
      /\ last_of_all a (b :: _queries (queue w)) w2).
Proof.
  split.
  - intros Hm Hb. cbv zeta.
    assert (Hq : _queries (queue (snd (on_error r error w)))
                 = r :: _queries (queue w)).
    { rewrite on_error_spec, Hm, Hb. reflexivity. }
    split; [apply (on_error_counts r error text w Hm)|].
    split; [exact Hq|]. split; [apply tick_tail_goes_first, Hq|].
    split; [apply tick_last_of_run, Hq|].
    intros acts. apply run_behind, Hq.
  - cbv zeta.
    assert (Hq : _queries (queue (exec (AUnshift [a; b]) w))
                 = a :: b :: _queries (queue w)) by reflexivity.
    split; [exact Hq|]. split; [apply tick_tail_goes_first, Hq|].
    split; [apply tick_last_of_run, Hq|].
    intros acts. apply run_behind, Hq.
Qed.

(** *** The error counters *)

Lemma sum_errors_empty : sum_errors ∅ = 0.
Proof. apply map_fold_empty. Qed.

Lemma sum_errors_insert_fresh (m : Dict) k n :
  m !! k = None -> sum_errors (<[k := ENum n]> m) = n + sum_errors m.
Proof.
  intros Hk. unfold sum_errors.
  rewrite (map_fold_insert_L _ 0 k (ENum n) m); [reflexivity | | exact Hk].
  intros ? ? [?|?] [?|?] ? _ _ _; lia.
Qed.

Lemma sum_errors_delete (m : Dict) k n :
  m !! k = Some (ENum n) -> sum_errors m = n + sum_errors (delete k m).
Proof.
  intros Hk. unfold sum_errors.
  rewrite (map_fold_delete_L
             (fun _ e acc => match e with ENum n => n + acc | EText _ => acc end)
             0 k (ENum n) m); [reflexivity | | exact Hk].
  intros ? ? [?|?] [?|?] ? _ _ _; lia.
Qed.

(** One more failure of a URL whose failures are counted by a number. *)
Lemma sum_errors_bump (m : Dict) k :
  counted m k = true ->
  sum_errors (count_failure m k) = sum_errors m + 1.
Proof.
  intros Hc. rewrite (count_failure_counted _ _ Hc).
  unfold counted, failures in *.
  destruct (m !! k) as [[n|?]|] eqn:Hk; [| discriminate |].
  - rewrite <- (insert_delete_eq m k).
    rewrite sum_errors_insert_fresh by apply lookup_delete_eq.
    rewrite (sum_errors_delete m k n Hk). lia.
  - rewrite sum_errors_insert_fresh by exact Hk. lia.
Qed.

Lemma count_foldl (P : string -> bool) (l : list string) (acc : Z) :
  foldl (fun acc url => if P url then acc + 1 else acc) acc l
  = acc + Z.of_nat (length (List.filter P l)).
Proof.
  revert acc. induction l as [|u l IH]; intros acc; cbn.
  - lia.
  - rewrite IH. destruct (P u); cbn; lia.
Qed.

(** [getRequestFailCount] counts the abandoned URLs. *)
Lemma getRequestFailCount_spec q :
  getRequestFailCount q
  = Z.of_nat (size (abandoned_urls (_maxErrorCountPerRequest q) (_errorUrls q))).
Proof.
  unfold getRequestFailCount.
  rewrite (count_foldl
             (fun url => match _errorUrls q !! url with
                         | Some e => reaches (_maxErrorCountPerRequest q) e
                         | None => false
                         end)).
  rewrite Z.add_0_l. f_equal.
  unfold size, set_size. cbn. apply Permutation_length.
  apply NoDup_Permutation.
  - apply NoDup_ListNoDup, List.NoDup_filter, NoDup_ListNoDup.
    apply (NoDup_fst_map_to_list (_errorUrls q)).
  - apply NoDup_elements.
  - intros u. rewrite elem_of_elements. unfold abandoned_urls.
    rewrite elem_of_dom. unfold is_Some.
    setoid_rewrite map_lookup_filter_Some. cbn.
    rewrite list_elem_of_In, filter_In, <- list_elem_of_In.
    change (map fst (map_to_list (_errorUrls q))) with ((map_to_list (_errorUrls q)).*1).
    rewrite list_elem_of_fmap. split.
    + intros (([k v] & -> & Hin) & Hle). cbn in *.
      apply elem_of_map_to_list in Hin. rewrite Hin in Hle.
      exists v. split; [exact Hin | exact Hle].
    + intros (v & Hv & Hle). split.
      * exists (u, v). split; [reflexivity|]. apply elem_of_map_to_list. exact Hv.
      * rewrite Hv. exact Hle.
Qed.

(** The dispatch loop and a run of [queue] leave the counters alone. *)
Lemma dispatch_errors avail w :
  _errorCount (queue (snd (dispatch avail w))) = _errorCount (queue w)
  /\ _errorUrls (queue (snd (dispatch avail w))) = _errorUrls (queue w).
Proof.
  revert w. induction avail as [|[i c] rest IH]; intros w; cbn [dispatch].
  - auto.
  - destruct (pop (_queries (queue w))) as [[x qs]|]; [|auto].
    destruct (request (getUrl x) (getParams x) c) as [[exn|] c'].
    + cbn. auto.
    + match goal with |- context [dispatch rest ?w2] =>
        destruct (IH w2) as (-> & ->) end.
      cbn. auto.
Qed.

Lemma tick_errors w :
  _errorCount (queue (snd (tick w))) = _errorCount (queue w)
  /\ _errorUrls (queue (snd (tick w))) = _errorUrls (queue w).
Proof.
  unfold tick. destruct (_isStopped (queue w)); [auto|].
  destruct (_maxErrorCountInTotal (queue w) <=? _errorCount (queue w)); [auto|].
  destruct (_ || _); [auto|]. apply dispatch_errors.
Qed.

Lemma uncaught_errors (p : option Exn * Loop C) :
  queue (uncaught p) = queue (snd p).
Proof. destruct p as [[x|] w]; reflexivity. Qed.

Lemma reachable_run acts w : reachable w -> reachable (run acts w).
Proof.
  revert w. induction acts as [|act acts IH]; intros w Hr; [exact Hr|].
  apply IH. apply reach_step, Hr.
Qed.

(** *** Once over the error budget *)

Lemma dispatch_maxTotal avail w :
  _maxErrorCountInTotal (queue (snd (dispatch avail w))) = _maxErrorCountInTotal (queue w).
Proof.
  revert w. induction avail as [|[i c] rest IH]; intros w; cbn [dispatch].
  - reflexivity.
  - destruct (pop (_queries (queue w))) as [[x qs]|]; [|reflexivity].
    destruct (request (getUrl x) (getParams x) c) as [[exn|] c'].
    + reflexivity.
    + match goal with |- context [dispatch rest ?w2] => rewrite (IH w2) end.
      reflexivity.
Qed.

Lemma tick_maxTotal w :
  _maxErrorCountInTotal (queue (snd (tick w))) = _maxErrorCountInTotal (queue w).
Proof.
  unfold tick. destruct (_isStopped (queue w)); [reflexivity|].
  destruct (_maxErrorCountInTotal (queue w) <=? _errorCount (queue w)); [reflexivity|].
  destruct (_ || _); [reflexivity|]. apply dispatch_maxTotal.
Qed.

(** A run of the loop that is over the budget hands nothing to a client,
    stopped or not. *)
Lemma tick_over_budget_no_dispatch w :
  _maxErrorCountInTotal (queue w) <= _errorCount (queue w) ->
  dispatched (qtrace (uncaught (tick w))) = dispatched (qtrace w)
  /\ queue (uncaught (tick w)) = queue w.
Proof.
  intros He. unfold tick. destruct (_isStopped (queue w)); [auto|].
  destruct (Z.leb_spec (_maxErrorCountInTotal (queue w)) (_errorCount (queue w)));
    [|lia].
  cbn. rewrite dispatched_app. cbn. rewrite (right_id_L [] (++)). auto.
Qed.

(** The error count never goes down and the budget is fixed: a queue that
    is over its budget stays so, and nothing that happens afterwards, a
    [start] included, dispatches a request. *)
Lemma over_budget_is_final act w :
  _maxErrorCountInTotal (queue w) <= _errorCount (queue w) ->
  _maxErrorCountInTotal (queue (exec act w)) <= _errorCount (queue (exec act w))
  /\ dispatched (qtrace (exec act w)) = dispatched (qtrace w).
Proof.
  intros He. destruct act as [rs|rs| | |k|k t|i c]; cbn.
  - auto.
  - auto.
  - unfold start, _process.
    destruct (tick_over_budget_no_dispatch (log Info QStart w) He) as (Hd & Hq).
    rewrite Hq, Hd. cbn. rewrite dispatched_app. cbn.
    rewrite (right_id_L [] (++)). auto.
  - rewrite dispatched_app. cbn. rewrite (right_id_L [] (++)). auto.
  - destruct (pending w !! k); [|auto].
    match goal with |- context [tick ?w1] =>
      destruct (tick_over_budget_no_dispatch w1 He) as (Hd & Hq) end.
    rewrite Hq, Hd. auto.
  - destruct (inflight w !! k) as [[i r]|]; [|auto]. cbn [queue].
    destruct (_clients (queue w) !! i) as [c|]; [|auto].
    destruct (settle (getUrl r) t c) as [s c'].
    match goal with |- context [completion r s ?w1] =>
      assert (Hw1 : _maxErrorCountInTotal (queue w1) <= _errorCount (queue w1)
                    /\ dispatched (qtrace w1) = dispatched (qtrace w))
        by (split; [exact He | reflexivity]);
      generalize dependent w1 end.
    intros w1 (He1 & Hd1).
    assert (Herr : forall e w2,
               _maxErrorCountInTotal (queue w2) <= _errorCount (queue w2) ->
               _maxErrorCountInTotal (queue (snd (on_error r e w2)))
               <= _errorCount (queue (snd (on_error r e w2)))
               /\ dispatched (qtrace (snd (on_error r e w2)))
                  = dispatched (qtrace w2)).
    { intros e w2 H2.
      destruct (on_error_frame r e w2) as (_ & _ & _ & _ & _ & -> & -> & Hle).
      split; [lia | reflexivity]. }
    assert (Hfin : forall p : option Exn * Loop C,
               queue (uncaught (fst p, setTimeout 0 (snd p))) = queue (snd p)
               /\ dispatched (qtrace (uncaught (fst p, setTimeout 0 (snd p))))
                  = dispatched (qtrace (snd p))).
    { intros [o w2]. cbn [fst snd].
      destruct (uncaught_frame (o, setTimeout 0 w2)) as (-> & _ & _ & ->).
      cbn. rewrite dispatched_app. cbn. rewrite (right_id_L [] (++)). auto. }
    unfold completion. destruct s as [result|error].
    + unfold on_result. destruct (runCallback r result) as [v|reason].
      * destruct (Hfin (None, emit (QCallback r result) w1)) as (Hq & Hd).
        cbn [fst snd] in Hq, Hd. rewrite Hq, Hd. cbn. rewrite dispatched_app.
        cbn. rewrite (right_id_L [] (++)). auto.
      * destruct (Herr reason (emit (QCallback r result) w1) He1) as (Hle & Hdd).
        destruct (on_error r reason (emit (QCallback r result) w1)) as [o w2].
        destruct (Hfin (o, w2)) as (Hq & Hd). cbn [fst snd] in *.
        rewrite Hq, Hd, Hdd. cbn. rewrite dispatched_app. cbn.
        rewrite (right_id_L [] (++)). auto.
    + destruct (Herr error w1 He1) as (Hle & Hdd).
      destruct (on_error r error w1) as [o w2].
      destruct (Hfin (o, w2)) as (Hq & Hd). cbn [fst snd] in *.
      rewrite Hq, Hd, Hdd. auto.
  - auto.
Qed.

(** What happens after the budget is spent, step after step. *)
Lemma over_budget_run acts w :
  _maxErrorCountInTotal (queue w) <= _errorCount (queue w) ->
  _maxErrorCountInTotal (queue (run acts w)) <= _errorCount (queue (run acts w))
  /\ dispatched (qtrace (run acts w)) = dispatched (qtrace w).
Proof.
  revert w. induction acts as [|act acts IH]; intros w He; [auto|].
  destruct (over_budget_is_final act w He) as (He' & Hd).
  destruct (IH (exec act w) He') as (He'' & Hd').
  change (run (act :: acts) w) with (run acts (exec act w)).
  split; [exact He''|]. rewrite Hd'. exact Hd.
Qed.

(** C7 (as amended). A run of the loop that finds [errorCount >= maxTotal]
    while [stopped] is false logs the abort and returns: it pops nothing,
    hands nothing to a client, sets no timer to run again, and leaves
    [stopped] false.  So does the run a pending timer starts, and that timer
    is not replaced.  A later [start] is not refused by the stop flag, but it
    finds the same condition and logs the abort again: the error count never
    goes down and the budget is fixed, so whatever happens afterwards no
    request is dispatched any more. *)
Theorem tick_over_error_budget_terminates w :
  _isStopped (queue w) = false ->
  _maxErrorCountInTotal (queue w) <= _errorCount (queue w) ->
  tick w = (None, log Error QTooManyErrors w)
  /\ (let w' := snd (tick w) in
      queue w' = queue w
      /\ _queries (queue w') = _queries (queue w)
      /\ inflight w' = inflight w
      /\ pending w' = pending w
      /\ qtrace w' = qtrace w ++ [QLog Error QTooManyErrors]
      /\ _isStopped (queue w') = false)
  /\ (forall k d, pending w !! k = Some d ->
        pending (exec (ATimer k) w) = delete k (pending w)
        /\ queue (exec (ATimer k) w) = queue w
        /\ inflight (exec (ATimer k) w) = inflight w)
  /\ snd (start w) = log Error QTooManyErrors (log Info QStart w)
  /\ (forall acts,
        _maxErrorCountInTotal (queue (run acts w)) <= _errorCount (queue (run acts w))
        /\ dispatched (qtrace (run acts w)) = dispatched (qtrace w)).
Proof.
  intros Hs He.
  assert (Ht : forall w0, queue w0 = queue w ->
                 tick w0 = (None, log Error QTooManyErrors w0)).
  { intros w0 Hq. unfold tick. rewrite Hq, Hs.
    destruct (Z.leb_spec (_maxErrorCountInTotal (queue w)) (_errorCount (queue w)));
      [reflexivity | lia]. }
  split; [apply Ht; reflexivity|]. split; [|split; [|split]].
  - rewrite (Ht w eq_refl). cbn. rewrite Hs. frame. reflexivity.
  - intros k d Hk. cbn. rewrite Hk. rewrite Ht by reflexivity. cbn.
    frame. reflexivity.
  - unfold start, _process. rewrite Ht by reflexivity. reflexivity.
  - intros acts. apply over_budget_run, He.
Qed.


End WithClient.

(** *** The scenarios of the tests *)

Import Scenario.

(** One free client and the backlog [x]: after [push(a, b)] the run pops
    [b], calls the client with it and leaves it in flight, with [x] and [a]
    waiting. *)
Lemma push_then_dispatch_is_lifo_witness :
  let w : Loop Mock := exec (APush [req_x]) (boot (new_queue [succeeding])) in
  let w' := snd (tick (exec (APush [req_a; req_b]) w)) in
  _isStopped (queue w) = false
  /\ _errorCount (queue w) < _maxErrorCountInTotal (queue w)
  /\ (exists given,
        dispatched (qtrace w') = dispatched (qtrace w) ++ (0%nat, req_b) :: given)
  /\ (exists n, _queries (queue w') = take n [req_x; req_a])
  /\ map mock_calls (_clients (queue w')) = [1%nat]
  /\ (exists more, inflight w' = (0%nat, req_b) :: more).
Proof.
  intros w w'. split; [reflexivity|]. split; [reflexivity|].
  destruct (push_then_dispatch_is_lifo w req_a req_b 0%nat succeeding [])
    as (_ & _ & _ & Hd & Hq & _ & Hi); try reflexivity.
  split; [exact Hd|]. split; [exact Hq|]. split; [reflexivity | exact Hi].
Defined.

(** The order of the dispatches after [push(x)], [push(a, b)]: [b], [a],
    [x]. *)
Example push_dispatch_order :
  dispatched_ids
    (qtrace (run [APush [req_x]; APush [req_a; req_b]; AStart;
                  settles; ATimer 0; settles; ATimer 0]
               (boot (new_queue [succeeding]))))
  = [2%nat; 1%nat; 3%nat].
Proof. reflexivity. Qed.

(** A budget of one error, spent by the first failure: the next run of the
    loop leaves the two waiting requests where they are. *)
Lemma tick_over_error_budget_terminates_witness :
  let w : Loop Mock :=
    run [APush [req_x; req_404]; AStart; settles]
      (boot (constructor [failing] 5 (Some 1))) in
  _errorCount (queue w) = 1
  /\ _maxErrorCountInTotal (queue w) = 1
  /\ getQueueLength (queue w) = 2%nat
  /\ tick w = (None, log Error QTooManyErrors w)
  /\ _isStopped (queue (snd (tick w))) = false.
Proof.
  intros w.
  destruct (tick_over_error_budget_terminates w) as (Ht & (_ & _ & _ & _ & _ & Hs) & _);
    [reflexivity | vm_compute; discriminate |].
  split; [reflexivity|]. split; [reflexivity|]. split; [reflexivity|].
  split; [exact Ht | exact Hs].
Defined.

(** C7, refuted in its last part.  A budget of one error, spent, with two
    requests waiting and a free client: [start] logs the abort again and
    hands nothing to the client, and neither does anything that follows. *)
Lemma start_after_abort_does_not_resume :
  let w : Loop Mock :=
    snd (tick (run [APush [req_x; req_404]; AStart; settles]
                 (boot (constructor [failing] 5 (Some 1))))) in
  _isStopped (queue w) = false
  /\ getQueueLength (queue w) = 2%nat
  /\ length (availableClients (_clients (queue w))) = 1%nat
  /\ dispatched_ids (qtrace w) = [9%nat]
  /\ dispatched_ids (qtrace (exec AStart w)) = [9%nat]
  /\ (forall acts, dispatched_ids (qtrace (run acts w)) = [9%nat]).
Proof.
  intros w. split; [reflexivity|]. split; [reflexivity|]. split; [reflexivity|].
  split; [reflexivity|]. split; [reflexivity|].
  intros acts. unfold dispatched_ids.
  destruct (over_budget_run acts w) as (_ & ->); [vm_compute; discriminate|].
  reflexivity.
Qed.

(** C1, refuted.  With one free client: after [unshift(a, b)] onto the
    backlog [x] the dispatches are [x], [b], [a], so [a] comes last, not
    first; onto an empty backlog the first dispatch is [b].  A request that
    failed and was put back at the head while [x] waits is tried after
    [x], not before it. *)
Lemma unshift_and_retry_are_not_dispatched_next :
  dispatched_ids
    (qtrace (run [APush [req_x]; AUnshift [req_a; req_b]; AStart;
                  settles; ATimer 0; settles; ATimer 0]
               (boot (new_queue [succeeding]))))
  = [3%nat; 2%nat; 1%nat]
  /\ dispatched_ids
       (qtrace (run [AUnshift [req_a; req_b]; AStart]
                  (boot (new_queue [succeeding]))))
     = [2%nat]
  /\ (let w : Loop Mock :=
        run [APush [req_x; req_404]; AStart; settles]
          (boot (new_queue [failing])) in
      dispatched_ids (qtrace w) = [9%nat]
      /\ failures (_errorUrls (queue w)) (getUrl req_404) = 1
      /\ map _id (_queries (queue w)) = [9%nat; 3%nat]
      /\ dispatched_ids (qtrace (exec (ATimer 0) w)) = [9%nat; 3%nat]).
Proof. repeat split. Qed.

(** With [x] waiting and one free client: a request put back after a
    failure stays at the head while the run hands out [x], and so does [a]
    after [unshift(a, b)]. *)
Lemma head_insertions_are_dispatched_last_witness :
  let w : Loop Mock := exec (APush [req_x]) (boot (new_queue [failing])) in
  let error := Failure (Transport network_error) in
  let w1 := snd (on_error req_404 error w) in
  let w2 := exec (AUnshift [req_a; req_b]) w in
  _queries (queue w1) = [req_404; req_x]
  /\ last_of_run req_404 [req_x] w1
  /\ map _id (_queries (queue (snd (tick w1)))) = [9%nat]
  /\ inflight (snd (tick w1)) = [(0%nat, req_x)]
  /\ _queries (queue w2) = [req_a; req_b; req_x]
  /\ last_of_run req_a [req_b; req_x] w2
  /\ last_of_all req_a [req_b; req_x] w2.
Proof.
  intros w error w1 w2.
  destruct (head_insertions_are_dispatched_last w req_a req_b req_404
              error "Error")
    as (Hretry & Hu & _ & Hrun & Hall).
  destruct Hretry as (_ & Hq & _ & Hrun1 & _); [reflexivity | reflexivity|].
  split; [exact Hq|]. split; [exact Hrun1|]. split; [reflexivity|].
  split; [reflexivity|]. split; [exact Hu|]. split; [exact Hrun | exact Hall].
Defined.

(** A limit of two failures and two requests for one URL: the failure of
    the first leaves one failure to the second, which is aborted when it
    fails. *)
Lemma failure_budget_is_per_url_witness :
  let error := Failure (Transport network_error) in
  let w0 : Loop Mock := boot (constructor [failing] 2 None) in
  let w1 := snd (on_error req_404 error w0) in
  let w2 := snd (on_error req_404' error w1) in
  _id req_404 <> _id req_404'
  /\ getUrl req_404 = getUrl req_404'
  /\ failures (_errorUrls (queue w1)) (getUrl req_404') = 1
  /\ _queries (queue w1) = [req_404]
  /\ _queries (queue w2) = [req_404]
  /\ failures (_errorUrls (queue w2)) (getUrl req_404') = 2.
Proof.
  intros error w0 w1 w2.
  assert (Hid : _id req_404 <> _id req_404') by discriminate.
  destruct (failure_budget_is_per_url w0 req_404 req_404' error
              Hid eq_refl) as (_ & Hshare & _).
  destruct (failure_budget_is_per_url w1 req_404 req_404' error
              Hid eq_refl) as (_ & Habort & _).
  destruct (Hshare "Error" eq_refl) as (Hshare1 & _).
  destruct (Habort "Error" eq_refl) as (Habort1 & _).
  destruct Hshare1 as (Hshare1 & _); [reflexivity|].
  destruct Habort1 as (_ & Habort1); [reflexivity|].
  destruct Habort1 as ((_ & Hq & _) & Hf); [reflexivity|].
  split; [exact Hid|]. split; [reflexivity|]. split; [exact Hshare1|].
  split; [reflexivity|]. split; [exact Hq | exact Hf].
Defined.

(** The fourth scenario of the specification: one failure, then a retry. *)
Example retry_after_one_failure :
  let w : Loop Mock :=
    run [APush [req_404]; AStart; settles] (boot (constructor [failing] 5 None)) in
  _errorCount (queue w) = 1
  /\ getQueueLength (queue w) = 1%nat
  /\ QLog Info (QRetry (getUrl req_404)) ∈ qtrace w.
Proof.
  cbv zeta. split; [reflexivity|]. split; [reflexivity|].
  apply list_elem_of_In. vm_compute. tauto.
Qed.

(** The fifth scenario: with a limit of two failures the request is
    abandoned. *)
Example abandon_after_two_failures :
  let w : Loop Mock :=
    run [APush [req_404]; AStart; settles; ATimer 0; settles; ATimer 0]
      (boot (constructor [failing] 2 None)) in
  failures (_errorUrls (queue w)) (getUrl req_404) = 2
  /\ getRequestFailCount (queue w) = 1
  /\ getQueueLength (queue w) = 0%nat
  /\ QLog Error (QAbort (getUrl req_404)) ∈ qtrace w.
Proof.
  cbv zeta. split; [reflexivity|]. split; [reflexivity|]. split; [reflexivity|].
  apply list_elem_of_In. vm_compute. tauto.
Qed.

(** C8, at a URL that names a property every object inherits.  One
    request for the URL [constructor], one client, the default limit of five
    failures per request: at its first failure [_errorCount] is 1, the entry
    of the URL is the text of a function followed by [1] and no number, so
    that no sum of the entries is the error count; the request is given up
    at once, not retried, and [getRequestFailCount()] is 0 all the same. *)
Theorem inherited_name_url_breaks_the_counters :
  let r := Request.constructor 7 "constructor" PUndefined None in
  let w : Loop Mock :=
    run [APush [r]; AStart; settles] (boot (new_queue [failing])) in
  reachable w
  /\ _maxErrorCountPerRequest (queue w) = 5
  /\ _errorCount (queue w) = 1
  /\ _errorUrls (queue w) = {[ "constructor" := EText 1 ]}
  /\ sum_errors (_errorUrls (queue w)) = 0
  /\ getQueueLength (queue w) = 0%nat
  /\ inflight w = []
  /\ last (qtrace w) = Some (QSetTimeout 0)
  /\ QLog Error (QAbort "constructor") ∈ qtrace w
  /\ getRequestFailCount (queue w) = 0.
Proof.
  cbv zeta. split; [apply reachable_run, reach_new|].
  split; [reflexivity|]. split; [reflexivity|]. split; [reflexivity|].
  split; [reflexivity|]. split; [reflexivity|]. split; [reflexivity|].
  split; [reflexivity|]. split; [|reflexivity].
  apply list_elem_of_In. vm_compute. tauto.
Qed.

(** The first three scenarios: no client, a busy client, a client that is
    not authorized: the request stays in the backlog and the loop waits. *)
Example no_dispatch_without_free_client :
  let busy := {| mock_authorized := true; mock_busy := true;
                 mock_settles := Resolves empty_result; mock_calls := 0 |} in
  let paused := {| mock_authorized := false; mock_busy := false;
                   mock_settles := Resolves empty_result; mock_calls := 0 |} in
  let go (cs : list Mock) :=
    run [APush [req_x]; AStart; ATimer 0; ATimer 0] (boot (new_queue cs)) in
  (getQueueLength (queue (go [])) = 1%nat /\ dispatched (qtrace (go [])) = [])
  /\ (getQueueLength (queue (go [busy])) = 1%nat
      /\ dispatched (qtrace (go [busy])) = [])
  /\ (getQueueLength (queue (go [paused])) = 1%nat
      /\ dispatched (qtrace (go [paused])) = []).
Proof. repeat split. Qed.

(** The third scenario, with the client of the library: the request is
    dispatched once, its callback runs, and the client is free again. *)
Example happy_path :
  let w : Loop Client.World :=
    run [APush [req_x]; AStart; ASettle 0 (Fulfilled (rate_limited_result "10"))]
      (boot (new_queue [github])) in
  dispatched_ids (qtrace w) = [3%nat]
  /\ getQueueLength (queue w) = 0%nat
  /\ _errorCount (queue w) = 0
  /\ map (fun c => (isAuthorized c, isBusy c)) (_clients (queue w)) = [(true, false)]
  /\ pending w = [0].
Proof. vm_compute. repeat split. Qed.

(** While the request is in flight the client is busy and a run of the
    loop dispatches nothing to it. *)
Example busy_client_is_skipped :
  let w : Loop Client.World :=
    run [APush [req_x; req_a]; AStart; ATimer 0] (boot (new_queue [github])) in
  dispatched_ids (qtrace w) = [1%nat]
  /\ getQueueLength (queue w) = 1%nat
  /\ map (fun c => (isAuthorized c, isBusy c)) (_clients (queue w)) = [(true, true)].
Proof. vm_compute. repeat split. Qed.

(** The sixth scenario: a response with no request left pauses the client
    until the reset time, and the loop waits. *)
Example exhausted_client_is_paused :
  let w : Loop Client.World :=
    run [APush [req_x; req_a]; AStart;
         ASettle 0 (Fulfilled (rate_limited_result "0")); ATimer 0]
      (boot (new_queue [github])) in
  dispatched_ids (qtrace w) = [1%nat]
  /\ getQueueLength (queue w) = 1%nat
  /\ map (fun c => (isAuthorized c, isBusy c)) (_clients (queue w)) = [(false, false)]
  /\ map Client.timers (_clients (queue w)) = [[(0%nat, Num 3602000)]]
  /\ pending w = [1000].
Proof. vm_compute. repeat split. Qed.

End QueueFacts.

(** ** More about the client *)

Module ClientExtra.
Import Client ClientNotions ClientFacts.
Local Open Scope list_scope.
#[local] Arguments valid_time : simpl never.
#[local] Arguments timeUntilReset : simpl never.
#[local] Arguments is_rate_limited : simpl never.

(** *** Properties kept by the handlers *)

Lemma bind_ret_eq {A B} (m : M A) (k : A -> M B) w a w1 :
  m w = (Ret a, w1) -> bind m k w = k a w1.
Proof. intros H. unfold bind. rewrite H. reflexivity. Qed.

Lemma bind_throw_eq {A B} (m : M A) (k : A -> M B) w x w1 :
  m w = (Throw x, w1) -> bind m k w = (Throw x, w1).
Proof. intros H. unfold bind. rewrite H. reflexivity. Qed.

Lemma keeps_bind P {A B} (m : M A) (k : A -> M B) :
  keeps P m -> (forall a, keeps P (k a)) -> keeps P (bind m k).
Proof.
  intros Hm Hk w Hw. unfold bind. specialize (Hm w Hw).
  destruct (m w) as [[a|x] w1]; cbn in *; [apply Hk, Hm | exact Hm].
Qed.

Lemma keeps_ret P {A} (a : A) : keeps P (ret a).
Proof. intros w Hw. exact Hw. Qed.

Lemma keeps_throw P {A} x : keeps P (@throw A x).
Proof. intros w Hw. exact Hw. Qed.

Lemma keeps_emit P e : framed P -> keeps P (emit e).
Proof. intros HF w. apply HF; reflexivity. Qed.

Lemma keeps_date_now P : framed P -> keeps P date_now.
Proof. intros HF w. apply HF; reflexivity. Qed.

Lemma keeps_get P : keeps P get.
Proof. intros w Hw. exact Hw. Qed.

Lemma keeps_toISOString P t : keeps P (toISOString t).
Proof.
  intros w Hw. unfold toISOString.
  destruct t; [destruct (valid_time _)|]; exact Hw.
Qed.

Lemma keeps_set_remainingRequests P n :
  framed P -> keeps P (modify (set_remainingRequests n)).
Proof. intros HF w. apply HF; cbn; destruct (self w); reflexivity. Qed.

Lemma keeps_set_resetAt P n : framed P -> keeps P (modify (set_resetAt n)).
Proof. intros HF w. apply HF; cbn; destruct (self w); reflexivity. Qed.

Ltac keeps :=
  repeat first
    [ assumption
    | apply keeps_ret | apply keeps_throw | apply keeps_get
    | apply keeps_toISOString
    | apply keeps_date_now; assumption
    | apply keeps_set_remainingRequests; assumption
    | apply keeps_set_resetAt; assumption
    | match goal with
      | H : forall x, keeps _ (pause x) |- keeps _ (pause _) => apply H
      | H : forall b, keeps _ (modify (set_busy b))
        |- keeps _ (modify (set_busy _)) => apply H
      | |- keeps _ (log _ _) => apply keeps_emit; assumption
      | |- keeps _ (emit _) => apply keeps_emit; assumption
      | |- keeps _ (if ?b then _ else _) => destruct b
      | |- keeps _ (match ?o with Some _ => _ | None => _ end) => destruct o
      end
    | apply keeps_bind; [|intros ?] ].

Lemma keeps_refresh P h :
  framed P -> (forall x, keeps P (pause x)) -> keeps P (_refresh h).
Proof. intros HF HP. unfold _refresh. keeps. Qed.

Lemma keeps_rate_limit_branch P resp :
  framed P -> (forall x, keeps P (pause x)) -> keeps P (rate_limit_branch resp).
Proof. intros HF HP. unfold rate_limit_branch. keeps. Qed.

Lemma keeps_on_fulfilled P url r :
  framed P -> (forall x, keeps P (pause x)) ->
  (forall b, keeps P (modify (set_busy b))) ->
  keeps P (on_fulfilled url r).
Proof. intros HF HP HB. unfold on_fulfilled. keeps. Qed.

Lemma keeps_on_rejected P url e :
  framed P -> (forall x, keeps P (pause x)) ->
  (forall b, keeps P (modify (set_busy b))) ->
  keeps P (on_rejected url e).
Proof. intros HF HP HB. unfold on_rejected. keeps. Qed.

Lemma keeps_request P url params :
  framed P -> (forall b, keeps P (modify (set_busy b))) ->
  keeps P (request url params).
Proof. intros HF HB. unfold request. destruct params; keeps. Qed.

Lemma keeps_settle P url t w :
  framed P -> (forall x, keeps P (pause x)) ->
  (forall b, keeps P (modify (set_busy b))) ->
  P w -> P (snd (settle url t w)).
Proof.
  intros HF HP HB Hw. unfold settle, catch_handler. destruct t as [r|e].
  - pose proof (keeps_on_fulfilled P url r HF HP HB w Hw) as H1.
    destruct (on_fulfilled url r w) as [[v|x] w1]; [exact H1|].
    change (P w1) in H1.
    pose proof (keeps_on_rejected P url (Thrown x) HF HP HB w1 H1) as H2.
    destruct (on_rejected url (Thrown x) w1) as [[v|x'] w2]; exact H2.
  - pose proof (keeps_on_rejected P url (Transport e) HF HP HB w Hw) as H2.
    destruct (on_rejected url (Transport e) w) as [[v|x'] w2]; exact H2.
Qed.

(** *** One timer, and none while authorized *)

Lemma client_inv_framed : framed client_inv.
Proof.
  intros w w' Ha _ Hh Ht Hn [[Hm Hf] Hz]. unfold client_inv, timer_inv.
  rewrite Ha, Hh, Ht, Hn. auto.
Qed.

Lemma client_inv_pause x : keeps client_inv (pause x).
Proof.
  intros w [Hi Hz]. split; [apply pause_preserves_inv, Hi|].
  destruct (leb (delay_at (self w) x (clock w (reads w))) (Num 0)) eqn:Hd.
  - rewrite (pause_resumes _ _ Hd). cbn. intros _. apply cancelled_nil, Hi.
  - destruct (valid_time x) eqn:Hv.
    + destruct (pause_schedules _ _ Hd Hv) as (z & _ & ->). cbn.
      destruct (self w); discriminate.
    + rewrite (pause_throws _ _ Hd Hv). cbn. destruct (self w); discriminate.
Qed.

Lemma client_inv_set_busy b : keeps client_inv (modify (set_busy b)).
Proof.
  intros w [[Hm Hf] Hz]. unfold client_inv, timer_inv. cbn.
  destruct (self w); cbn in *. auto.
Qed.

Lemma client_inv_fire t w : client_inv w -> client_inv (snd (fire t w)).
Proof.
  intros [Hi Hz]. split; [apply fire_preserves_inv, Hi|].
  destruct (_resumeTimer (self w)) as [t'|] eqn:Ht.
  - destruct (timer_inv_handle _ _ Hi Ht) as (d & Hts & _).
    destruct (decide (t = t')) as [->|Hne].
    + rewrite (fire_single _ _ _ Hts). reflexivity.
    + rewrite fire_absent; [exact Hz|]. rewrite Hts. cbn.
      intros Hin. apply list_elem_of_singleton in Hin. contradiction.
  - rewrite fire_absent; [exact Hz|].
    destruct Hi as [Hm _]. rewrite Ht in Hm. cbn in Hm. rewrite Hm.
    apply not_elem_of_nil.
Qed.

Lemma reachable_client_inv w : reachable w -> client_inv w.
Proof.
  induction 1 as [token safety buffer clk | s w _ IH].
  - split; [apply timer_inv_new | reflexivity].
  - destruct s; cbn [step].
    + apply (keeps_request client_inv);
        auto using client_inv_framed, client_inv_set_busy.
    + apply (keeps_settle client_inv);
        auto using client_inv_framed, client_inv_pause, client_inv_set_busy.
    + apply client_inv_pause, IH.
    + apply client_inv_fire, IH.
Qed.

(** X1. Whatever requests, settlements, pauses and timers a client has gone
    through, returning or throwing: at most one resume timer is pending, it
    is the one whose handle the client holds, and a client that is
    authorized has no timer pending and no handle. *)
Theorem one_timer_and_none_while_authorized (w : World) :
  reachable w ->
  (length (timers w) <= 1)%nat
  /\ map fst (timers w) = option_list (_resumeTimer (self w))
  /\ (isAuthorized (self w) = true ->
      timers w = [] /\ _resumeTimer (self w) = None).
Proof.
  intros Hr. destruct (reachable_client_inv w Hr) as [[Hm Hf] Hz].
  split; [|split; [exact Hm|]].
  - rewrite <- (length_map fst), Hm.
    destruct (_resumeTimer (self w)); cbn; lia.
  - intros Ha. specialize (Hz Ha). split; [exact Hz|].
    rewrite Hz in Hm. cbn in Hm.
    destruct (_resumeTimer (self w)); [discriminate | reflexivity].
Qed.

(** Three pauses in a row and a failed request in between leave one timer. *)
Lemma one_timer_and_none_while_authorized_witness :
  let e := {| message := "Too many requests";
              response :=
                Some {| status := Some 429;
                        headers := Some (<["retry-after" := "120"]> ∅);
                        data := "" |} |} in
  let w :=
    step (SPause (Num 90000))
      (step (SSettle None (Failed e))
         (step (SRequest None PUndefined)
            (step (SPause (Num 60000))
               (step (SPause (Num 30000))
                  (boot (constructor "github-token-12345" 5 2000)
                     (fun _ => 10000)))))) in
  reachable w
  /\ map fst (timers w) = [3%nat]
  /\ _resumeTimer (self w) = Some 3%nat.
Proof.
  intros e w.
  assert (Hr : reachable w) by (repeat apply reach_step; apply reach_new).
  destruct (one_timer_and_none_while_authorized w Hr) as (_ & Hm & _).
  split; [exact Hr|]. split; [|reflexivity].
  rewrite Hm. reflexivity.
Defined.

(** *** What a settlement leaves behind *)

(** X2. When the transport fulfils a request, the promise resolves with the
    response if the reset time among its headers, if any, is one [Date] can
    print, and rejects with a [RangeError] if it is not; in both cases the
    client is no longer busy afterwards. *)
Theorem fulfilled_settlement (url : option string) (r : Response) (w : World) :
  fst (settle url (Fulfilled r) w)
  = (if refresh_ok (headers r) then Resolved r
     else Rejected (Thrown RangeError))
  /\ isBusy (self (snd (settle url (Fulfilled r) w))) = false.
Proof.
  destruct (refresh_ok (headers r)) eqn:Hok.
  - apply settle_fulfilled, Hok.
  - pose proof (refresh_throws (headers r) w Hok) as Ht.
    assert (Hf : on_fulfilled url r w
                 = (Throw RangeError, snd (_refresh (headers r) w))).
    { unfold on_fulfilled. unfold bind at 1.
      destruct (_refresh (headers r) w) as [o w1]. cbn in Ht. subst o.
      reflexivity. }
    unfold settle. rewrite Hf. unfold catch_handler.
    destruct (on_rejected_thrown url RangeError (snd (_refresh (headers r) w)))
      as (w2 & -> & Hb & _).
    split; [reflexivity | exact Hb].
Qed.

Lemma busy_framed b : framed (fun w => _busy (self w) = b).
Proof. intros w w' _ Hb _ _ _ H. rewrite Hb. exact H. Qed.

Lemma busy_pause b x : keeps (fun w => _busy (self w) = b) (pause x).
Proof.
  intros w Hb.
  destruct (pause_effect x w)
    as (o & w' & evs & -> & _ & _ & _ & _ & Hbusy & _).
  cbn. rewrite Hbusy. exact Hb.
Qed.

Lemma failed_settlement_eq url e w :
  (exists w', settle url (Failed e) w = (Rejected (Transport e), w')
              /\ _busy (self w') = false)
  \/ (exists x w', settle url (Failed e) w = (Rejected (Thrown x), w')
                   /\ _busy (self w') = _busy (self w)).
Proof.
  unfold settle, catch_handler. rewrite on_rejected_eq.
  cbn [error_response].
  pose proof (keeps_refresh (fun w' => _busy (self w') = _busy (self w))
                (response e ≫= headers) (busy_framed _) (busy_pause _)
                w eq_refl) as H1.
  destruct (_refresh (response e ≫= headers) w) as [[[]|x] w1] eqn:Hr;
    cbn [snd] in H1.
  2:{ right. exists x, w1. rewrite (bind_throw_eq _ _ _ _ _ Hr).
      split; [reflexivity | exact H1]. }
  rewrite (bind_ret_eq _ _ _ _ _ Hr).
  pose proof (keeps_rate_limit_branch
                (fun w' => _busy (self w') = _busy (self w))
                (response e) (busy_framed _) (busy_pause _) w1 H1) as H2.
  destruct (rate_limit_branch (response e) w1) as [[[]|x] w2] eqn:Hb;
    cbn [snd] in H2.
  2:{ right. exists x, w2. rewrite (bind_throw_eq _ _ _ _ _ Hb).
      split; [reflexivity | exact H2]. }
  rewrite (bind_ret_eq _ _ _ _ _ Hb).
  left. rewrite finish_rejected_eq. eexists. split; [reflexivity|].
  cbn. destruct (self w2); reflexivity.
Qed.

(** X3. When the transport fails a request, the promise rejects: either
    with the error of the transport, and then the client is no longer busy,
    or with an exception thrown while the failure was handled, and then the
    busy flag is what it was, so that a client that was busy stays busy. *)
Theorem failed_settlement (url : option string) (e : AxiosError) (w : World) :
  (fst (settle url (Failed e) w) = Rejected (Transport e)
   /\ isBusy (self (snd (settle url (Failed e) w))) = false)
  \/ (exists x, fst (settle url (Failed e) w) = Rejected (Thrown x)
      /\ isBusy (self (snd (settle url (Failed e) w))) = isBusy (self w)).
Proof.
  destruct (failed_settlement_eq url e w)
    as [(w' & -> & Hb) | (x & w' & -> & Hb)].
  - left. split; [reflexivity | exact Hb].
  - right. exists x. split; [reflexivity | exact Hb].
Qed.

(** *** A response that exhausts the rate limit *)

Lemma timer_inv_refreshed (h : option Headers) w :
  timer_inv w ->
  timer_inv
    {| self := set_resetAt (refreshed_resetAt h)
                 (set_remainingRequests (refreshed_remaining h) (self w));
       timers := timers w; next_timer := next_timer w;
       clock := clock w; reads := reads w;
       trace := trace w ++ [EvRefresh h] |}.
Proof. unfold timer_inv. cbn. destruct (self w); auto. Qed.

(** X4. A response arrives whose rate-limit headers leave no more requests
    than the safety margin, with a reset time that [Date] can print and that,
    with the buffer, lies ahead of the clock.  Then the promise resolves with
    the response, the client is free but no longer authorized, and the one
    pending timer is set to the reset time plus the buffer; when it fires
    the client is authorized again and still free. *)
Theorem exhausted_response_pauses_until_reset
    (url : option string) (r : Response) (w : World) (z : Z) :
  timer_inv w ->
  rate_limit_headers (headers r) = true ->
  refreshed_resetAt (headers r) = Num z ->
  valid_time (Num z) = true ->
  leb (sub (refreshed_remaining (headers r))
           (Num (_safetyRemainingRequestCount (self w)))) (Num 0) = true ->
  0 < z - clock w (reads w) + _tokenResumeBufferTime (self w) ->
  exists w1 t,
    settle url (Fulfilled r) w = (Resolved r, w1)
    /\ isBusy (self w1) = false
    /\ isAuthorized (self w1) = false
    /\ _resumeTimer (self w1) = Some t
    /\ timers w1
       = [(t, Num (z - clock w (reads w) + _tokenResumeBufferTime (self w)))]
    /\ isAuthorized (self (snd (fire t w1))) = true
    /\ isBusy (self (snd (fire t w1))) = false
    /\ timers (snd (fire t w1)) = [].
Proof.
  intros Hi Hh Hz Hv Hc Hd.
  unfold settle, on_fulfilled. unfold bind at 1.
  rewrite (refresh_present (headers r) w Hh), Hc, Hz.
  set (w0 := {| self := _; timers := timers w |}).
  assert (Hi0 : timer_inv w0).
  { subst w0. rewrite <- Hz. apply timer_inv_refreshed, Hi. }
  assert (Hd0 : leb (delay_at (self w0) (Num z) (clock w0 (reads w0))) (Num 0)
                = false).
  { subst w0. cbn. destruct (self w); cbn in *. apply Z.leb_gt. lia. }
  destruct (pause_schedules (Num z) w0 Hd0 Hv) as (z' & Hz' & Hp).
  injection Hz' as <-.
  rewrite (cancelled_nil _ Hi0) in Hp. cbn [app] in Hp.
  assert (Hdl : delay_at (self w0) (Num z) (clock w0 (reads w0))
                = Num (z - clock w (reads w) + _tokenResumeBufferTime (self w))).
  { subst w0. cbn. destruct (self w); reflexivity. }
  rewrite Hdl in Hp.
  assert (Hrs : _resetAt (self w0) = Num z)
    by (subst w0; cbn; destruct (self w); reflexivity).
  clearbody w0.
  rewrite (bind_ret_eq _ _ _ _ _ Hp).
  unfold bind at 1. unfold get. cbn [self].
  assert (Hrs' : _resetAt (set_resumeTimer (Some (next_timer w0))
                             (set_authorized false (self w0))) = Num z)
    by (destruct (self w0); exact Hrs).
  rewrite Hrs'. unfold bind at 1. unfold toISOString.
  rewrite Hv. mrun. eexists _, (next_timer w0). split; [reflexivity|].
  unfold fire. cbn. rewrite Nat.eqb_refl. destruct (self w0); cbn. auto 10.
Qed.

(** A response with four requests left, against a margin of five, thirty
    seconds before the reset. *)
Lemma exhausted_response_pauses_until_reset_witness :
  let w := boot (new_client "github-token-12345") (fun _ => 1699999970000) in
  let h : Headers :=
    <["x-ratelimit-remaining" := "4"]>
      (<["x-ratelimit-reset" := "1700000000"]> ∅) in
  let r := {| status := Some 200; headers := Some h; data := "{}" |} in
  exists w1 t,
    settle None (Fulfilled r) w = (Resolved r, w1)
    /\ isBusy (self w1) = false
    /\ isAuthorized (self w1) = false
    /\ _resumeTimer (self w1) = Some t
    /\ timers w1 = [(t, Num 32000)]
    /\ isAuthorized (self (snd (fire t w1))) = true
    /\ isBusy (self (snd (fire t w1))) = false
    /\ timers (snd (fire t w1)) = [].
Proof.
  intros w h r.
  assert (Hh : rate_limit_headers (headers r) = true) by reflexivity.
  assert (Hz : refreshed_resetAt (headers r) = Num 1700000000000)
    by reflexivity.
  apply (exhausted_response_pauses_until_reset None r w 1700000000000
           (timer_inv_new _ _ _ _) Hh Hz);
    [reflexivity | reflexivity | reflexivity].
Defined.

(** *** [getToken] and the call of the transport *)

Lemma substring_all (s : string) : substring 0 (String.length s) s = s.
Proof. induction s as [|a s IH]; [reflexivity|]. cbn. rewrite IH. reflexivity. Qed.

Lemma substring_suffix (s : string) (n : nat) :
  (n <= String.length s)%nat ->
  s = String.append (substring 0 n s) (substring n (String.length s - n) s)
  /\ String.length (substring n (String.length s - n) s)
     = (String.length s - n)%nat.
Proof.
  revert n. induction s as [|a s IH]; intros n Hn.
  - destruct n; [split; reflexivity | cbn in Hn; lia].
  - destruct n as [|n].
    + rewrite Nat.sub_0_r, substring_all. split; reflexivity.
    + cbn in Hn. destruct (IH n ltac:(lia)) as [H1 H2].
      cbn [substring String.length Nat.sub String.append].
      split; [|exact H2].
      change (String a s
              = String a (String.append (substring 0 n s)
                            (substring n (String.length s - n) s))).
      f_equal. exact H1.
Qed.

(** X5. [getToken] gives the end of the token: its last five characters,
    and the whole token when that is shorter. *)
Theorem getToken_is_the_end_of_the_token (c : GitHubApiClient) :
  (exists start, _token c = String.append start (getToken c))
  /\ String.length (getToken c) = Nat.min 5 (String.length (_token c)).
Proof.
  unfold getToken. set (n := String.length (_token c)).
  destruct (substring_suffix (_token c) (n - 5) ltac:(lia)) as [H1 H2].
  fold n in H1, H2. split.
  - eexists. exact H1.
  - rewrite H2. lia.
Qed.

(** X6. What the transport is called with.  Leaving [params] out is passing
    an empty object.  For [params] an object: the method of [params], or GET
    when that is missing or empty; every header of [params], and beside them
    the token as [Authorization] and the media type as [Accept] unless
    [params] has a header of that name; no other header; the body of
    [params], or none when that is empty. *)
Theorem request_calls_the_transport_with
    (url : option string) (o : ParamsObj) (w : World) :
  request url PUndefined w = request url (PObj empty_params) w
  /\ exists cfg,
    trace (snd (request url (PObj o) w)) = trace w ++ [EvAxios cfg]
    /\ cfg_url cfg = url
    /\ cfg_method cfg
       = match p_method o with
         | Some m => if String.eqb m "" then "GET"%string else m
         | None => "GET"%string
         end
    /\ (forall k v, p_headers o !! k = Some v -> cfg_headers cfg !! k = Some v)
    /\ (p_headers o !! "Authorization"%string = None ->
        cfg_headers cfg !! "Authorization"%string
        = Some (String.append "Bearer " (_token (self w))))
    /\ (p_headers o !! "Accept"%string = None ->
        cfg_headers cfg !! "Accept"%string
        = Some "application/vnd.github.v3+json"%string)
    /\ dom (cfg_headers cfg)
       = dom (p_headers o) ∪ {["Authorization"%string; "Accept"%string]}
    /\ cfg_data cfg
       = match p_body o with
         | Some b => if String.eqb b "" then None else Some b
         | None => None
         end.
Proof.
  split; [reflexivity|].
  eexists. split.
  { unfold request. mrun. reflexivity. }
  cbn [cfg_url cfg_method cfg_headers cfg_data axios_config].
  split; [reflexivity|]. split.
  { destruct (p_method o) as [m|]; [|reflexivity]. cbn.
    destruct (String.eqb m ""); reflexivity. }
  assert (Hs : self {| self := set_busy true (self w); timers := timers w;
                       next_timer := next_timer w; clock := clock w;
                       reads := reads w; trace := trace w |}
               = set_busy true (self w)) by reflexivity.
  unfold request_headers. split.
  { intros k v Hk. apply lookup_union_Some_l, Hk. }
  split.
  { intros Hk. rewrite lookup_union_r by exact Hk.
    rewrite lookup_insert_eq. destruct (self w); reflexivity. }
  split.
  { intros Hk. rewrite lookup_union_r by exact Hk.
    rewrite lookup_insert_ne by discriminate.
    apply lookup_insert_eq. }
  split.
  { rewrite dom_union_L, !dom_insert_L, dom_empty_L. set_solver. }
  destruct (p_body o) as [b|]; [|reflexivity]. cbn.
  destruct (String.eqb b ""); reflexivity.
Qed.

(** *** The earlier [pause] *)

(** X7. The earlier [pause], for a reset time [Date] can print: the client
    is unauthorized on return whatever the delay, no pending timer is
    cancelled, and one more timer is pending, set to the reset time minus
    the clock plus the buffer even when that is not positive.  Where the
    later [pause] finds no timer to cancel and a positive delay, the two
    leave the same timers and the same authorization; where the delay is not
    positive, the later one returns with the client authorized. *)
Theorem legacy_pause_keeps_every_timer (x : JsNum) (w : World) :
  valid_time x = true ->
  let d := delay_at (self w) x (clock w (reads w)) in
  fst (Legacy.pause x w) = Ret tt
  /\ isAuthorized (self (snd (Legacy.pause x w))) = false
  /\ timers (snd (Legacy.pause x w)) = timers w ++ [(next_timer w, d)]
  /\ (leb d (Num 0) = false -> _resumeTimer (self w) = None ->
      timers (snd (pause x w)) = timers (snd (Legacy.pause x w))
      /\ isAuthorized (self (snd (pause x w)))
         = isAuthorized (self (snd (Legacy.pause x w))))
  /\ (leb d (Num 0) = true ->
      isAuthorized (self (snd (pause x w))) = true).
Proof.
  intros Hv d.
  assert (Hl : Legacy.pause x w
               = (Ret tt,
                  {| self := set_authorized false (self w);
                     timers := timers w ++ [(next_timer w, d)];
                     next_timer := S (next_timer w); clock := clock w;
                     reads := S (reads w);
                     trace := trace (snd (Legacy.pause x w)) |})).
  { unfold Legacy.pause. mrun. unfold toISOString.
    destruct x as [z|]; [|discriminate]. rewrite Hv. mrun.
    subst d. unfold delay_at. destruct (self w); reflexivity. }
  rewrite Hl. cbn [fst snd self timers].
  split; [reflexivity|]. split; [destruct (self w); reflexivity|].
  split; [reflexivity|]. split.
  - intros Hd Hn. destruct (pause_schedules x w Hd Hv) as (z & _ & ->).
    cbn [snd timers self]. unfold cancelled. rewrite Hn.
    split; [reflexivity | destruct (self w); reflexivity].
  - intros Hd. rewrite (pause_resumes x w Hd). cbn.
    destruct (self w); reflexivity.
Qed.

(** A reset time five seconds behind the clock, with a buffer of two. *)
Lemma legacy_pause_keeps_every_timer_witness :
  let w := boot (new_client "github-token-12345") (fun _ => 10000) in
  isAuthorized (self (snd (Legacy.pause (Num 5000) w))) = false
  /\ timers (snd (Legacy.pause (Num 5000) w)) = [(0%nat, Num (-3000))]
  /\ isAuthorized (self (snd (pause (Num 5000) w))) = true.
Proof.
  intros w.
  destruct (legacy_pause_keeps_every_timer (Num 5000) w eq_refl)
    as (_ & Ha & Ht & _ & Hp).
  split; [exact Ha|]. split; [exact Ht|]. apply Hp. reflexivity.
Defined.

(** *** A client that is not authorized waits for its timer *)

Lemma keeps_on_return_bind P {A B} (m : M A) (k : A -> M B) :
  keeps_on_return P m -> (forall a, keeps_on_return P (k a)) ->
  keeps_on_return P (bind m k).
Proof.
  intros Hm Hk w b w' Hw. unfold bind.
  destruct (m w) as [[a|x] w1] eqn:Hmw; [|discriminate].
  apply (Hk a w1). apply (Hm w a w1 Hw Hmw).
Qed.

Lemma keeps_on_return_of_keeps P {A} (m : M A) :
  keeps P m -> keeps_on_return P m.
Proof. intros Hm w a w' Hw Heq. specialize (Hm w Hw). rewrite Heq in Hm. exact Hm. Qed.

Ltac keeps_on_return :=
  repeat first
    [ match goal with
      | H : forall x, keeps_on_return _ (pause x)
        |- keeps_on_return _ (pause _) => apply H
      | |- keeps_on_return _ (if ?b then _ else _) => destruct b
      | |- keeps_on_return _ (match ?o with Some _ => _ | None => _ end) =>
          destruct o
      end
    | apply keeps_on_return_of_keeps; solve [keeps]
    | apply keeps_on_return_bind; [|intros ?] ].

Lemma keeps_on_return_refresh P h :
  framed P -> (forall x, keeps_on_return P (pause x)) ->
  keeps_on_return P (_refresh h).
Proof. intros HF HP. unfold _refresh. keeps_on_return. Qed.

Lemma keeps_on_return_rate_limit_branch P resp :
  framed P -> (forall x, keeps_on_return P (pause x)) ->
  keeps_on_return P (rate_limit_branch resp).
Proof. intros HF HP. unfold rate_limit_branch. keeps_on_return. Qed.

Lemma keeps_on_return_on_fulfilled P url r :
  framed P -> (forall x, keeps_on_return P (pause x)) ->
  (forall b, keeps P (modify (set_busy b))) ->
  keeps_on_return P (on_fulfilled url r).
Proof. intros HF HP HB. unfold on_fulfilled. keeps_on_return. Qed.

Lemma keeps_on_return_on_rejected P url e :
  framed P -> (forall x, keeps_on_return P (pause x)) ->
  (forall b, keeps P (modify (set_busy b))) ->
  keeps_on_return P (on_rejected url e).
Proof. intros HF HP HB. unfold on_rejected. keeps_on_return. Qed.

Lemma keeps_on_return_settle P url t w :
  framed P -> (forall x, keeps_on_return P (pause x)) ->
  (forall b, keeps P (modify (set_busy b))) ->
  (forall x, fst (settle url t w) <> Rejected (Thrown x)) ->
  P w -> P (snd (settle url t w)).
Proof.
  intros HF HP HB Hr Hw. revert Hr. unfold settle, catch_handler.
  destruct t as [r|e].
  - pose proof (keeps_on_return_on_fulfilled P url r HF HP HB w) as H1.
    destruct (on_fulfilled url r w) as [[v|x] w1].
    + intros _. apply (H1 v w1 Hw eq_refl).
    + destruct (on_rejected_thrown url x w1) as (w2 & -> & _).
      intros Hr. exfalso. apply (Hr x). reflexivity.
  - pose proof (keeps_on_return_on_rejected P url (Transport e) HF HP HB w)
      as H2.
    destruct (on_rejected url (Transport e) w) as [[v|x] w2].
    + intros _. apply (H2 v w2 Hw eq_refl).
    + intros Hr. exfalso. apply (Hr x). reflexivity.
Qed.

Lemma waits_framed : framed waits.
Proof.
  intros w w' Ha _ Hh Ht Hn [[Hm Hf] Hz]. unfold waits, timer_inv.
  rewrite Ha, Hh, Ht, Hn. auto.
Qed.

Lemma waits_set_busy b : keeps waits (modify (set_busy b)).
Proof.
  intros w [[Hm Hf] Hz]. unfold waits, timer_inv. cbn.
  destruct (self w); cbn in *. auto.
Qed.

Lemma waits_pause x : keeps_on_return waits (pause x).
Proof.
  intros w a w' [Hi Hz] Hp.
  assert (Hw' : w' = snd (pause x w)) by (rewrite Hp; reflexivity).
  split; [rewrite Hw'; apply pause_preserves_inv, Hi|].
  destruct (leb (delay_at (self w) x (clock w (reads w))) (Num 0)) eqn:Hd.
  - rewrite (pause_resumes _ _ Hd) in Hp. injection Hp as _ <-. cbn.
    destruct (self w); discriminate.
  - destruct (valid_time x) eqn:Hv.
    + destruct (pause_schedules _ _ Hd Hv) as (z & _ & Hs).
      rewrite Hs in Hp. injection Hp as _ <-. cbn. intros _ Hnil.
      apply app_eq_nil in Hnil as [_ Hnil]. discriminate.
    + rewrite (pause_throws _ _ Hd Hv) in Hp. discriminate.
Qed.

Lemma waits_fire t w : waits w -> waits (snd (fire t w)).
Proof.
  intros [Hi Hz]. split; [apply fire_preserves_inv, Hi|].
  destruct (_resumeTimer (self w)) as [t'|] eqn:Ht.
  - destruct (timer_inv_handle _ _ Hi Ht) as (d & Hts & _).
    destruct (decide (t = t')) as [->|Hne].
    + rewrite (fire_single _ _ _ Hts). cbn. destruct (self w); discriminate.
    + rewrite fire_absent; [exact Hz|]. rewrite Hts. cbn.
      intros Hin. apply list_elem_of_singleton in Hin. contradiction.
  - rewrite fire_absent; [exact Hz|].
    destruct Hi as [Hm _]. rewrite Ht in Hm. cbn in Hm. rewrite Hm.
    apply not_elem_of_nil.
Qed.

Lemma step_waits s w : returns s w -> waits w -> waits (step s w).
Proof.
  intros Hr Hw. destruct s; cbn [step returns] in *.
  - apply (keeps_request waits); auto using waits_framed, waits_set_busy.
  - apply (keeps_on_return_settle waits);
      auto using waits_framed, waits_pause, waits_set_busy.
  - destruct (pause resetAt w) as [o w'] eqn:Hp. cbn in Hr. subst o.
    apply (waits_pause resetAt w tt w' Hw Hp).
  - apply waits_fire, Hw.
Qed.

(** X17. A client that is not authorized waits for its timer, unless an
    exception has got in the way.  Take a new client through any requests,
    settlements, pauses and timers in which every [pause] returns and no
    promise rejects with an exception of its handlers.  If the client is not
    authorized then, its resume timer is pending, it is the one of the
    handle, and the client is authorized again once it fires. *)
Theorem unauthorized_client_waits_for_its_timer
    (token : string) (safety buffer : Z) (clk : nat -> Z) (ss : list Step) :
  all_return ss (boot (constructor token safety buffer) clk) ->
  let w := steps ss (boot (constructor token safety buffer) clk) in
  isAuthorized (self w) = false ->
  exists t d,
    timers w = [(t, d)]
    /\ _resumeTimer (self w) = Some t
    /\ isAuthorized (self (snd (fire t w))) = true.
Proof.
  intros Hss.
  assert (Hw : waits (steps ss (boot (constructor token safety buffer) clk))).
  { assert (H0 : waits (boot (constructor token safety buffer) clk)).
    { split; [apply timer_inv_new | discriminate]. }
    revert H0 Hss. generalize (boot (constructor token safety buffer) clk).
    induction ss as [|s ss IH]; intros w Hw Hss; [exact Hw|].
    destruct Hss as [Hs Hss]. apply (IH (step s w)); [|exact Hss].
    apply step_waits; assumption. }
  cbv zeta. intros Ha. destruct Hw as [Hi Hz]. specialize (Hz Ha).
  destruct (_resumeTimer (self (steps ss _))) as [t|] eqn:Ht.
  - destruct (timer_inv_handle _ _ Hi Ht) as (d & Hts & _).
    exists t, d. split; [exact Hts|]. split; [reflexivity|].
    rewrite (fire_single _ _ _ Hts). cbn.
    destruct (self (steps ss _)); reflexivity.
  - exfalso. apply Hz. destruct Hi as [Hm _]. rewrite Ht in Hm. cbn in Hm.
    destruct (timers (steps ss _)); [reflexivity | discriminate].
Qed.

(** A pause, a request and its failure with [Retry-After]. *)
Lemma unauthorized_client_waits_for_its_timer_witness :
  let e := {| message := "Too many requests";
              response :=
                Some {| status := Some 429;
                        headers := Some (<["retry-after" := "120"]> ∅);
                        data := "" |} |} in
  let w :=
    steps [SPause (Num 30000); SRequest None PUndefined;
           SSettle None (Failed e)]
      (boot (constructor "github-token-12345" 5 2000) (fun _ => 10000)) in
  exists t d,
    timers w = [(t, d)]
    /\ _resumeTimer (self w) = Some t
    /\ isAuthorized (self (snd (fire t w))) = true.
Proof.
  intros e.
  apply (unauthorized_client_waits_for_its_timer "github-token-12345" 5 2000
           (fun _ => 10000)
           [SPause (Num 30000); SRequest None PUndefined;
            SSettle None (Failed e)]).
  - split; [reflexivity|]. split; [exact I|]. split; [|exact I].
    intros x. vm_compute. discriminate.
  - reflexivity.
Defined.

End ClientExtra.

(** ** More about the queue *)

Module QueueExtra.
Import Queue QueueNotions QueueFacts.
Local Open Scope list_scope.

Section WithClient.

Context {C : Type} `{ApiClient C}.

Implicit Types (w : Loop C) (q : GitHubApiQueue C) (r : GitHubApiRequest).

Lemma callbacks_app (l1 l2 : list QEvent) :
  callbacks (l1 ++ l2) = callbacks l1 ++ callbacks l2.
Proof. apply omap_app. Qed.

(** *** Before [start] *)

Lemma exec_idle act w :
  is_start act = false -> pending w = [] -> inflight w = [] ->
  pending (exec act w) = [] /\ inflight (exec act w) = []
  /\ dispatched (qtrace (exec act w)) = dispatched (qtrace w)
  /\ callbacks (qtrace (exec act w)) = callbacks (qtrace w)
  /\ getQueueLength (queue (exec act w))
     = (getQueueLength (queue w) + enqueued [act])%nat.
Proof.
  intros Hs Hp Hi. unfold getQueueLength.
  destruct act as [rs|rs| | |k|k t|i c]; cbn; try discriminate.
  - rewrite length_app. repeat split; auto; lia.
  - rewrite length_app. repeat split; auto; lia.
  - rewrite dispatched_app, callbacks_app. cbn.
    rewrite !(right_id_L [] (++)). repeat split; auto.
  - rewrite Hp. cbn. repeat split; auto.
  - rewrite Hi. cbn. repeat split; auto.
  - repeat split; auto.
Qed.

(** X8. Until [start] is called the queue only stores: whatever else is
    done with a new queue, no timer is pending, nothing has been handed to a
    client, no callback has run, and the backlog holds every request that
    [push] and [unshift] brought. *)
Theorem nothing_happens_before_start
    (clients : list C) (maxPer : Z) (maxTotal : option Z)
    (acts : list (Action C)) :
  forallb (fun a => negb (is_start a)) acts = true ->
  let w := run acts (boot (constructor clients maxPer maxTotal)) in
  pending w = [] /\ inflight w = []
  /\ dispatched (qtrace w) = [] /\ callbacks (qtrace w) = []
  /\ getQueueLength (queue w) = enqueued acts.
Proof.
  intros Hacts.
  induction acts as [|act acts IH] using rev_ind.
  - cbn. repeat split; reflexivity.
  - rewrite forallb_app in Hacts. apply andb_true_iff in Hacts as [Ha1 Ha2].
    cbn in Ha2. rewrite andb_true_r in Ha2. apply negb_true_iff in Ha2.
    destruct (IH Ha1) as (Hp & Hi & Hd & Hc & Hl). clear IH.
    cbv zeta. rewrite run_snoc.
    destruct (exec_idle act _ Ha2 Hp Hi) as (Hp' & Hi' & Hd' & Hc' & Hl').
    rewrite Hd', Hc', Hl', Hl. repeat split; auto.
    unfold enqueued. rewrite foldr_app. cbn [foldr].
    clear. induction acts as [|a acts IH]; cbn [foldr].
    + destruct act; lia.
    + destruct a; rewrite <- ?IH; lia.
Qed.

(** *** After [stop] *)

(** What the handlers of a settled dispatch leave alone. *)
Lemma completion_frame r s w :
  inflight (completion r s w) = inflight w
  /\ pending (completion r s w) = pending w ++ [0]
  /\ _clients (queue (completion r s w)) = _clients (queue w)
  /\ _isStopped (queue (completion r s w)) = _isStopped (queue w)
  /\ _maxErrorCountPerRequest (queue (completion r s w))
     = _maxErrorCountPerRequest (queue w)
  /\ _maxErrorCountInTotal (queue (completion r s w))
     = _maxErrorCountInTotal (queue w)
  /\ dispatched (qtrace (completion r s w)) = dispatched (qtrace w).
Proof.
  assert (Hfin : forall (p : option Exn * Loop C) w0,
             inflight (snd p) = inflight w0 /\ pending (snd p) = pending w0
             /\ _clients (queue (snd p)) = _clients (queue w0)
             /\ _isStopped (queue (snd p)) = _isStopped (queue w0)
             /\ _maxErrorCountPerRequest (queue (snd p))
                = _maxErrorCountPerRequest (queue w0)
             /\ _maxErrorCountInTotal (queue (snd p))
                = _maxErrorCountInTotal (queue w0)
             /\ dispatched (qtrace (snd p)) = dispatched (qtrace w0) ->
             let w' := uncaught (fst p, setTimeout 0 (snd p)) in
             inflight w' = inflight w0 /\ pending w' = pending w0 ++ [0]
             /\ _clients (queue w') = _clients (queue w0)
             /\ _isStopped (queue w') = _isStopped (queue w0)
             /\ _maxErrorCountPerRequest (queue w')
                = _maxErrorCountPerRequest (queue w0)
             /\ _maxErrorCountInTotal (queue w')
                = _maxErrorCountInTotal (queue w0)
             /\ dispatched (qtrace w') = dispatched (qtrace w0)).
  { intros [o w1] w0 (Hi & Hp & Hc & Hs & Hm & Ht & Hd). cbn [fst snd] in *.
    destruct (uncaught_frame (o, setTimeout 0 w1)) as (-> & -> & -> & ->).
    cbn. rewrite dispatched_app. cbn. rewrite (right_id_L [] (++)).
    rewrite Hi, Hp, Hc, Hs, Hm, Ht, Hd. auto 10. }
  assert (Herr : forall error w1,
             let w' := snd (on_error r error w1) in
             inflight w' = inflight w1 /\ pending w' = pending w1
             /\ _clients (queue w') = _clients (queue w1)
             /\ _isStopped (queue w') = _isStopped (queue w1)
             /\ _maxErrorCountPerRequest (queue w')
                = _maxErrorCountPerRequest (queue w1)
             /\ _maxErrorCountInTotal (queue w')
                = _maxErrorCountInTotal (queue w1)
             /\ dispatched (qtrace w') = dispatched (qtrace w1)).
  { intros error w1.
    destruct (on_error_frame r error w1)
      as (Hi & Hp & Hc & Hs & Hm & Ht & Hd & _). auto 10. }
  unfold completion. destruct s as [res|error].
  - unfold on_result. destruct (runCallback r res) as [v|reason].
    + apply (Hfin (None, emit (QCallback r res) w) w). cbn.
      rewrite dispatched_app. cbn. rewrite (right_id_L [] (++)). auto 10.
    + pose proof (Herr reason (emit (QCallback r res) w)) as He.
      destruct (on_error r reason (emit (QCallback r res) w)) as [o w1].
      apply (Hfin (o, w1) w). cbn [snd] in *. cbn in He.
      rewrite dispatched_app in He. cbn in He.
      rewrite (right_id_L [] (++)) in He. exact He.
  - pose proof (Herr error w) as He.
    destruct (on_error r error w) as [o w1].
    apply (Hfin (o, w1) w). exact He.
Qed.

Lemma tick_stopped w : _isStopped (queue w) = true -> tick w = (None, w).
Proof. intros Hs. unfold tick. rewrite Hs. reflexivity. Qed.

Lemma exec_stopped act w :
  _isStopped (queue w) = true ->
  _isStopped (queue (exec act w)) = true
  /\ dispatched (qtrace (exec act w)) = dispatched (qtrace w)
  /\ (length (inflight (exec act w)) <= length (inflight w))%nat.
Proof.
  intros Hs. destruct act as [rs|rs| | |k|k t|i c]; cbn [exec].
  - cbn. auto.
  - cbn. auto.
  - unfold start, _process. rewrite tick_stopped by exact Hs. cbn.
    rewrite dispatched_app. cbn. rewrite (right_id_L [] (++)). auto.
  - cbn. rewrite dispatched_app. cbn. rewrite (right_id_L [] (++)). auto.
  - destruct (pending w !! k); [|auto].
    rewrite tick_stopped by exact Hs. cbn. auto.
  - destruct (inflight w !! k) as [[i r]|] eqn:Hk; [|auto]. cbn [queue].
    assert (Hlen : (length (delete k (inflight w)) <= length (inflight w))%nat).
    { rewrite length_delete by (rewrite Hk; eauto). lia. }
    destruct (_clients (queue w) !! i) as [c|]; [|cbn; auto].
    destruct (settle (getUrl r) t c) as [s c'].
    match goal with |- context [completion r s ?w1] =>
      destruct (completion_frame r s w1)
        as (Hi & _ & _ & Hst & _ & _ & Hd) end.
    rewrite Hi, Hst, Hd. cbn. auto.
  - cbn. auto.
Qed.

Lemma stopped_run (acts : list (Action C)) w :
  _isStopped (queue w) = true ->
  _isStopped (queue (run acts w)) = true
  /\ dispatched (qtrace (run acts w)) = dispatched (qtrace w)
  /\ (length (inflight (run acts w)) <= length (inflight w))%nat.
Proof.
  revert w. induction acts as [|act acts IH]; intros w Hs; [auto|].
  rewrite run_cons.
  destruct (exec_stopped act w Hs) as (Hs' & Hd & Hl).
  destruct (IH _ Hs') as (Hs'' & Hd' & Hl').
  split; [exact Hs''|]. split; [congruence | lia].
Qed.

(** X9. [stop] is final.  Nothing clears the stop flag, and whatever happens
    after [stop], a [start] or a timer of the loop included, no request is
    handed to a client any more; the dispatches in flight can only settle. *)
Theorem stop_is_final (acts : list (Action C)) w :
  let w' := run acts (exec AStop w) in
  _isStopped (queue w') = true
  /\ dispatched (qtrace w') = dispatched (qtrace w)
  /\ (length (inflight w') <= length (inflight w))%nat.
Proof.
  destruct (stopped_run acts (exec AStop w) eq_refl) as (Hs & Hd & Hl).
  cbv zeta. split; [exact Hs|]. split; [|exact Hl].
  rewrite Hd. cbn. rewrite dispatched_app. cbn. apply (right_id_L [] (++)).
Qed.

(** *** What one run of the loop hands out *)

Lemma NoDup_fst_zip {A B} (l1 : list A) (l2 : list B) :
  NoDup l1 -> NoDup (map fst (zip l1 l2)).
Proof.
  revert l2. induction l1 as [|x l1 IH]; intros [|y l2] Hnd; cbn;
    try constructor.
  - apply NoDup_cons in Hnd as [Hx _]. intros Hin. apply Hx.
    apply list_elem_of_In, in_map_iff in Hin as ([a b] & <- & Hin).
    apply list_elem_of_In, elem_of_zip_l in Hin. exact Hin.
  - apply IH. apply NoDup_cons in Hnd as [_ Hnd]. exact Hnd.
Qed.

(** The [for] loop, when no [request] throws: client after client gets the
    request at the end of the backlog. *)
Lemma dispatch_hands_out (avail : list (nat * C)) w w' :
  dispatch avail w = (None, w') ->
  let qs := _queries (queue w) in
  let new := zip (map fst avail) (rev qs) in
  inflight w' = inflight w ++ new
  /\ dispatched (qtrace w') = dispatched (qtrace w) ++ new
  /\ _queries (queue w') = take (length qs - length avail) qs
  /\ qs = _queries (queue w') ++ rev (map snd new)
  /\ pending w' = pending w.
Proof.
  revert w. induction avail as [|[i c] rest IH]; intros w; cbn [dispatch].
  - intros [= <-]. cbn. rewrite Nat.sub_0_r, firstn_all, !(right_id_L [] (++)).
    auto.
  - destruct (pop (_queries (queue w))) as [[x qs']|] eqn:Hpop.
    2:{ intros [= <-]. apply pop_None in Hpop. rewrite Hpop. cbn.
        rewrite !(right_id_L [] (++)). auto. }
    apply pop_Some in Hpop.
    destruct (request (getUrl x) (getParams x) c) as [[exn|] c'];
      [discriminate|].
    intros Hd. apply IH in Hd. cbn in Hd.
    destruct Hd as (Hi & Hd & Hq & Hc & Hp).
    rewrite Hpop. cbv zeta. rewrite rev_unit. cbn [map fst zip zip_with snd].
    rewrite Hi, Hd, Hp. rewrite dispatched_app. cbn.
    rewrite <- !(assoc_L (++)). cbn. split; [reflexivity|].
    split; [reflexivity|]. split; [|split; [|reflexivity]].
    + rewrite Hq, length_app. cbn [length].
      replace (length qs' + 1 - S (length rest))%nat
        with (length qs' - length rest)%nat by lia.
      rewrite take_app_le by lia. reflexivity.
    + rewrite (assoc_L (++)). f_equal. exact Hc.
Qed.

(** X10. A run of the loop that is neither stopped nor over the error
    budget, when no [request] throws.  It pairs the free clients, in the
    order of [_clients], with the requests of the backlog from its end: each
    pair is handed out and in flight, and the backlog is what it was without
    the requests handed out.  No client gets two requests, and every client
    that gets one was authorized and not busy.  When there is no pair, for
    want of a free client or of a request, the run sets one timer of a
    second instead. *)
Theorem tick_hands_the_tail_to_the_free_clients w :
  _isStopped (queue w) = false ->
  _errorCount (queue w) < _maxErrorCountInTotal (queue w) ->
  fst (tick w) = None ->
  let qs := _queries (queue w) in
  let new := zip (map fst (availableClients (_clients (queue w)))) (rev qs) in
  let w' := snd (tick w) in
  inflight w' = inflight w ++ new
  /\ dispatched (qtrace w') = dispatched (qtrace w) ++ new
  /\ _queries (queue w')
     = take (length qs - length (availableClients (_clients (queue w)))) qs
  /\ qs = _queries (queue w') ++ rev (map snd new)
  /\ pending w' = match new with
                  | [] => pending w ++ [1000]
                  | _ => pending w
                  end
  /\ NoDup (map fst new)
  /\ (forall i r, (i, r) ∈ new ->
        exists c, _clients (queue w) !! i = Some c
                  /\ isAuthorized c = true /\ isBusy c = false).
Proof.
  intros Hs He Hn. cbv zeta.
  assert (Hfree : NoDup (map fst (zip (map fst (availableClients
                                                  (_clients (queue w))))
                                    (rev (_queries (queue w)))))
          /\ forall i r,
               (i, r) ∈ zip (map fst (availableClients (_clients (queue w))))
                          (rev (_queries (queue w))) ->
               exists c, _clients (queue w) !! i = Some c
                         /\ isAuthorized c = true /\ isBusy c = false).
  { split; [apply NoDup_fst_zip, availableClients_NoDup|].
    intros i r Hin. apply elem_of_zip_l in Hin. cbn in Hin.
    apply list_elem_of_In, in_map_iff in Hin as ([j c] & Hj & Hin).
    cbn in Hj. subst j. exists c.
    apply availableClients_elem, list_elem_of_In, Hin. }
  destruct Hfree as [Hnd Hfree].
  revert Hn. unfold tick. rewrite Hs.
  destruct (Z.leb_spec (_maxErrorCountInTotal (queue w)) (_errorCount (queue w)));
    [lia|].
  assert (Hwait : zip (map fst (availableClients (_clients (queue w))))
                    (rev (_queries (queue w))) = [] ->
                  snd (None : option Exn, setTimeout 1000 w)
                  = setTimeout 1000 w ->
                  inflight (setTimeout 1000 w)
                  = inflight w
                      ++ zip (map fst (availableClients (_clients (queue w))))
                           (rev (_queries (queue w)))
                  /\ dispatched (qtrace (setTimeout 1000 w))
                     = dispatched (qtrace w)
                         ++ zip (map fst (availableClients
                                            (_clients (queue w))))
                              (rev (_queries (queue w)))
                  /\ _queries (queue (setTimeout 1000 w))
                     = _queries (queue w)
                  /\ _queries (queue w)
                     = _queries (queue (setTimeout 1000 w))
                         ++ rev (map snd
                                   (zip (map fst (availableClients
                                                    (_clients (queue w))))
                                      (rev (_queries (queue w)))))
                  /\ pending (setTimeout 1000 w)
                     = match zip (map fst (availableClients
                                             (_clients (queue w))))
                               (rev (_queries (queue w))) with
                       | [] => pending w ++ [1000]
                       | _ => pending w
                       end).
  { intros -> _. cbn [setTimeout inflight qtrace queue pending map rev].
    rewrite dispatched_app. cbn. rewrite !(right_id_L [] (++)). auto. }
  destruct (_queries (queue w)) as [|x0 qs0] eqn:Hq.
  { cbn [length Nat.eqb orb]. intros _.
    destruct Hwait as (H1 & H2 & H3 & H4 & H5);
      [apply zip_with_nil_r | reflexivity |].
    cbn [snd]. rewrite H1, H2, H3 at 1. rewrite H5.
    split; [reflexivity|]. split; [reflexivity|].
    split; [rewrite take_nil; reflexivity|].
    split; [exact H4|]. split; [reflexivity|]. split; [exact Hnd | exact Hfree]. }
  destruct (availableClients (_clients (queue w))) as [|[i0 c0] av] eqn:Ha.
  { cbn [length Nat.eqb orb]. intros _.
    destruct Hwait as (H1 & H2 & H3 & H4 & H5); [reflexivity | reflexivity |].
    cbn [snd]. rewrite H1, H2, H3 at 1. rewrite H5.
    split; [reflexivity|]. split; [reflexivity|].
    split; [symmetry; apply (firstn_all (x0 :: qs0))|].
    split; [exact H4|]. split; [reflexivity|]. split; [exact Hnd | exact Hfree]. }
  cbn [length Nat.eqb orb]. intros Hn.
  destruct (dispatch ((i0, c0) :: av) w) as [o w'] eqn:Hd.
  cbn in Hn. subst o. apply dispatch_hands_out in Hd. cbv zeta in Hd.
  rewrite Hq in Hd. destruct Hd as (Hi & Hdd & Hqq & Hc & Hp).
  cbn [snd]. split; [exact Hi|]. split; [exact Hdd|]. split; [exact Hqq|].
  split; [exact Hc|]. split; [|split; [exact Hnd | exact Hfree]].
  rewrite Hp. destruct (rev (x0 :: qs0)) eqn:Hr; [|reflexivity].
  apply (f_equal (@length _)) in Hr. rewrite length_rev in Hr. discriminate.
Qed.

(** *** What a settlement does to the queue *)

Lemma aborted_app (l1 l2 : list QEvent) :
  aborted (l1 ++ l2) = (aborted l1 + aborted l2)%nat.
Proof. unfold aborted. rewrite List.filter_app, length_app. reflexivity. Qed.

Lemma unhandled_app (l1 l2 : list QEvent) :
  unhandled (l1 ++ l2) = (unhandled l1 + unhandled l2)%nat.
Proof. unfold unhandled. rewrite List.filter_app, length_app. reflexivity. Qed.

Lemma succeeded_app (l1 l2 : list QEvent) :
  succeeded (l1 ++ l2) = (succeeded l1 + succeeded l2)%nat.
Proof. unfold succeeded. rewrite List.filter_app, length_app. reflexivity. Qed.

Lemma succeeded_callback r res :
  succeeded [QCallback r res]
  = match runCallback r res with Normal _ => 1%nat | Abrupt _ => 0%nat end.
Proof.
  unfold succeeded. cbn. unfold runCallback.
  destruct (_callback r res); reflexivity.
Qed.

(** The handler, on a reason whose message it can read. *)
Lemma on_error_effect r error text w :
  reason_message error = Some text ->
  let m := count_failure (_errorUrls (queue w)) (getUrl r) in
  let retry := below m (getUrl r) (_maxErrorCountPerRequest (queue w)) in
  let w' := snd (on_error r error w) in
  fst (on_error r error w) = None
  /\ _errorCount (queue w') = _errorCount (queue w) + 1
  /\ _errorUrls (queue w') = m
  /\ _queries (queue w')
     = (if retry then r :: _queries (queue w) else _queries (queue w))
  /\ callbacks (qtrace w') = callbacks (qtrace w)
  /\ succeeded (qtrace w') = succeeded (qtrace w)
  /\ unhandled (qtrace w') = unhandled (qtrace w)
  /\ aborted (qtrace w')
     = (aborted (qtrace w) + (if retry then 0 else 1))%nat.
Proof.
  intros Hm. cbv zeta. rewrite on_error_spec, Hm. cbn [fst snd queue qtrace].
  rewrite callbacks_app, succeeded_app, unhandled_app, aborted_app.
  destruct (below _ _ _); cbn; rewrite ?(right_id_L [] (++));
    repeat split; lia.
Qed.

(** What the three handlers of a settled dispatch do. *)
Lemma completion_effect r s w :
  let m := _errorUrls (queue w) in
  let retry := below (count_failure m (getUrl r)) (getUrl r)
                 (_maxErrorCountPerRequest (queue w)) in
  let w' := completion r s w in
  callbacks (qtrace w')
  = callbacks (qtrace w)
      ++ match s with
         | Resolves result => [(r, result)]
         | Rejects _ => []
         end
  /\ succeeded (qtrace w')
     = (succeeded (qtrace w)
        + match caught r s with Some _ => 0 | None => 1 end)%nat
  /\ unhandled (qtrace w')
     = (unhandled (qtrace w) + (if breaks r s then 1 else 0))%nat
  /\ aborted (qtrace w')
     = (aborted (qtrace w)
        + (if counts r s && negb retry then 1 else 0))%nat
  /\ _errorCount (queue w')
     = _errorCount (queue w) + (if counts r s then 1 else 0)
  /\ _errorUrls (queue w')
     = (if counts r s then count_failure m (getUrl r) else m)
  /\ _queries (queue w')
     = (if counts r s && retry then r :: _queries (queue w)
        else _queries (queue w)).
Proof.
  cbv zeta.
  assert (Herr : forall reason w1 (cbs : list (GitHubApiRequest * Response)),
             _errorUrls (queue w1) = _errorUrls (queue w) ->
             _maxErrorCountPerRequest (queue w1)
             = _maxErrorCountPerRequest (queue w) ->
             _errorCount (queue w1) = _errorCount (queue w) ->
             _queries (queue w1) = _queries (queue w) ->
             callbacks (qtrace w1) = callbacks (qtrace w) ++ cbs ->
             succeeded (qtrace w1) = succeeded (qtrace w) ->
             unhandled (qtrace w1) = unhandled (qtrace w) ->
             aborted (qtrace w1) = aborted (qtrace w) ->
             let retry :=
               below (count_failure (_errorUrls (queue w)) (getUrl r))
                 (getUrl r) (_maxErrorCountPerRequest (queue w)) in
             let readable := bool_decide (is_Some (reason_message reason)) in
             let w' := uncaught (fst (on_error r reason w1),
                                 setTimeout 0 (snd (on_error r reason w1))) in
             callbacks (qtrace w') = callbacks (qtrace w) ++ cbs
             /\ succeeded (qtrace w') = (succeeded (qtrace w) + 0)%nat
             /\ unhandled (qtrace w')
                = (unhandled (qtrace w)
                   + (if bool_decide (reason_message reason = None)
                      then 1 else 0))%nat
             /\ aborted (qtrace w')
                = (aborted (qtrace w)
                   + (if readable && negb retry then 1 else 0))%nat
             /\ _errorCount (queue w')
                = _errorCount (queue w) + (if readable then 1 else 0)
             /\ _errorUrls (queue w')
                = (if readable
                   then count_failure (_errorUrls (queue w)) (getUrl r)
                   else _errorUrls (queue w))
             /\ _queries (queue w')
                = (if readable && retry then r :: _queries (queue w)
                   else _queries (queue w))).
  { intros reason w1 cbs Hu Hmx Hec Hq Hcb Hsu Hun Hab. cbv zeta.
    destruct (reason_message reason) as [text|] eqn:Hm.
    - destruct (on_error_effect r reason text w1 Hm)
        as (Hn & He & Hus & Hqs & Hc1 & Hs1 & Hu1 & Ha1).
      destruct (on_error r reason w1) as [o w2]. cbn [fst snd] in *. subst o.
      rewrite ?Hu, ?Hmx in Hus. rewrite ?Hu, ?Hmx in Hqs.
      rewrite ?Hu, ?Hmx in Ha1.
      rewrite (bool_decide_eq_true_2 _ (ltac:(eauto) : is_Some (Some text))).
      rewrite (bool_decide_eq_false_2 (Some text = None)) by discriminate.
      cbn [uncaught setTimeout queue qtrace andb].
      rewrite callbacks_app, succeeded_app, unhandled_app, aborted_app.
      rewrite Hc1, Hs1, Hu1, Ha1, He, Hus, Hqs, Hcb, Hsu, Hun, Hab, Hec, Hq.
      cbn. rewrite (right_id_L [] (++)).
      destruct (below _ _ _); cbn; repeat split; lia.
    - rewrite on_error_spec, Hm. cbn [fst snd].
      rewrite (bool_decide_eq_false_2 (is_Some None)) by (intros [? ?]; discriminate).
      rewrite (bool_decide_eq_true_2 (None = None)) by reflexivity.
      cbn [uncaught setTimeout emit queue qtrace andb].
      rewrite !callbacks_app, !succeeded_app, !unhandled_app, !aborted_app.
      rewrite Hcb, Hsu, Hun, Hab, Hec, Hu, Hq. cbn.
      rewrite !(right_id_L [] (++)). repeat split; lia. }
  unfold completion, counts, breaks, caught.
  destruct s as [res|reason].
  - unfold on_result. destruct (runCallback r res) as [v|reason] eqn:Hr.
    + cbn [uncaught setTimeout emit queue qtrace andb].
      rewrite !callbacks_app, !succeeded_app, !unhandled_app, !aborted_app.
      rewrite succeeded_callback, Hr. cbn.
      rewrite !(right_id_L [] (++)). repeat split; lia.
    + match goal with |- context [on_error r reason ?w1] =>
        destruct (on_error r reason w1) as [o w2] eqn:Ho;
        pose proof (Herr reason w1 [(r, res)]) as He;
        rewrite Ho in He end.
      cbn [fst snd] in He. apply He; try reflexivity.
      * cbn [emit qtrace]. rewrite callbacks_app. reflexivity.
      * cbn [emit qtrace]. rewrite succeeded_app, succeeded_callback, Hr. lia.
      * cbn [emit qtrace]. rewrite unhandled_app. cbn. lia.
      * cbn [emit qtrace]. rewrite aborted_app. cbn. lia.
  - pose proof (Herr reason w []) as He.
    destruct (on_error r reason w) as [o w2]. cbn [fst snd] in He.
    rewrite (right_id_L [] (++)) in He. rewrite (right_id_L [] (++)).
    apply He; reflexivity.
Qed.

(** X11. The settlement of a dispatch in flight, [r] on client [i].  The
    dispatch is no longer in flight, the client is as its own handlers leave
    it, and one timer of 0 ms is set for the next run of the loop, whatever
    the outcome.  The callback of [r] runs when the promise of the client
    resolves, once, with the result, and not when it rejects.  When the
    promise rejects or the callback throws, the [.catch] handler runs.  Given
    [null] or [undefined] it throws at once: nothing is counted, [r] is not
    put back, and the exception is left unhandled.  Otherwise it counts the
    failure in total and in the entry of the URL of [r]; where that entry
    counts by a number, the count goes up by one and [r] goes back to the
    head of the backlog if the count is still below the limit; where it does
    not, [r] is given up at once.  A settlement whose handler does not run,
    or throws, leaves counters and backlog alone. *)
Theorem settlement_runs_the_handlers
    w (k i : nat) r (c : C) (t : Settlement) :
  inflight w !! k = Some (i, r) ->
  _clients (queue w) !! i = Some c ->
  let s := fst (settle (getUrl r) t c) in
  let m := _errorUrls (queue w) in
  let url := getUrl r in
  let w' := exec (ASettle k t) w in
  inflight w' = delete k (inflight w)
  /\ pending w' = pending w ++ [0]
  /\ _clients (queue w') = <[i := snd (settle (getUrl r) t c)]> (_clients (queue w))
  /\ callbacks (qtrace w')
     = callbacks (qtrace w)
         ++ match s with
            | Resolves result => [(r, result)]
            | Rejects _ => []
            end
  /\ unhandled (qtrace w')
     = (unhandled (qtrace w) + (if breaks r s then 1 else 0))%nat
  /\ (counts r s = false ->
      _errorCount (queue w') = _errorCount (queue w)
      /\ _errorUrls (queue w') = m
      /\ _queries (queue w') = _queries (queue w)
      /\ aborted (qtrace w') = aborted (qtrace w))
  /\ (counts r s = true ->
      _errorCount (queue w') = _errorCount (queue w) + 1
      /\ _errorUrls (queue w') = count_failure m url
      /\ (counted m url = true ->
          failures (_errorUrls (queue w')) url = failures m url + 1
          /\ (if failures m url + 1 <? _maxErrorCountPerRequest (queue w)
              then _queries (queue w') = r :: _queries (queue w)
                   /\ aborted (qtrace w') = aborted (qtrace w)
              else _queries (queue w') = _queries (queue w)
                   /\ aborted (qtrace w') = S (aborted (qtrace w))))
      /\ (counted m url = false ->
          _queries (queue w') = _queries (queue w)
          /\ aborted (qtrace w') = S (aborted (qtrace w)))).
Proof.
  intros Hk Hi. cbv zeta. cbn [exec]. rewrite Hk. cbn [queue]. rewrite Hi.
  destruct (settle (getUrl r) t c) as [s c']. cbn [fst snd].
  match goal with |- context [completion r s ?w1] =>
    destruct (completion_frame r s w1) as (Hfi & Hfp & Hfc & _);
    destruct (completion_effect r s w1)
      as (Hcb & _ & Hun & Hab & Hec & Hus & Hqs) end.
  cbn [set_queue set_clients queue inflight pending qtrace _errorUrls
       _maxErrorCountPerRequest _errorCount _queries _clients] in *.
  rewrite Hfi, Hfp, Hfc, Hcb, Hun, Hab, Hec, Hus, Hqs.
  split; [reflexivity|]. split; [reflexivity|]. split; [reflexivity|].
  split; [reflexivity|]. split; [reflexivity|]. split.
  - intros ->. cbn. repeat split; lia.
  - intros ->. cbn [andb]. split; [reflexivity|]. split; [reflexivity|]. split.
    + intros Hc. rewrite (below_counted _ _ _ Hc), (failures_counted _ _ Hc).
      split; [reflexivity|].
      destruct (_ <? _); cbn; split; (reflexivity || lia).
    + intros Hc. rewrite (below_uncounted _ _ _ Hc). cbn. split; [reflexivity | lia].
Qed.

(** *** The loop keeps going *)

Lemma dispatch_accepted (avail : list (nat * C)) w :
  Forall accepted (_queries (queue w)) -> fst (dispatch avail w) = None.
Proof.
  revert w. induction avail as [|[i c] rest IH]; intros w Hq; cbn [dispatch].
  - reflexivity.
  - destruct (pop (_queries (queue w))) as [[x qs']|] eqn:Hpop; [|reflexivity].
    apply pop_Some in Hpop. rewrite Hpop in Hq.
    apply Forall_app in Hq as [Hq Hx]. rewrite Forall_singleton in Hx.
    specialize (Hx c).
    destruct (request (getUrl x) (getParams x) c) as [o c']. cbn in Hx.
    subst o. apply IH. exact Hq.
Qed.

Lemma dispatch_clients_length (avail : list (nat * C)) w :
  length (_clients (queue (snd (dispatch avail w))))
  = length (_clients (queue w)).
Proof.
  revert w. induction avail as [|[i c] rest IH]; intros w; cbn [dispatch].
  - reflexivity.
  - destruct (pop (_queries (queue w))) as [[x qs']|]; [|reflexivity].
    destruct (request (getUrl x) (getParams x) c) as [[exn|] c'].
    + cbn. apply length_insert.
    + rewrite IH. cbn. apply length_insert.
Qed.

Lemma tick_accepted w :
  Forall accepted (_queries (queue w)) -> fst (tick w) = None.
Proof.
  intros Hq. unfold tick. destruct (_isStopped (queue w)); [reflexivity|].
  destruct (_ <=? _); [reflexivity|]. destruct (_ || _); [reflexivity|].
  apply dispatch_accepted, Hq.
Qed.

Lemma well_formed_ext w w' :
  _queries (queue w') = _queries (queue w) ->
  length (_clients (queue w')) = length (_clients (queue w)) ->
  inflight w' = inflight w ->
  well_formed w -> well_formed w'.
Proof. unfold well_formed. intros -> -> ->. auto. Qed.

Lemma tick_well_formed w : well_formed w -> well_formed (snd (tick w)).
Proof.
  intros [Hq Hi]. unfold tick. destruct (_isStopped (queue w)); [split; auto|].
  destruct (_ <=? _); [split; auto|]. destruct (_ || _); [split; auto|].
  pose proof (dispatch_accepted (availableClients (_clients (queue w))) w Hq)
    as Hn.
  pose proof (dispatch_clients_length
                (availableClients (_clients (queue w))) w) as Hl.
  destruct (dispatch (availableClients (_clients (queue w))) w) as [o w']
    eqn:Hd.
  cbn in Hn, Hl. subst o. apply dispatch_hands_out in Hd. cbv zeta in Hd.
  destruct Hd as (Hi' & _ & Hq' & _ & _). cbn [snd].
  split.
  - rewrite Hq'. apply Forall_take, Hq.
  - rewrite Hi', Hl. apply Forall_app. split; [exact Hi|].
    apply Forall_forall. intros [i r] Hin. cbn. split.
    + apply elem_of_zip_l in Hin.
      apply list_elem_of_In, in_map_iff in Hin as ([j c] & Hj & Hin).
      cbn in Hj. subst j.
      apply list_elem_of_In, availableClients_elem in Hin as (Hc & _).
      apply lookup_lt_Some in Hc. exact Hc.
    + apply elem_of_zip_r in Hin.
      apply list_elem_of_In, in_rev, list_elem_of_In in Hin.
      rewrite Forall_forall in Hq. apply Hq, Hin.
Qed.

Lemma uncaught_tick w :
  Forall accepted (_queries (queue w)) -> uncaught (tick w) = snd (tick w).
Proof.
  intros Hq. pose proof (tick_accepted w Hq) as Hn.
  destruct (tick w) as [o w']. cbn in Hn. subst o. reflexivity.
Qed.

Lemma completion_well_formed r s w :
  accepted r -> well_formed w -> well_formed (completion r s w).
Proof.
  intros Hr [Hq Hi].
  destruct (completion_frame r s w) as (Hfi & _ & Hfc & _).
  destruct (completion_effect r s w) as (_ & _ & _ & _ & _ & _ & Hqs).
  unfold well_formed. rewrite Hfi, Hfc, Hqs. split; [|exact Hi].
  destruct (_ && _); [constructor; assumption | exact Hq].
Qed.

Lemma exec_well_formed act w :
  brings_accepted act -> well_formed w -> well_formed (exec act w).
Proof.
  intros Ha Hw. destruct act as [rs|rs| | |k|k t|i c]; cbn [exec].
  - destruct Hw as [Hq Hi]. split; [|exact Hi]. cbn. apply Forall_app. auto.
  - destruct Hw as [Hq Hi]. split; [|exact Hi]. cbn. apply Forall_app. auto.
  - unfold start, _process.
    assert (Hw1 : well_formed (log Info QStart w)) by exact Hw.
    rewrite uncaught_tick by apply Hw1. apply tick_well_formed, Hw1.
  - exact Hw.
  - destruct (pending w !! k); [|exact Hw].
    match goal with |- context [tick ?w1] =>
      assert (Hw1 : well_formed w1) by exact Hw end.
    rewrite uncaught_tick by apply Hw1. apply tick_well_formed, Hw1.
  - destruct (inflight w !! k) as [[i r]|] eqn:Hk; [|exact Hw]. cbn [queue].
    destruct Hw as [Hq Hi].
    assert (Hir : (i < length (_clients (queue w)))%nat /\ accepted r).
    { rewrite Forall_forall in Hi.
      apply (Hi (i, r)), list_elem_of_lookup. eauto. }
    assert (Hd : Forall (fun ir => (fst ir < length (_clients (queue w)))%nat
                                   /\ accepted (snd ir))
                   (delete k (inflight w))).
    { apply Forall_delete, Hi. }
    destruct (_clients (queue w) !! i) as [c|]; [|split; assumption].
    destruct (settle (getUrl r) t c) as [s c'].
    apply completion_well_formed; [apply Hir|].
    split; [exact Hq|]. cbn. rewrite length_insert. exact Hd.
  - destruct Hw as [Hq Hi]. split; [exact Hq|]. cbn. rewrite length_insert.
    exact Hi.
Qed.

(** A run of the loop on accepted requests leaves a timer or a dispatch,
    unless the queue is stopped or over the budget. *)
Lemma tick_alive w :
  well_formed w ->
  _isStopped (queue w) = false ->
  _errorCount (queue w) < _maxErrorCountInTotal (queue w) ->
  alive (snd (tick w)).
Proof.
  intros [Hq _] Hs He. unfold tick, alive. rewrite Hs.
  destruct (Z.leb_spec (_maxErrorCountInTotal (queue w)) (_errorCount (queue w)));
    [lia|].
  destruct (_ || _) eqn:Hor.
  { cbn. rewrite length_app. cbn. lia. }
  apply orb_false_iff in Hor as [Hq0 Ha0].
  apply Nat.eqb_neq in Hq0, Ha0.
  pose proof (dispatch_accepted (availableClients (_clients (queue w))) w Hq)
    as Hn.
  destruct (dispatch (availableClients (_clients (queue w))) w) as [o w']
    eqn:Hd.
  cbn in Hn. subst o. apply dispatch_hands_out in Hd. cbv zeta in Hd.
  destruct Hd as (Hi' & _). cbn [snd]. rewrite Hi', length_app.
  rewrite length_zip_with, length_map, length_rev. lia.
Qed.

Lemma exec_not_stopped act w :
  _isStopped (queue (exec act w)) = false -> _isStopped (queue w) = false.
Proof.
  intros Hs. destruct (_isStopped (queue w)) eqn:Hw; [|reflexivity].
  destruct (exec_stopped act w Hw) as (Hs' & _). congruence.
Qed.

Lemma exec_under_budget act w :
  _errorCount (queue (exec act w)) < _maxErrorCountInTotal (queue (exec act w)) ->
  _errorCount (queue w) < _maxErrorCountInTotal (queue w).
Proof.
  intros He.
  destruct (Z.lt_ge_cases (_errorCount (queue w))
              (_maxErrorCountInTotal (queue w))) as [Hlt|Hge]; [exact Hlt|].
  destruct (over_budget_is_final act w Hge) as (Hge' & _). lia.
Qed.

Lemma start_alive w :
  well_formed w ->
  _isStopped (queue w) = false ->
  _errorCount (queue w) < _maxErrorCountInTotal (queue w) ->
  alive (exec AStart w).
Proof.
  intros Hw Hs He. cbn [exec]. unfold start, _process.
  assert (Hw1 : well_formed (log Info QStart w)) by exact Hw.
  rewrite uncaught_tick by apply Hw1. apply tick_alive; assumption.
Qed.

Lemma exec_alive act w :
  brings_accepted act -> well_formed w ->
  _isStopped (queue w) = false ->
  _errorCount (queue w) < _maxErrorCountInTotal (queue w) ->
  alive w -> alive (exec act w).
Proof.
  intros Ha Hw Hs He Hal.
  destruct act as [rs|rs| | |k|k t|i c]; cbn [exec]; try exact Hal.
  - apply start_alive; assumption.
  - destruct (pending w !! k); [|exact Hal].
    match goal with |- context [tick ?w1] =>
      assert (Hw1 : well_formed w1) by exact Hw end.
    rewrite uncaught_tick by apply Hw1. apply tick_alive; assumption.
  - destruct (inflight w !! k) as [[i r]|] eqn:Hk; [|exact Hal]. cbn [queue].
    destruct Hw as [_ Hi]. rewrite Forall_forall in Hi.
    assert (Hir : (i < length (_clients (queue w)))%nat).
    { apply (Hi (i, r)), list_elem_of_lookup. eauto. }
    apply lookup_lt_is_Some in Hir as [c Hc]. rewrite Hc.
    destruct (settle (getUrl r) t c) as [s c']. unfold alive.
    match goal with |- context [completion r s ?w1] =>
      destruct (completion_frame r s w1) as (_ & -> & _) end.
    rewrite length_app. cbn. lia.
Qed.

Lemma run_well_formed (acts : list (Action C)) w :
  Forall brings_accepted acts -> well_formed w -> well_formed (run acts w).
Proof.
  revert w. induction acts as [|act acts IH]; intros w Ha Hw; [exact Hw|].
  apply Forall_cons in Ha as [Ha Hacts]. rewrite run_cons.
  apply IH; [exact Hacts|]. apply exec_well_formed; assumption.
Qed.

Lemma run_alive (acts : list (Action C)) w :
  Forall brings_accepted acts -> well_formed w ->
  (_isStopped (queue w) = false ->
   _errorCount (queue w) < _maxErrorCountInTotal (queue w) -> alive w) ->
  _isStopped (queue (run acts w)) = false ->
  _errorCount (queue (run acts w)) < _maxErrorCountInTotal (queue (run acts w)) ->
  alive (run acts w).
Proof.
  induction acts as [|act acts IH] using rev_ind; intros Ha Hw Hal; [exact Hal|].
  apply Forall_app in Ha as [Hacts Ha]. rewrite Forall_singleton in Ha.
  rewrite run_snoc. intros Hs He.
  pose proof (exec_not_stopped _ _ Hs) as Hs0.
  pose proof (exec_under_budget _ _ He) as He0.
  apply exec_alive; auto using run_well_formed.
Qed.

(** X12. A started queue does not fall silent.  Let every request that
    [push] and [unshift] bring be one that no client refuses on the spot.
    Then after [start], whatever happens, as long as the queue is neither
    stopped nor over its error budget a timer of the loop is pending or a
    dispatch is in flight, whose settlement sets one: a run of the loop is
    still to come. *)
Theorem started_queue_stays_alive
    (clients : list C) (maxPer : Z) (maxTotal : option Z)
    (before after : list (Action C)) :
  Forall brings_accepted (before ++ after) ->
  let w := run (before ++ AStart :: after)
             (boot (constructor clients maxPer maxTotal)) in
  _isStopped (queue w) = false ->
  _errorCount (queue w) < _maxErrorCountInTotal (queue w) ->
  alive w.
Proof.
  intros Ha. apply Forall_app in Ha as [Hb Ha]. cbv zeta.
  assert (Hrun : run (before ++ AStart :: after)
                   (boot (constructor clients maxPer maxTotal))
                 = run after
                     (exec AStart
                        (run before (boot (constructor clients maxPer maxTotal)))))
    by (unfold run; rewrite foldl_app; reflexivity).
  rewrite Hrun. clear Hrun.
  set (w0 := run before _).
  assert (Hw0 : well_formed w0).
  { apply run_well_formed; [exact Hb|]. split; constructor. }
  apply run_alive; [exact Ha | |].
  - apply exec_well_formed; [exact I | exact Hw0].
  - intros Hs He. apply start_alive; [exact Hw0 | |].
    + apply (exec_not_stopped AStart), Hs.
    + apply (exec_under_budget AStart), He.
Qed.

(** *** One dispatch in flight for each client *)

Section BusyClient.

(** [request] leaves the client busy, as the one of [GitHubApiClient]
    does. *)
Hypothesis request_sets_busy :
  forall url params (c : C), isBusy (snd (request url params c)) = true.

Lemma one_each_free w i c :
  one_each w -> _clients (queue w) !! i = Some c -> isBusy c = false ->
  i ∉ map fst (inflight w).
Proof.
  intros [_ Hf] Hc Hb Hin.
  apply list_elem_of_In, in_map_iff in Hin as ([j r] & Hj & Hin).
  cbn in Hj. subst j. rewrite Forall_forall in Hf.
  apply list_elem_of_In, Hf in Hin as (c0 & Hc0 & Hb0). cbn in Hc0.
  congruence.
Qed.

Lemma one_each_set_client w i c' :
  one_each w -> i ∉ map fst (inflight w) ->
  one_each (set_queue (set_clients (<[i:=c']> (_clients (queue w))) (queue w)) w).
Proof.
  intros [Hnd Hf] Hi. split; [exact Hnd|]. cbn.
  rewrite Forall_forall in Hf |- *. intros [j r] Hin.
  destruct (Hf _ Hin) as (c0 & Hc0 & Hb0). cbn in *.
  exists c0. split; [|exact Hb0].
  rewrite list_lookup_insert_ne; [exact Hc0|].
  intros ->. apply Hi, list_elem_of_In, in_map_iff.
  exists (j, r). split; [reflexivity | apply list_elem_of_In, Hin].
Qed.

Lemma one_each_ext w w' :
  inflight w' = inflight w -> _clients (queue w') = _clients (queue w) ->
  one_each w -> one_each w'.
Proof. unfold one_each. intros -> ->. auto. Qed.

Lemma dispatch_one_each (avail : list (nat * C)) w :
  NoDup (map fst avail) ->
  (forall i c, (i, c) ∈ avail ->
     _clients (queue w) !! i = Some c /\ isBusy c = false) ->
  one_each w -> one_each (snd (dispatch avail w)).
Proof.
  revert w. induction avail as [|[i c] rest IH]; intros w Hnd Hav Hw;
    cbn [dispatch]; [exact Hw|].
  destruct (pop (_queries (queue w))) as [[x qs']|]; [|exact Hw].
  destruct (Hav i c) as [Hc Hb]; [apply list_elem_of_here|].
  pose proof (one_each_free w i c Hw Hc Hb) as Hi.
  pose proof (request_sets_busy (getUrl x) (getParams x) c) as Hb'.
  destruct (request (getUrl x) (getParams x) c) as [o c']. cbn in Hb'.
  set (w1 := emit (QDispatch i x) (set_queue (set_queries qs' (queue w)) w)).
  assert (Hw1 : one_each w1) by exact Hw.
  assert (Hc1 : _clients (queue w1) = _clients (queue w)) by reflexivity.
  assert (Hi1 : inflight w1 = inflight w) by reflexivity.
  clearbody w1.
  assert (Hw2 : one_each
                  (set_queue
                     (set_clients (<[i:=c']> (_clients (queue w1))) (queue w1))
                     w1)).
  { apply one_each_set_client; [exact Hw1 | rewrite Hi1; exact Hi]. }
  destruct o as [exn|]; [exact Hw2|].
  cbn in Hnd. apply NoDup_cons in Hnd as [Hir Hnd].
  apply IH; [exact Hnd | |].
  - intros j cj Hin. cbn. rewrite Hc1.
    destruct (Hav j cj) as [Hcj Hbj]; [apply list_elem_of_further, Hin|].
    split; [|exact Hbj]. rewrite list_lookup_insert_ne; [exact Hcj|].
    intros ->. apply Hir, list_elem_of_In, in_map_iff.
    exists (j, cj). split; [reflexivity | apply list_elem_of_In, Hin].
  - destruct Hw2 as [Hnd2 Hf2]. cbn in Hnd2, Hf2. split; cbn.
    + rewrite map_app. apply NoDup_app. split; [exact Hnd2|]. split.
      * intros j Hj Hj'. cbn in Hj'. apply list_elem_of_singleton in Hj'.
        subst j. apply Hi. rewrite <- Hi1. exact Hj.
      * cbn. apply NoDup_singleton.
    + apply Forall_app. split; [exact Hf2|]. apply Forall_singleton. cbn.
      exists c'. split; [|exact Hb'].
      apply list_lookup_insert_eq. rewrite Hc1.
      apply lookup_lt_Some in Hc. exact Hc.
Qed.

Lemma tick_one_each w : one_each w -> one_each (uncaught (tick w)).
Proof.
  intros Hw.
  assert (Hu : forall p : option Exn * Loop C,
             one_each (snd p) -> one_each (uncaught p)).
  { intros [[x|] w']; intros Hp; exact Hp. }
  apply Hu. unfold tick. destruct (_isStopped (queue w)); [exact Hw|].
  destruct (_ <=? _); [exact Hw|]. destruct (_ || _); [exact Hw|].
  apply dispatch_one_each; [apply availableClients_NoDup | | exact Hw].
  intros i c Hin. apply availableClients_elem in Hin as (Hc & _ & Hb). auto.
Qed.

Lemma one_each_delete w k i r :
  one_each w -> inflight w !! k = Some (i, r) ->
  NoDup (map fst (delete k (inflight w)))
  /\ (i ∉ map fst (delete k (inflight w)))
  /\ Forall (fun ir => exists c, _clients (queue w) !! fst ir = Some c
                                 /\ isBusy c = true) (delete k (inflight w)).
Proof.
  intros [Hnd Hf] Hk.
  rewrite <- (take_drop_middle _ _ _ Hk) in Hnd.
  rewrite map_app in Hnd. cbn in Hnd.
  apply NoDup_app in Hnd as (Hn1 & Hn12 & Hn2).
  apply NoDup_cons in Hn2 as [Hi2 Hn2].
  rewrite delete_take_drop, map_app. split; [|split].
  - apply NoDup_app. split; [exact Hn1|]. split; [|exact Hn2].
    intros x Hx Hx'. apply (Hn12 x Hx). apply list_elem_of_further, Hx'.
  - intros Hin. apply elem_of_app in Hin as [Hin | Hin].
    + apply (Hn12 i Hin). apply list_elem_of_here.
    + apply Hi2, Hin.
  - rewrite <- delete_take_drop. apply Forall_delete, Hf.
Qed.

Lemma exec_one_each act w :
  keeps_busy act w -> one_each w -> one_each (exec act w).
Proof.
  intros Ha Hw. destruct act as [rs|rs| | |k|k t|i c]; cbn [exec].
  - exact Hw.
  - exact Hw.
  - unfold start, _process. apply tick_one_each. exact Hw.
  - exact Hw.
  - destruct (pending w !! k); [|exact Hw]. apply tick_one_each. exact Hw.
  - destruct (inflight w !! k) as [[i r]|] eqn:Hk; [|exact Hw]. cbn [queue].
    destruct (one_each_delete w k i r Hw Hk) as (Hnd & Hi & Hf).
    set (w1 := {| queue := queue w; inflight := delete k (inflight w);
                  pending := pending w; qtrace := qtrace w |}).
    assert (Hw1 : one_each w1) by (split; assumption).
    destruct (_clients (queue w) !! i) as [c|]; [|exact Hw1].
    destruct (settle (getUrl r) t c) as [s c'].
    match goal with |- one_each (completion r s ?w2) =>
      apply (one_each_ext w2);
        [apply completion_frame | apply completion_frame |] end.
    apply (one_each_set_client w1); [exact Hw1 | exact Hi].
  - destruct Ha as (c0 & Hc0 & Hb). destruct Hw as [Hnd Hf].
    split; [exact Hnd|]. cbn. rewrite Forall_forall in Hf |- *.
    intros [j r] Hin. destruct (Hf _ Hin) as (c1 & Hc1 & Hb1). cbn in *.
    destruct (decide (i = j)) as [->|Hne].
    + exists c. split.
      * apply list_lookup_insert_eq. apply lookup_lt_Some in Hc0. exact Hc0.
      * rewrite Hb. congruence.
    + exists c1. split; [|exact Hb1].
      rewrite list_lookup_insert_ne by exact Hne. exact Hc1.
Qed.

(** X13. No client is handed a second request while its first is in
    flight.  For clients whose [request] sets the busy flag and that do not
    change that flag by themselves: whatever is done with a new queue, the
    dispatches in flight are on different clients, and each of these clients
    is busy. *)
Theorem one_dispatch_in_flight_per_client
    (clients : list C) (maxPer : Z) (maxTotal : option Z)
    (acts : list (Action C)) :
  own_steps acts (boot (constructor clients maxPer maxTotal)) ->
  let w := run acts (boot (constructor clients maxPer maxTotal)) in
  NoDup (map fst (inflight w))
  /\ forall i r, (i, r) ∈ inflight w ->
       exists c, _clients (queue w) !! i = Some c /\ isBusy c = true.
Proof.
  intros Hacts.
  assert (Hw : one_each (run acts (boot (constructor clients maxPer maxTotal)))).
  { assert (H0 : one_each (boot (constructor clients maxPer maxTotal)))
      by (split; constructor).
    revert H0 Hacts. generalize (boot (constructor clients maxPer maxTotal)).
    induction acts as [|act acts IH]; intros w Hw Hacts; [exact Hw|].
    destruct Hacts as [Ha Hacts]. rewrite run_cons.
    apply IH; [|exact Hacts]. apply exec_one_each; assumption. }
  destruct Hw as [Hnd Hf]. split; [exact Hnd|].
  intros i r Hin. rewrite Forall_forall in Hf. apply (Hf (i, r)), Hin.
Qed.

End BusyClient.

(** *** No request is lost *)

Lemma enqueued_app (acts1 acts2 : list (Action C)) :
  enqueued (acts1 ++ acts2) = (enqueued acts1 + enqueued acts2)%nat.
Proof.
  unfold enqueued. rewrite foldr_app.
  induction acts1 as [|a acts1 IH]; cbn [foldr]; [reflexivity|].
  destruct a; rewrite ?IH; lia.
Qed.

Lemma dispatch_counts (avail : list (nat * C)) w :
  succeeded (qtrace (snd (dispatch avail w))) = succeeded (qtrace w)
  /\ aborted (qtrace (snd (dispatch avail w))) = aborted (qtrace w)
  /\ unhandled (qtrace (snd (dispatch avail w))) = unhandled (qtrace w).
Proof.
  revert w. induction avail as [|[i c] rest IH]; intros w; cbn [dispatch].
  - auto.
  - destruct (pop (_queries (queue w))) as [[x qs']|]; [|auto].
    destruct (request (getUrl x) (getParams x) c) as [[exn|] c'].
    + cbn [snd emit set_queue qtrace].
      rewrite succeeded_app, aborted_app, unhandled_app. cbn.
      repeat split; lia.
    + match goal with |- context [dispatch rest ?w2] =>
        destruct (IH w2) as (-> & -> & ->) end.
      cbn [add_inflight emit set_queue qtrace].
      rewrite succeeded_app, aborted_app, unhandled_app. cbn.
      repeat split; lia.
Qed.

Lemma accounted_ext w w' (evs : list QEvent) :
  _queries (queue w') = _queries (queue w) ->
  inflight w' = inflight w ->
  qtrace w' = qtrace w ++ evs ->
  succeeded evs = 0%nat -> aborted evs = 0%nat -> unhandled evs = 0%nat ->
  accounted w' = accounted w.
Proof.
  intros Hq Hi Ht Hs Ha Hu. unfold accounted, getQueueLength.
  rewrite Hq, Hi, Ht, succeeded_app, aborted_app, unhandled_app. lia.
Qed.

Lemma tick_accounted w :
  Forall accepted (_queries (queue w)) ->
  accounted (snd (tick w)) = accounted w.
Proof.
  intros Hq. unfold tick. destruct (_isStopped (queue w)); [reflexivity|].
  destruct (_ <=? _).
  { apply (accounted_ext w _ [QLog Error QTooManyErrors]); reflexivity. }
  destruct (_ || _).
  { apply (accounted_ext w _ [QSetTimeout 1000]); reflexivity. }
  pose proof (dispatch_accepted (availableClients (_clients (queue w))) w Hq)
    as Hn.
  destruct (dispatch_counts (availableClients (_clients (queue w))) w)
    as (Hs & Ha & Hu).
  destruct (dispatch (availableClients (_clients (queue w))) w) as [o w']
    eqn:Hd.
  cbn in Hn. subst o. apply dispatch_hands_out in Hd. cbv zeta in Hd.
  destruct Hd as (Hi' & _ & Hq' & _ & _). cbn [snd] in *.
  unfold accounted, getQueueLength. rewrite Hs, Ha, Hu, Hi', Hq'.
  rewrite length_app, length_take, length_zip_with, length_map, length_rev.
  lia.
Qed.

(** A settled dispatch goes to one of four places: done, back in the
    backlog, given up, or dropped by the handler that threw. *)
Lemma completion_accounted r s w :
  accounted (completion r s w) = S (accounted w).
Proof.
  destruct (completion_frame r s w) as (Hi & _).
  destruct (completion_effect r s w) as (_ & Hs & Hu & Ha & _ & _ & Hq).
  unfold accounted, getQueueLength. rewrite Hi, Hs, Hu, Ha, Hq.
  unfold counts, breaks. destruct (caught r s) as [reason|]; [|cbn; lia].
  destruct (reason_message reason) as [text|].
  - rewrite (bool_decide_eq_true_2 _ (ltac:(eauto) : is_Some (Some text))).
    rewrite (bool_decide_eq_false_2 (Some text = None)) by discriminate.
    destruct (below _ _ _); cbn; lia.
  - rewrite (bool_decide_eq_false_2 (is_Some None))
      by (intros [? ?]; discriminate).
    rewrite (bool_decide_eq_true_2 (None = None)) by reflexivity.
    cbn. lia.
Qed.

Lemma exec_accounted act w :
  brings_accepted act -> well_formed w ->
  accounted (exec act w) = (accounted w + enqueued [act])%nat.
Proof.
  intros Ha Hw. destruct act as [rs|rs| | |k|k t|i c]; cbn [exec enqueued foldr].
  - unfold accounted, getQueueLength.
    cbn [set_queue push unshift set_queries queue inflight qtrace _queries].
    rewrite length_app. lia.
  - unfold accounted, getQueueLength.
    cbn [set_queue push unshift set_queries queue inflight qtrace _queries].
    rewrite length_app. lia.
  - unfold start, _process.
    assert (Hw1 : well_formed (log Info QStart w)) by exact Hw.
    rewrite uncaught_tick by apply Hw1. rewrite tick_accounted by apply Hw1.
    rewrite (accounted_ext w _ [QLog Info QStart]); try reflexivity. lia.
  - rewrite (accounted_ext w _ [QLog Info QStop]); try reflexivity. lia.
  - destruct (pending w !! k); [|lia].
    match goal with |- context [tick ?w1] =>
      assert (Hw1 : well_formed w1) by exact Hw end.
    rewrite uncaught_tick by apply Hw1. rewrite tick_accounted by apply Hw1.
    unfold accounted. cbn [queue inflight qtrace]. lia.
  - destruct (inflight w !! k) as [[i r]|] eqn:Hk; [|lia]. cbn [queue].
    destruct Hw as [_ Hi]. rewrite Forall_forall in Hi.
    assert (Hir : (i < length (_clients (queue w)))%nat).
    { apply (Hi (i, r)), list_elem_of_lookup. eauto. }
    apply lookup_lt_is_Some in Hir as [c Hc]. rewrite Hc.
    destruct (settle (getUrl r) t c) as [s c'].
    rewrite completion_accounted.
    unfold accounted, getQueueLength. cbn [set_queue set_clients queue
      inflight qtrace _queries].
    rewrite length_delete by (rewrite Hk; eauto).
    apply lookup_lt_Some in Hk. lia.
  - unfold accounted, getQueueLength.
    cbn [set_queue set_clients queue inflight qtrace _queries]. lia.
Qed.

(** X14. No request goes missing unseen.  Let every request that [push]
    and [unshift] bring be one that no client refuses on the spot.  Then at
    any time each of them is in one place: waiting in the backlog, in flight,
    done (its callback has returned), given up (the abort is logged), or
    dropped by a [.catch] handler that threw on [null] or [undefined] and
    left its exception unhandled; the five numbers add up to the number of
    requests brought. *)
Theorem every_request_is_accounted_for
    (clients : list C) (maxPer : Z) (maxTotal : option Z)
    (acts : list (Action C)) :
  Forall brings_accepted acts ->
  let w := run acts (boot (constructor clients maxPer maxTotal)) in
  (getQueueLength (queue w) + length (inflight w)
   + succeeded (qtrace w) + aborted (qtrace w) + unhandled (qtrace w))%nat
  = enqueued acts.
Proof.
  intros Hacts. cbv zeta.
  change (accounted (run acts (boot (constructor clients maxPer maxTotal)))
          = enqueued acts).
  induction acts as [|act acts IH] using rev_ind; [reflexivity|].
  apply Forall_app in Hacts as [Hacts Ha]. rewrite Forall_singleton in Ha.
  rewrite run_snoc, enqueued_app, exec_accounted, IH; auto.
  apply run_well_formed; [exact Hacts|]. split; constructor.
Qed.

(** *** The failure counts only grow *)

Lemma dispatch_maxPer (avail : list (nat * C)) w :
  _maxErrorCountPerRequest (queue (snd (dispatch avail w)))
  = _maxErrorCountPerRequest (queue w).
Proof.
  revert w. induction avail as [|[i c] rest IH]; intros w; cbn [dispatch].
  - reflexivity.
  - destruct (pop (_queries (queue w))) as [[x qs']|]; [|reflexivity].
    destruct (request (getUrl x) (getParams x) c) as [[exn|] c'];
      [reflexivity|]. rewrite IH. reflexivity.
Qed.

Lemma tick_maxPer w :
  _maxErrorCountPerRequest (queue (snd (tick w)))
  = _maxErrorCountPerRequest (queue w).
Proof.
  unfold tick. destruct (_isStopped (queue w)); [reflexivity|].
  destruct (_ <=? _); [reflexivity|]. destruct (_ || _); [reflexivity|].
  apply dispatch_maxPer.
Qed.

Lemma grows_refl q q' :
  _errorCount q' = _errorCount q -> _errorUrls q' = _errorUrls q ->
  _maxErrorCountPerRequest q' = _maxErrorCountPerRequest q ->
  grows q q'.
Proof.
  intros He Hu Hm. unfold grows. rewrite He, Hu, Hm.
  split; [lia|]. split; [|split; [|reflexivity]].
  - intros url n Hn. exists n. split; [exact Hn | lia].
  - intros url k Hk. exists k. exact Hk.
Qed.

Lemma grows_trans q1 q2 q3 : grows q1 q2 -> grows q2 q3 -> grows q1 q3.
Proof.
  intros (He & Hu & Ht & Hm) (He' & Hu' & Ht' & Hm').
  split; [lia|]. split; [|split; [|congruence]].
  - intros url n Hn. destruct (Hu url n Hn) as (n' & Hn' & Hle).
    destruct (Hu' url n' Hn') as (n'' & Hn'' & Hle'). exists n''.
    split; [exact Hn'' | lia].
  - intros url k Hk. destruct (Ht url k Hk) as (k' & Hk').
    apply (Ht' url k' Hk').
Qed.

Lemma count_failure_grows (m : Dict) url :
  (forall u n, m !! u = Some (ENum n) ->
     exists n', count_failure m url !! u = Some (ENum n') /\ n <= n')
  /\ (forall u k, m !! u = Some (EText k) ->
       exists k', count_failure m url !! u = Some (EText k')).
Proof.
  unfold count_failure. split.
  - intros u n Hn. destruct (decide (u = url)) as [->|Hne].
    + rewrite Hn, lookup_insert_eq. eexists. split; [reflexivity|].
      destruct (Z.eqb_spec n 0); lia.
    + destruct (m !! url) as [[n0|k0]|];
        [| |destruct (inherited url) as [[]|]];
        rewrite ?lookup_insert_ne by congruence;
        exists n; (split; [exact Hn | lia]).
  - intros u k Hk. destruct (decide (u = url)) as [->|Hne].
    + rewrite Hk, lookup_insert_eq. eexists. reflexivity.
    + destruct (m !! url) as [[n0|k0]|];
        [| |destruct (inherited url) as [[]|]];
        rewrite ?lookup_insert_ne by congruence;
        exists k; exact Hk.
Qed.

Lemma completion_grows r s w : grows (queue w) (queue (completion r s w)).
Proof.
  destruct (completion_frame r s w) as (_ & _ & _ & _ & Hm & _).
  destruct (completion_effect r s w) as (_ & _ & _ & _ & He & Hu & _).
  unfold grows. rewrite He, Hu, Hm.
  destruct (count_failure_grows (_errorUrls (queue w)) (getUrl r)) as (Hn & Ht).
  destruct (counts r s).
  - split; [lia|]. split; [exact Hn|]. split; [exact Ht | reflexivity].
  - split; [lia|]. split; [|split; [|reflexivity]].
    + intros url n Hu'. exists n. split; [exact Hu' | lia].
    + intros url k Hk. exists k. exact Hk.
Qed.

Lemma tick_grows w : grows (queue w) (queue (uncaught (tick w))).
Proof.
  rewrite uncaught_errors. destruct (tick_errors w) as (He & Hu).
  apply grows_refl; [exact He | exact Hu | apply tick_maxPer].
Qed.

Lemma exec_grows act w : grows (queue w) (queue (exec act w)).
Proof.
  destruct act as [rs|rs| | |k|k t|i c]; cbn [exec];
    try (apply grows_refl; reflexivity).
  - unfold start, _process. apply (tick_grows (log Info QStart w)).
  - destruct (pending w !! k); [|apply grows_refl; reflexivity].
    match goal with |- context [tick ?w1] => apply (tick_grows w1) end.
  - destruct (inflight w !! k) as [[i r]|]; [|apply grows_refl; reflexivity].
    cbn [queue].
    destruct (_clients (queue w) !! i) as [c|]; [|apply grows_refl; reflexivity].
    destruct (settle (getUrl r) t c) as [s c'].
    match goal with |- context [completion r s ?w1] =>
      apply (grows_trans _ (queue w1)); [apply grows_refl; reflexivity|];
      apply (completion_grows r s w1) end.
Qed.

Lemma run_grows (acts : list (Action C)) w :
  grows (queue w) (queue (run acts w)).
Proof.
  revert w. induction acts as [|act acts IH]; intros w.
  - apply grows_refl; reflexivity.
  - rewrite run_cons. apply (grows_trans _ (queue (exec act w)));
      [apply exec_grows | apply IH].
Qed.

Lemma grows_fail_count q q' :
  grows q q' -> getRequestFailCount q <= getRequestFailCount q'.
Proof.
  intros (_ & Hu & Ht & Hm). rewrite !getRequestFailCount_spec, Hm.
  apply inj_le, subseteq_size. intros url. unfold abandoned_urls.
  rewrite !elem_of_dom. unfold is_Some.
  setoid_rewrite map_lookup_filter_Some. cbn.
  intros ([n|k] & Hn & Hle); [|discriminate].
  destruct (Hu url n Hn) as (n' & Hn' & Hle').
  exists (ENum n'). split; [exact Hn'|]. cbn in *.
  apply Z.leb_le. apply Z.leb_le in Hle. lia.
Qed.

(** X15. The failure counts only grow.  Whatever happens to a queue, the
    total of the failures does not go down, a URL that has a count keeps one
    that is not smaller, an entry that is not a number stays one, the limit
    per request stays what it is, and so [getRequestFailCount()] does not go
    down: a URL that was given up is not taken back. *)
Theorem failure_counts_only_grow (acts : list (Action C)) w :
  let w' := run acts w in
  _errorCount (queue w) <= _errorCount (queue w')
  /\ (forall url n, _errorUrls (queue w) !! url = Some (ENum n) ->
        exists n', _errorUrls (queue w') !! url = Some (ENum n') /\ n <= n')
  /\ (forall url k, _errorUrls (queue w) !! url = Some (EText k) ->
        exists k', _errorUrls (queue w') !! url = Some (EText k'))
  /\ _maxErrorCountPerRequest (queue w') = _maxErrorCountPerRequest (queue w)
  /\ getRequestFailCount (queue w) <= getRequestFailCount (queue w').
Proof.
  cbv zeta. pose proof (run_grows acts w) as Hg.
  pose proof (grows_fail_count _ _ Hg) as Hf.
  destruct Hg as (He & Hu & Ht & Hm). auto.
Qed.

(** *** The failure counters of requests with plain URLs *)

Lemma dispatch_plain (avail : list (nat * C)) w :
  Forall plain_url (_queries (queue w)) ->
  Forall (fun ir => plain_url (snd ir)) (inflight w) ->
  Forall plain_url (_queries (queue (snd (dispatch avail w))))
  /\ Forall (fun ir => plain_url (snd ir)) (inflight (snd (dispatch avail w))).
Proof.
  revert w. induction avail as [|[i c] rest IH]; intros w Hq Hi;
    cbn [dispatch]; [auto|].
  destruct (pop (_queries (queue w))) as [[x qs]|] eqn:Hpop; [|auto].
  apply pop_Some in Hpop. rewrite Hpop in Hq.
  apply Forall_app in Hq as [Hqs Hx]. rewrite Forall_singleton in Hx.
  destruct (request (getUrl x) (getParams x) c) as [[exn|] c'].
  - cbn. auto.
  - apply IH; cbn; [exact Hqs|].
    apply Forall_app. split; [exact Hi|]. constructor; [exact Hx | constructor].
Qed.

Lemma tick_numeric w : numeric w -> numeric (uncaught (tick w)).
Proof.
  intros (Hq & Hi & Hn & Hc).
  destruct (uncaught_frame (tick w)) as (Hu & Hui & _).
  destruct (tick_errors w) as (He & Hm).
  unfold numeric, counters_agree. rewrite Hu, Hui, He, Hm.
  assert (Forall plain_url (_queries (queue (snd (tick w))))
          /\ Forall (fun ir => plain_url (snd ir)) (inflight (snd (tick w))))
    as (Hq' & Hi').
  { unfold tick. destruct (_isStopped (queue w)); [auto|].
    destruct (_ <=? _); [auto|]. destruct (_ || _); [auto|].
    apply dispatch_plain; assumption. }
  auto.
Qed.

Lemma numbers_counted (m : Dict) url :
  numbers m -> inherited url = None -> counted m url = true.
Proof.
  intros Hn Hp. unfold counted. rewrite Hp.
  destruct (m !! url) as [e|] eqn:He; [|reflexivity].
  destruct (Hn url e He) as (n & -> & _). reflexivity.
Qed.

Lemma numbers_count_failure (m : Dict) url :
  numbers m -> inherited url = None -> numbers (count_failure m url).
Proof.
  intros Hn Hp. rewrite (count_failure_counted _ _ (numbers_counted _ _ Hn Hp)).
  intros u e. destruct (decide (u = url)) as [->|Hne].
  - rewrite lookup_insert_eq. intros [= <-]. eexists. split; [reflexivity|].
    unfold failures. destruct (m !! url) as [e|] eqn:He; [|lia].
    destruct (Hn url e He) as (n & -> & Hle). lia.
  - rewrite lookup_insert_ne by congruence. apply Hn.
Qed.

Lemma completion_numeric r s w :
  plain_url r -> numeric w -> numeric (completion r s w).
Proof.
  intros Hr (Hq & Hi & Hn & Hc).
  destruct (completion_frame r s w) as (Hfi & _).
  destruct (completion_effect r s w) as (_ & _ & _ & _ & He & Hm & Hqs).
  unfold numeric, counters_agree in *. rewrite Hfi, He, Hm, Hqs.
  destruct (counts r s); cbn [andb].
  - split; [destruct (below _ _ _); [constructor|]; assumption|].
    split; [exact Hi|]. split; [apply numbers_count_failure; assumption|].
    rewrite sum_errors_bump by (apply numbers_counted; assumption). lia.
  - split; [exact Hq|]. split; [exact Hi|]. split; [exact Hn | lia].
Qed.

Lemma exec_numeric act w :
  brings_plain act -> numeric w -> numeric (exec act w).
Proof.
  intros Ha Hw. pose proof Hw as (Hq & Hi & Hn & Hc).
  destruct act as [rs|rs| | |k|k t|i c]; cbn [exec brings_plain] in *.
  - split; [apply Forall_app; split; assumption|]. split; [exact Hi|].
    split; [exact Hn | exact Hc].
  - split; [apply Forall_app; split; assumption|]. split; [exact Hi|].
    split; [exact Hn | exact Hc].
  - unfold start, _process. apply (tick_numeric (log Info QStart w)).
    split; [exact Hq|]. split; [exact Hi|]. split; [exact Hn | exact Hc].
  - split; [exact Hq|]. split; [exact Hi|]. split; [exact Hn | exact Hc].
  - destruct (pending w !! k); [|exact Hw].
    match goal with |- context [tick ?w1] => apply (tick_numeric w1) end.
    split; [exact Hq|]. split; [exact Hi|]. split; [exact Hn | exact Hc].
  - destruct (inflight w !! k) as [[i r]|] eqn:Hk; [|exact Hw].
    assert (Hr : plain_url r).
    { rewrite Forall_forall in Hi.
      apply (Hi (i, r)), list_elem_of_lookup. exists k. exact Hk. }
    assert (Hi' : Forall (fun ir => plain_url (snd ir)) (delete k (inflight w)))
      by (apply Forall_delete; exact Hi).
    cbn [queue].
    destruct (_clients (queue w) !! i) as [c|].
    2:{ split; [exact Hq|]. split; [exact Hi'|]. split; [exact Hn | exact Hc]. }
    destruct (settle (getUrl r) t c) as [s c'].
    apply (completion_numeric r s); [exact Hr|].
    split; [exact Hq|]. split; [exact Hi'|]. split; [exact Hn | exact Hc].
  - split; [exact Hq|]. split; [exact Hi|]. split; [exact Hn | exact Hc].
Qed.

Lemma run_numeric (acts : list (Action C)) w :
  Forall brings_plain acts -> numeric w -> numeric (run acts w).
Proof.
  revert w. induction acts as [|act acts IH]; intros w Ha Hw; [exact Hw|].
  apply Forall_cons in Ha as [Ha Hacts]. rewrite run_cons.
  apply IH; [exact Hacts|]. apply exec_numeric; assumption.
Qed.

Lemma abandoned_urls_spec (maxPer : Z) (m : Dict) url :
  url ∈ abandoned_urls maxPer m
  <-> exists n, m !! url = Some (ENum n) /\ maxPer <= n.
Proof.
  unfold abandoned_urls. rewrite elem_of_dom. unfold is_Some.
  setoid_rewrite map_lookup_filter_Some. cbn. split.
  - intros ([n|k] & Hn & Hle); [|discriminate].
    exists n. split; [exact Hn|]. apply Z.leb_le. exact Hle.
  - intros (n & Hn & Hle). exists (ENum n). split; [exact Hn|].
    apply Z.leb_le. exact Hle.
Qed.

(** X18. The two failure counters of a queue whose requests have plain
    URLs.  Let no request that [push] and [unshift] bring have, for its URL,
    the name of a property that every object inherits.  Then, whatever
    happens to the queue, every entry of [_errorUrls] is a number, 1 at
    least; [_errorCount] is the sum of these numbers; and
    [getRequestFailCount()] is the number of URLs whose entry has reached
    the limit per request. *)
Theorem counters_agree_for_plain_urls
    (clients : list C) (maxPer : Z) (maxTotal : option Z)
    (acts : list (Action C)) :
  Forall brings_plain acts ->
  let w := run acts (boot (constructor clients maxPer maxTotal)) in
  let m := _errorUrls (queue w) in
  (forall url e, m !! url = Some e -> exists n, e = ENum n /\ 1 <= n)
  /\ _errorCount (queue w) = sum_errors m
  /\ getRequestFailCount (queue w) = Z.of_nat (size (abandoned_urls maxPer m))
  /\ (forall url, url ∈ abandoned_urls maxPer m
        <-> exists n, m !! url = Some (ENum n) /\ maxPer <= n).
Proof.
  intros Hacts. cbv zeta.
  destruct (run_numeric acts (boot (constructor clients maxPer maxTotal)) Hacts)
    as (_ & _ & Hn & Hc).
  { split; [constructor|]. split; [constructor|].
    split; [intros url e He; change ((∅ : Dict) !! url = Some e) in He;
             rewrite lookup_empty in He; discriminate|].
    unfold counters_agree. cbn. rewrite sum_errors_empty. reflexivity. }
  split; [exact Hn|]. split; [exact Hc|].
  split; [|intros url; apply abandoned_urls_spec].
  rewrite getRequestFailCount_spec.
  destruct (run_grows acts (boot (constructor clients maxPer maxTotal)))
    as (_ & _ & _ & ->).
  reflexivity.
Qed.

End WithClient.

(** *** Runs with the clients of the tests and with the client above *)

Import Scenario.

(** Two pushes, a timer that does not exist and a [stop], without
    [start]. *)
Lemma nothing_happens_before_start_witness :
  let w : Loop Mock :=
    run [APush [req_a; req_b]; AUnshift [req_x]; ATimer 0; AStop]
      (boot (new_queue [succeeding])) in
  pending w = [] /\ inflight w = []
  /\ dispatched (qtrace w) = [] /\ callbacks (qtrace w) = []
  /\ getQueueLength (queue w) = 3%nat.
Proof.
  exact (nothing_happens_before_start [succeeding] 5 None
           [APush [req_a; req_b]; AUnshift [req_x]; ATimer 0; AStop]
           eq_refl).
Defined.

(** Two free clients and three requests: the first client gets the last
    request, the second the one before, and the first request waits. *)
Lemma tick_hands_the_tail_to_the_free_clients_witness :
  let w : Loop Mock :=
    exec (APush [req_a; req_b; req_x]) (boot (new_queue [succeeding; failing])) in
  inflight (snd (tick w)) = [(0%nat, req_x); (1%nat, req_b)]
  /\ map (fun r => _id r) (_queries (queue (snd (tick w)))) = [1%nat]
  /\ pending (snd (tick w)) = [].
Proof.
  intros w.
  assert (Hs : _isStopped (queue w) = false) by reflexivity.
  assert (He : _errorCount (queue w) < _maxErrorCountInTotal (queue w))
    by reflexivity.
  assert (Hn : fst (tick w) = None) by reflexivity.
  destruct (tick_hands_the_tail_to_the_free_clients w Hs He Hn)
    as (Hi & _ & Hq & _ & Hp & _).
  split; [exact Hi|]. split; [rewrite Hq; reflexivity | exact Hp].
Defined.

(** The first failure of a request: counted, and the request is back in
    the backlog. *)
Lemma settlement_runs_the_handlers_witness :
  let w : Loop Mock :=
    run [APush [req_x]; AStart] (boot (new_queue [failing])) in
  let w' := exec (ASettle 0 (Failed network_error)) w in
  inflight w' = [] /\ pending w' = [0]
  /\ callbacks (qtrace w') = []
  /\ unhandled (qtrace w') = 0%nat
  /\ _errorCount (queue w') = 1
  /\ failures (_errorUrls (queue w')) (getUrl req_x) = 1
  /\ _queries (queue w') = [req_x].
Proof.
  intros w w'.
  destruct (settlement_runs_the_handlers w 0 0 req_x
              {| mock_authorized := true; mock_busy := false;
                 mock_settles := Rejects (Request.Failure (Transport network_error));
                 mock_calls := 1 |}
              (Failed network_error) eq_refl eq_refl)
    as (Hi & Hp & _ & Hc & Hu & _ & Hcount).
  destruct (Hcount eq_refl) as (He & _ & Hn & _).
  destruct (Hn eq_refl) as (Hf & Hq).
  change (_queries (queue w') = req_x :: _queries (queue w)
          /\ aborted (qtrace w') = aborted (qtrace w)) in Hq.
  destruct Hq as (Hq & _).
  fold w' in Hi, Hp, Hc, Hu, He, Hf.
  split; [exact Hi|]. split; [exact Hp|]. split; [exact Hc|].
  split; [exact Hu|]. split; [exact He|]. split; [exact Hf | exact Hq].
Defined.

Lemma mock_accepts (r : GitHubApiRequest) : accepted (C := Mock) r.
Proof. intros c. reflexivity. Qed.

(** The client above refuses a request on the spot when its [params] is
    [null], and only then. *)
Lemma github_accepts (r : GitHubApiRequest) :
  accepted (C := Client.World) r <-> getParams r <> PNull.
Proof.
  unfold accepted. split.
  - intros Ha Hp. specialize (Ha github). rewrite Hp in Ha. discriminate.
  - intros Hp c. destruct (getParams r); [reflexivity | congruence | reflexivity].
Qed.

(** A request that fails, is settled and waits for the timer of the
    settlement. *)
Lemma started_queue_stays_alive_witness :
  alive (run ([APush [req_a]]
                ++ AStart :: [ASettle 0 (Failed network_error); ATimer 0])
           (boot (constructor [failing] 5 None))).
Proof.
  apply (started_queue_stays_alive [failing] 5 None [APush [req_a]]
           [ASettle 0 (Failed network_error); ATimer 0]).
  - repeat constructor; apply mock_accepts.
  - reflexivity.
  - reflexivity.
Defined.

(** Two requests, one of them done. *)
Lemma every_request_is_accounted_for_witness :
  let w : Loop Mock :=
    run [APush [req_a; req_b]; AStart; settles]
      (boot (new_queue [succeeding])) in
  (getQueueLength (queue w) + length (inflight w)
   + succeeded (qtrace w) + aborted (qtrace w) + unhandled (qtrace w))%nat
  = 2%nat
  /\ succeeded (qtrace w) = 1%nat.
Proof.
  split; [|reflexivity].
  apply (every_request_is_accounted_for [succeeding] 5 None
           [APush [req_a; req_b]; AStart; settles]).
  repeat constructor; apply mock_accepts.
Defined.

(** The repository's test of a recurring error: one request, a limit of two
    failures, a client whose requests all fail. *)
Lemma counters_agree_for_plain_urls_witness :
  let w : Loop Mock :=
    run [APush [req_404]; AStart; settles; ATimer 0; settles; ATimer 0]
      (boot (constructor [failing] 2 None)) in
  _errorCount (queue w) = sum_errors (_errorUrls (queue w))
  /\ _errorCount (queue w) = 2
  /\ getRequestFailCount (queue w)
     = Z.of_nat (size (abandoned_urls 2 (_errorUrls (queue w))))
  /\ getRequestFailCount (queue w) = 1
  /\ getQueueLength (queue w) = 0%nat.
Proof.
  intros w.
  destruct (counters_agree_for_plain_urls [failing] 2 None
              [APush [req_404]; AStart; settles; ATimer 0; settles; ATimer 0])
    as (_ & Hc & Hf & _).
  { repeat constructor. }
  fold w in Hc, Hf.
  split; [exact Hc|]. split; [reflexivity|]. split; [exact Hf|].
  split; reflexivity.
Defined.

Lemma github_request_sets_busy url params (c : Client.World) :
  isBusy (snd (request url params c)) = true.
Proof.
  pose proof (ClientFacts.request_busy (Some url) params c) as Hb.
  change (request url params c)
    with (match Client.request (Some url) params c with
          | (Client.Ret _, w') => (None, w')
          | (Client.Throw x, w') => (Some x, w')
          end).
  destruct (Client.request (Some url) params c) as [[[]|x] c']; exact Hb.
Qed.

(** Two clients with a token, the second paused by its user; two requests
    and [start]. *)
Lemma one_dispatch_in_flight_per_client_witness :
  let paused := snd (Client.pause (Num 1700000005000) github) in
  let w : Loop Client.World :=
    run [AClient 1 paused; APush [req_a; req_b]; AStart]
      (boot (new_queue [github; github])) in
  NoDup (map fst (inflight w))
  /\ forall i r, (i, r) ∈ inflight w ->
       exists c, _clients (queue w) !! i = Some c /\ isBusy c = true.
Proof.
  intros paused.
  apply (one_dispatch_in_flight_per_client github_request_sets_busy
           [github; github] 5 None
           [AClient 1 paused; APush [req_a; req_b]; AStart]).
  split; [|repeat split].
  exists github. split; reflexivity.
Defined.

(** *** A request with [null] for its parameters *)

(** X16. With the client above, a request whose [params] is [null] breaks
    the run of the loop that takes it.  The run pops the request and the
    client throws before it has a promise to give: the exception leaves the
    run, the request is neither in the backlog nor in flight, so that none
    of the handlers will run for it, the free clients after this one are not
    served, the run sets no timer, and the client stays busy. *)
Theorem null_params_break_the_run
    (w : Loop Client.World) (i : nat) (c : Client.World)
    (rest : list (nat * Client.World)) (bl : list GitHubApiRequest)
    (r : GitHubApiRequest) :
  _isStopped (queue w) = false ->
  _errorCount (queue w) < _maxErrorCountInTotal (queue w) ->
  availableClients (_clients (queue w)) = (i, c) :: rest ->
  _queries (queue w) = bl ++ [r] ->
  getParams r = PNull ->
  let w' := snd (tick w) in
  fst (tick w) = Some TypeError
  /\ _queries (queue w') = bl
  /\ inflight w' = inflight w
  /\ pending w' = pending w
  /\ dispatched (qtrace w') = dispatched (qtrace w) ++ [(i, r)]
  /\ _errorCount (queue w') = _errorCount (queue w)
  /\ exists c', _clients (queue w') !! i = Some c'
                /\ isBusy c' = true
                /\ Client.self c' = Client.set_busy true (Client.self c).
Proof.
  intros Hs He Ha Hq Hp.
  assert (Hc : _clients (queue w) !! i = Some c).
  { apply (availableClients_elem (_clients (queue w)) i c).
    rewrite Ha. apply list_elem_of_here. }
  cbv zeta. unfold tick. rewrite Hs.
  destruct (Z.leb_spec (_maxErrorCountInTotal (queue w)) (_errorCount (queue w)));
    [lia|].
  rewrite Ha, Hq, length_app. cbn [length].
  rewrite Nat.add_comm. cbn [Nat.add Nat.eqb orb dispatch].
  rewrite Hq, pop_snoc, Hp.
  cbn. rewrite dispatched_app. cbn.
  split; [reflexivity|]. split; [reflexivity|]. split; [reflexivity|].
  split; [reflexivity|]. split; [reflexivity|]. split; [reflexivity|].
  eexists. split.
  - apply list_lookup_insert_eq. apply lookup_lt_Some in Hc. exact Hc.
  - split; destruct (Client.self c); reflexivity.
Qed.

Lemma null_params_break_the_run_witness :
  let r := Request.constructor 4 (search_url "stars:3") PNull None in
  let w : Loop Client.World :=
    exec (APush [req_a; r]) (boot (new_queue [github])) in
  fst (tick w) = Some TypeError
  /\ map (fun r => _id r) (_queries (queue (snd (tick w)))) = [1%nat]
  /\ inflight (snd (tick w)) = []
  /\ pending (snd (tick w)) = [].
Proof.
  intros r w.
  assert (Hs : _isStopped (queue w) = false) by reflexivity.
  assert (He : _errorCount (queue w) < _maxErrorCountInTotal (queue w))
    by reflexivity.
  assert (Ha : availableClients (_clients (queue w)) = [(0%nat, github)])
    by reflexivity.
  assert (Hq0 : _queries (queue w) = [req_a] ++ [r]) by reflexivity.
  assert (Hp0 : getParams r = PNull) by reflexivity.
  destruct (null_params_break_the_run w 0 github [] [req_a] r
              Hs He Ha Hq0 Hp0)
    as (Hf & Hq & Hi & Hp & _).
  split; [exact Hf|]. split; [rewrite Hq; reflexivity|].
  split; [exact Hi | exact Hp].
Defined.

End QueueExtra.
